(** * AndroidOrrery: the ephemeris scripts, embedded and verified

    Shallow embedding of the Python scripts under [scripts/]:

    - [convertEphemeris.py]        (module [Codec]): CSV rows to the binary
      ephemeris file, one little-endian IEEE-754 double per column;
    - [verifyEphemerisSplit.py]    (module [Verify]): the tolerant CSV loader
      and the bracketing search with wrap-aware interpolation;
    - [compare_with_horizons.py]   (modules [Compare], [CompareRest]):
      [angle_diff] and [compare_value];
    - [generatePlanetsEphemeris.py] (module [Generate]): parsing of the
      per-body tables and their merge into one wide CSV;
    - [cities.py]                  (module [Cities]): the city list.

    Numbers.  A Python float that is only stored or copied (the codec) is
    modelled by its binary64 fields, so that equality is equality of bit
    patterns.  A finite double held in a table is given by the rational
    it denotes, and comparisons of such values are comparisons of
    rationals.  What the scripts compute from them in floating point (the
    interpolator, [angle_diff]) is computed in module [PyFloat]: every
    operation delivers the exact result rounded to the nearest double,
    ties to even, with overflow to an infinity and NaN as in IEEE 754.  *)

From Stdlib Require Import Strings.String Strings.Ascii Strings.Byte.
From Stdlib Require Import ZArith QArith Qround Qabs Qpower Qreduction.
From Stdlib Require Import Bool Lia Lqa Arith List.
From Stdlib Require Import Sorting.Sorted.
Import ListNotations.

Close Scope Q_scope.

(* ================================================================== *)
(** ** Python outcomes *)
(* ================================================================== *)

Module Py.

Inductive exn : Type :=
| IndexError
| ZeroDivisionError
| StopIteration
| ValueError.

(** A call returns, raises, or (in the model only) exhausts the fuel of
    a loop. *)
Inductive outcome (A : Type) : Type :=
| Return (a : A)
| Raise (e : exn)
| OutOfFuel.

Arguments Return {A} a.
Arguments Raise {A} e.
Arguments OutOfFuel {A}.

Definition bind {A B : Type} (m : outcome A) (k : A -> outcome B) : outcome B :=
  match m with
  | Return a => k a
  | Raise e => Raise e
  | OutOfFuel => OutOfFuel
  end.

(** [l[i]] for a non-negative [i]. *)
Definition index {A : Type} (l : list A) (i : nat) : outcome A :=
  match nth_error l i with
  | Some a => Return a
  | None => Raise IndexError
  end.

End Py.

Notation "x <- m ;; k" := (Py.bind m (fun x => k))
  (at level 61, m at next level, right associativity).

(* ================================================================== *)
(** ** Python floats *)
(* ================================================================== *)

Module PyFloat.
Import Py.
Local Open Scope Q_scope.

(** A binary64 value that is computed with: a finite double, given by
    the rational it denotes, an infinity, or NaN.  (The two zeros are
    one value here: they compare equal, and no operation below tells
    them apart.) *)
Inductive pyfloat : Type :=
| Finite (q : Q)
| PInf
| NInf
| NaN.

Definition pow2 (k : Z) : Q := 2 ^ k.

(** [floor (log2 x)] for a positive [x]. *)
Definition ilog2 (x : Q) : Z :=
  let k := (Z.log2 (Qnum x) - Z.log2 (Zpos (Qden x)))%Z in
  if Qle_bool (pow2 k) x then k else (k - 1)%Z.

(** The integer nearest [s], the even one of two equally near. *)
Definition rne (s : Q) : Z :=
  let f := Qfloor s in
  let r := s - inject_Z f in
  if negb (Qle_bool (1 # 2) r) then f
  else if negb (Qle_bool r (1 # 2)) then (f + 1)%Z
  else if Z.even f then f else (f + 1)%Z.

(** The exponent of the last place of a positive [x]: 53 significant
    bits, and no finer than [2^-1074]. *)
Definition ulp_exp (x : Q) : Z := Z.max (ilog2 x - 52) (-1074).

Definition rnd_pos (x : Q) : Q :=
  let e := ulp_exp x in
  Qred (inject_Z (rne (x / pow2 e)) * pow2 e).

(** IEEE-754 rounding to nearest, ties to even, of a real number to
    binary64 precision, before the test for overflow. *)
Definition rnd (x : Q) : Q :=
  if Qeq_bool x 0 then 0
  else if Qle_bool 0 x then rnd_pos x
  else - rnd_pos (- x).

(** The double a real result is delivered as: rounded, and infinite
    from [2^1024] on. *)
Definition of_Q (x : Q) : pyfloat :=
  let r := rnd x in
  if Qle_bool (pow2 1024) r then PInf
  else if Qle_bool r (- pow2 1024) then NInf
  else Finite r.

(** Whether [q] is the value of a finite double. *)
Definition is_double (q : Q) : bool :=
  match of_Q q with
  | Finite r => Qeq_bool r q
  | _ => false
  end.

Definition is_finite (a : pyfloat) : bool :=
  match a with Finite _ => true | _ => false end.

(** [-a] *)
Definition fneg (a : pyfloat) : pyfloat :=
  match a with
  | Finite x => Finite (- x)
  | PInf => NInf
  | NInf => PInf
  | NaN => NaN
  end.

(** [a + b] *)
Definition fadd (a b : pyfloat) : pyfloat :=
  match a, b with
  | NaN, _ | _, NaN => NaN
  | Finite x, Finite y => of_Q (x + y)
  | PInf, NInf | NInf, PInf => NaN
  | PInf, _ | _, PInf => PInf
  | NInf, _ | _, NInf => NInf
  end.

(** [a - b] *)
Definition fsub (a b : pyfloat) : pyfloat := fadd a (fneg b).

(** An infinity times a finite [x]: NaN for zero, else an infinity of
    the sign of [x], the other one when [negate] is set. *)
Definition signed_inf (x : Q) (negate : bool) : pyfloat :=
  if Qeq_bool x 0 then NaN
  else if xorb (Qle_bool 0 x) negate then PInf else NInf.

(** [a * b] *)
Definition fmul (a b : pyfloat) : pyfloat :=
  match a, b with
  | NaN, _ | _, NaN => NaN
  | Finite x, Finite y => of_Q (x * y)
  | Finite x, PInf | PInf, Finite x => signed_inf x false
  | Finite x, NInf | NInf, Finite x => signed_inf x true
  | PInf, PInf | NInf, NInf => PInf
  | PInf, NInf | NInf, PInf => NInf
  end.

(** [a / b]: Python raises on a zero divisor, whatever the dividend. *)
Definition fdiv (a b : pyfloat) : outcome pyfloat :=
  match b with
  | Finite y =>
      if Qeq_bool y 0 then Raise ZeroDivisionError
      else
        match a with
        | Finite x => Return (of_Q (x / y))
        | PInf => Return (if Qle_bool 0 y then PInf else NInf)
        | NInf => Return (if Qle_bool 0 y then NInf else PInf)
        | NaN => Return NaN
        end
  | PInf | NInf =>
      match a with
      | Finite _ => Return (Finite 0)
      | _ => Return NaN
      end
  | NaN => Return NaN
  end.

(** [a < b], [a <= b], [a > b], [a >= b]; every comparison with NaN is
    false. *)
Definition flt (a b : pyfloat) : bool :=
  match a, b with
  | NaN, _ | _, NaN => false
  | Finite x, Finite y => negb (Qle_bool y x)
  | _, NInf => false
  | PInf, _ => false
  | NInf, _ => true
  | _, PInf => true
  end.

Definition fle (a b : pyfloat) : bool :=
  match a, b with
  | NaN, _ | _, NaN => false
  | Finite x, Finite y => Qle_bool x y
  | NInf, _ => true
  | _, PInf => true
  | _, NInf => false
  | PInf, _ => false
  end.

Definition fgt (a b : pyfloat) : bool := flt b a.
Definition fge (a b : pyfloat) : bool := fle b a.

(** [abs(a)] *)
Definition fabs (a : pyfloat) : pyfloat :=
  match a with
  | Finite x => Finite (Qabs x)
  | PInf | NInf => PInf
  | NaN => NaN
  end.

(** The quotient cut towards zero. *)
Definition Qtrunc (q : Q) : Z :=
  if Qle_bool 0 q then Qfloor q else Qceiling q.

(** C's [fmod] on finite operands, [y] not zero: the remainder of the
    division cut towards zero.  It is exact: no rounding takes place. *)
Definition fmod (x y : Q) : Q := x - y * inject_Z (Qtrunc (x / y)).

(** [a % b] on floats ([float_rem] of the interpreter): [fmod], then
    the divisor is added once when the remainder is not zero and has
    the other sign. *)
Definition float_mod (a b : pyfloat) : outcome pyfloat :=
  match b with
  | Finite y =>
      if Qeq_bool y 0 then Raise ZeroDivisionError
      else
        match a with
        | Finite x =>
            let m := fmod x y in
            if Qeq_bool m 0 then Return (Finite 0)
            else if xorb (negb (Qle_bool 0 y)) (negb (Qle_bool 0 m))
                 then Return (fadd (Finite m) (Finite y))
                 else Return (Finite m)
        | _ => Return NaN
        end
  | PInf =>
      match a with
      | Finite x => Return (if negb (Qle_bool 0 x) then PInf else Finite x)
      | _ => Return NaN
      end
  | NInf =>
      match a with
      | Finite x =>
          Return (if Qeq_bool x 0 then Finite 0
                  else if Qle_bool 0 x then NInf else Finite x)
      | _ => Return NaN
      end
  | NaN => Return NaN
  end.

End PyFloat.

(* ================================================================== *)
(** ** Bytes and little-endian integers *)
(* ================================================================== *)

Module Bytes.
Local Open Scope Z_scope.

Definition byte_of_Z (z : Z) : byte :=
  match Byte.of_N (Z.to_N (z mod 256)) with
  | Some b => b
  | None => Byte.x00
  end.

Definition Z_of_byte (b : byte) : Z := Z.of_N (Byte.to_N b).

(** The [n] low-order bytes of [z], least significant first. *)
Fixpoint to_le (n : nat) (z : Z) : list byte :=
  match n with
  | O => []
  | S k => byte_of_Z (Z.land z 255) :: to_le k (Z.shiftr z 8)
  end.

(** Modelled from the spec: the reader's side of "little-endian", the
    integer a byte string denotes, least significant byte first. *)
Fixpoint of_le (bs : list byte) : Z :=
  match bs with
  | [] => 0
  | b :: rest => Z_of_byte b + Z.shiftl (of_le rest) 8
  end.

End Bytes.

(* ================================================================== *)
(** ** IEEE-754 binary64 values as [struct] sees them *)
(* ================================================================== *)

Module Float64.
Local Open Scope Z_scope.
Import Bytes.

(** A double is its three interchange fields: 1 sign bit, 11 bits of
    biased exponent, 52 bits of fraction.  Every bit pattern (zeros,
    subnormals, infinities, NaNs with their payload) is one such triple. *)
Record binary64 : Type := mkB64 {
  sign : bool;
  biased_exp : Z;
  fraction : Z
}.

Definition valid (d : binary64) : Prop :=
  0 <= biased_exp d < 2 ^ 11 /\ 0 <= fraction d < 2 ^ 52.

Definition validb (d : binary64) : bool :=
  (0 <=? biased_exp d) && (biased_exp d <? 2 ^ 11) &&
  (0 <=? fraction d) && (fraction d <? 2 ^ 52).

(** The 64-bit pattern: sign in bit 63, exponent in bits 62..52,
    fraction in bits 51..0. *)
Definition bits_of (d : binary64) : Z :=
  Z.shiftl (Z.b2z (sign d)) 63 + Z.shiftl (biased_exp d) 52 + fraction d.

(** Modelled from the spec: the reader's side of "64-bit IEEE-754", the
    three fields of a 64-bit pattern. *)
Definition of_bits (w : Z) : binary64 :=
  {| sign := Z.testbit w 63;
     biased_exp := Z.land (Z.shiftr w 52) (Z.ones 11);
     fraction := Z.land w (Z.ones 52) |}.

(** [struct.pack("<d", x)]: the 8 bytes of the pattern, low byte first. *)
Definition pack_d (d : binary64) : list byte := to_le 8 (bits_of d).

(** Modelled from the spec: how the reader takes one double out of 8
    bytes (what [struct.unpack("<d", bs)] would do); no script under
    [scripts/] reads the binary file. *)
Definition unpack_d (bs : list byte) : binary64 := of_bits (of_le bs).

Definition eqb (a b : binary64) : bool :=
  Bool.eqb (sign a) (sign b) && (biased_exp a =? biased_exp b)
  && (fraction a =? fraction b).

(** 1.0 and 2459000.5 as doubles, for the examples. *)
Definition one : binary64 := mkB64 false 1023 0.
Definition jd_2459000_5 : binary64 := mkB64 false 1044 (0x2c2bc40000000).

End Float64.

(* ================================================================== *)
(** ** convertEphemeris.py *)
(* ================================================================== *)

Module Codec.
Import Bytes Float64.

(** [struct.pack(f"<{n}d", *row)]: [n] doubles, little-endian, no padding;
    [struct.error] (here [None]) unless exactly [n] values are passed. *)
Definition struct_pack (n : nat) (row : list binary64) : option (list byte) :=
  if Nat.eqb (length row) n then Some (flat_map pack_d row) else None.

(** What a run leaves behind: the file as written, and whether the loop
    ran to its end or was cut short by [struct.error]. *)
Inductive written : Type :=
| Success (file : list byte)
| StructError (file_so_far : list byte).

(** The loop [for row in df.itertuples(...): f.write(struct.pack(fmt, *row))]
    over a file opened with ['wb'] (so it starts empty). *)
Fixpoint write_rows (expected_cols : nat) (rows : list (list binary64))
                    (f : list byte) : written :=
  match rows with
  | [] => Success f
  | row :: rest =>
      match struct_pack expected_cols row with
      | Some record => write_rows expected_cols rest (f ++ record)
      | None => StructError f
      end
  end.

(** [convert_csv_to_bin], from the data frame [df] that [pd.read_csv]
    returned (its tuples, in order).  A column count other than
    [expected_cols] only prints a warning in the source; the rows are
    packed all the same. *)
Definition convert_csv_to_bin (df : list (list binary64))
                              (num_data_cols : nat) : written :=
  let expected_cols := 1 + num_data_cols in
  write_rows expected_cols df [].

(** The two calls of the script's [__main__]. *)
Definition main_planets (df : list (list binary64)) : written :=
  convert_csv_to_bin df 54.
Definition main_moon (df : list (list binary64)) : written :=
  convert_csv_to_bin df 6.

(** *** Schema and reader side *)

Definition fields_per_body : nat := 6.

(** Modelled from the spec: the schema of section 3, an ordered list of
    bodies with six fields each; the scripts only have the two column
    counts 54 and 6 and the comment naming the nine bodies. *)
Record schema : Type := mkSchema {
  dataset_name : string;
  bodies : list string
}.

Definition recordWidth (s : schema) : nat :=
  1 + fields_per_body * length (bodies s).

Definition planets : schema :=
  mkSchema "planets"
    ["Sun"; "Mercury"; "Venus"; "Mars"; "Jupiter"; "Saturn"; "Uranus";
     "Neptune"; "Halley"]%string.

Definition moon : schema := mkSchema "moon" ["Moon"%string].

(** The encoder for a schema: the converter called with the schema's data
    columns, as [__main__] does with 54 and 6. *)
Definition encode (s : schema) (rows : list (list binary64)) : written :=
  convert_csv_to_bin rows (fields_per_body * length (bodies s)).

(** A dataset is valid under a schema when every row has the record width
    and every cell is a double. *)
Definition valid_row (w : nat) (row : list binary64) : Prop :=
  length row = w /\ Forall valid row.

Definition valid_dataset (s : schema) (rows : list (list binary64)) : Prop :=
  Forall (valid_row (recordWidth s)) rows.

(** [count] consecutive pieces of [size] elements each. *)
Fixpoint pieces {A : Type} (size count : nat) (l : list A) : list (list A) :=
  match count with
  | O => []
  | S c => firstn size l :: pieces size c (skipn size l)
  end.

Inductive decode_error : Type := TruncatedRecord.

(** Modelled from the spec: the decoder is not among the Python scripts
    (the reader of the [.bin] files is the application).  It fails with
    [TruncatedRecord] when the byte count is not a multiple of [W*8];
    otherwise the record count is [total_bytes / (W*8)] and each record
    is [W] little-endian doubles in column order. *)
Definition decode (bs : list byte) (s : schema)
  : decode_error + list (list binary64) :=
  let record_bytes := recordWidth s * 8 in
  if Nat.eqb (length bs mod record_bytes) 0 then
    inr (map (fun rec => map unpack_d (pieces 8 (recordWidth s) rec))
             (pieces record_bytes (length bs / record_bytes) bs))
  else inl TruncatedRecord.

End Codec.

(* ================================================================== *)
(** ** verifyEphemerisSplit.py *)
(* ================================================================== *)

Module Verify.
Import Py PyFloat.
Local Open Scope Q_scope.

(** Python's [a < b] and [a <= b] on numbers. *)
Definition Qltb (a b : Q) : bool := negb (Qle_bool b a).
Definition Qleb (a b : Q) : bool := Qle_bool a b.

(** [vals[0]] of a kept row, the Julian Date column. *)
Definition first_col (vals : list Q) : Q := nth 0 vals 0.

Section Loader.

(** The builtin [float(x)] on a CSV field; [None] stands for [ValueError]. *)
Variable float : string -> option Q.

(** [[float(x) for x in row]]: every field, or [ValueError] at the first
    field that does not parse. *)
Fixpoint floats (row : list string) : option (list Q) :=
  match row with
  | [] => Some []
  | x :: rest =>
      match float x with
      | None => None
      | Some v =>
          match floats rest with
          | None => None
          | Some vs => Some (v :: vs)
          end
      end
  end.

(** The body of [for row in reader], threading [times] and [data_rows]. *)
Fixpoint load_rows (reader : list (list string))
                   (times : list Q) (data_rows : list (list Q))
  : outcome (list Q * list (list Q)) :=
  match reader with
  | [] => Return (times, data_rows)
  | row :: rest =>
      match row with
      | [] => load_rows rest times data_rows              (* if not row: continue *)
      | _ :: _ =>
          match floats row with
          | None => load_rows rest times data_rows        (* except ValueError *)
          | Some vals =>
              v0 <- index vals 0 ;;
              load_rows rest (times ++ [v0]) (data_rows ++ [vals])
          end
      end
  end.

(** [load_file]: [file] is what [csv.reader] yields for the named file,
    header first, or [None] when the file does not exist. *)
Definition load_file (file : option (list (list string)))
  : outcome (option (list Q) * option (list (list Q))) :=
  match file with
  | None => Return (None, None)                            (* FileNotFoundError *)
  | Some [] => Raise StopIteration                         (* next(reader) *)
  | Some (_header :: reader) =>
      r <- load_rows reader [] [] ;;
      Return (Some (fst r), Some (snd r))
  end.

(** The rows the loader keeps, said directly: the non-empty rows all of
    whose fields parse, each with as many values as it has fields. *)
Definition kept_row (row : list string) : list (list Q) :=
  match row with
  | [] => []
  | _ :: _ =>
      match floats row with
      | Some vals => [vals]
      | None => []
      end
  end.

Definition kept_rows (reader : list (list string)) : list (list Q) :=
  flat_map kept_row reader.

End Loader.

(** The loop [while high - low > 1], with [fuel] bounding its iterations. *)
Fixpoint bisect (fuel : nat) (target_jd : Q) (times : list Q)
                (low high : nat) : outcome (nat * nat) :=
  if (high - low <=? 1)%nat then Return (low, high)
  else
    match fuel with
    | O => OutOfFuel
    | S fuel' =>
        let mid := ((low + high) / 2)%nat in
        t_mid <- index times mid ;;
        if Qleb t_mid target_jd
        then bisect fuel' target_jd times mid high
        else bisect fuel' target_jd times low mid
    end.

(** The range guard and the search of [interpolate]: [None] is the early
    [return None], [Some (low, high)] the interval found. *)
Definition bracket (target_jd : Q) (times : list Q)
  : outcome (option (nat * nat)) :=
  t_first <- index times 0 ;;
  if Qltb target_jd t_first then Return None
  else
    t_last <- index times (length times - 1) ;;
    if Qltb t_last target_jd then Return None
    else
      lh <- bisect (length times) target_jd times 0 (length times - 1) ;;
      Return (Some lh).

(** [dRa = ra2 - ra1; if dRa < -180: dRa += 360; if dRa > 180: dRa -= 360]. *)
Definition wrap_delta (dRa : pyfloat) : pyfloat :=
  let dRa := if flt dRa (Finite (-180)) then fadd dRa (Finite 360) else dRa in
  if fgt dRa (Finite 180) then fsub dRa (Finite 360) else dRa.

(** [if ra < 0: ra += 360; if ra >= 360: ra -= 360]. *)
Definition wrap_ra (ra : pyfloat) : pyfloat :=
  let ra := if flt ra (Finite 0) then fadd ra (Finite 360) else ra in
  if fge ra (Finite 360) then fsub ra (Finite 360) else ra.

(** The right-ascension step: [ra1 + dRa * frac], wrapped. *)
Definition interp_ra (ra1 ra2 frac : pyfloat) : pyfloat :=
  wrap_ra (fadd ra1 (fmul (wrap_delta (fsub ra2 ra1)) frac)).

(** The declination and distance step. *)
Definition lerp (v1 v2 frac : pyfloat) : pyfloat :=
  fadd v1 (fmul (fsub v2 v1) frac).

(** [interpolate]: the table holds finite doubles, each given by the
    rational it denotes; what is computed from them is a float. *)
Definition interpolate (target_jd : Q) (times : list Q)
                       (rows : list (list Q)) (col_offset : nat)
  : outcome (option (pyfloat * pyfloat * pyfloat)) :=
  b <- bracket target_jd times ;;
  match b with
  | None => Return None
  | Some (low, high) =>
      t1 <- index times low ;;
      t2 <- index times high ;;
      frac <- fdiv (fsub (Finite target_jd) (Finite t1))
                   (fsub (Finite t2) (Finite t1)) ;;
      row1 <- index rows low ;;
      row2 <- index rows high ;;
      ra1 <- index row1 col_offset ;;
      ra2 <- index row2 col_offset ;;
      dec1 <- index row1 (col_offset + 1) ;;
      dec2 <- index row2 (col_offset + 1) ;;
      dist1 <- index row1 (col_offset + 2) ;;
      dist2 <- index row2 (col_offset + 2) ;;
      Return (Some (interp_ra (Finite ra1) (Finite ra2) frac,
                    lerp (Finite dec1) (Finite dec2) frac,
                    lerp (Finite dist1) (Finite dist2) frac))
  end.

(** The interval an exact hit ends up in: the one that starts at row [i],
    or the last interval when [i] is the last row of [n]. *)
Definition exact_low (n i : nat) : nat :=
  if (i + 1 <? n)%nat then i else (n - 2)%nat.

(** Strictly ascending Julian Dates. *)
Fixpoint ascending (times : list Q) : bool :=
  match times with
  | a :: (b :: _) as rest => Qltb a b && ascending rest
  | _ => true
  end.

End Verify.

(* ================================================================== *)
(** ** compare_with_horizons.py *)
(* ================================================================== *)

Module Compare.
Import Py PyFloat Verify.
Local Open Scope Q_scope.

(** [angle_diff]: [d = (a - b) % 360.0; if d > 180.0: d -= 360.0]. *)
Definition angle_diff (a b : pyfloat) : outcome pyfloat :=
  d <- float_mod (fsub a b) (Finite 360) ;;
  Return (if fgt d (Finite 180) then fsub d (Finite 360) else d).

End Compare.

(* ================================================================== *)
(** ** The circular step as the specification writes it *)
(* ================================================================== *)

Module SpecCircular.
Local Open Scope Q_scope.

(** The formulas of the specification, over the real numbers, for
    comparison with [Verify.wrap_delta] and [Verify.interp_ra]:
    [x mod m] for a positive [m] lies in [[0, m)]. *)
Definition real_mod (x m : Q) : Q := x - m * inject_Z (Qfloor (x / m)).

Definition spec_delta (v_low v_high : Q) : Q :=
  real_mod (v_high - v_low + 180) 360 - 180.

Definition normalize0to360 (v : Q) : Q := real_mod v 360.

Definition spec_circular (v_low v_high frac : Q) : Q :=
  normalize0to360 (v_low + spec_delta v_low v_high * frac).

End SpecCircular.

(* ================================================================== *)
(** ** Python strings and dicts, as the generator uses them *)
(* ================================================================== *)

Module Str.
Local Open Scope string_scope.

(** ASCII characters for which [str.isspace] holds. *)
Definition is_space (c : ascii) : bool :=
  let n := nat_of_ascii c in
  (n =? 32)%nat || ((9 <=? n)%nat && (n <=? 13)%nat)
  || ((28 <=? n)%nat && (n <=? 31)%nat).

Definition is_empty (s : string) : bool :=
  match s with EmptyString => true | String _ _ => false end.

Fixpoint lstrip (s : string) : string :=
  match s with
  | EmptyString => EmptyString
  | String c rest => if is_space c then lstrip rest else s
  end.

Fixpoint rstrip (s : string) : string :=
  match s with
  | EmptyString => EmptyString
  | String c rest =>
      let rest' := rstrip rest in
      if is_space c && is_empty rest' then EmptyString else String c rest'
  end.

(** [s.strip()] *)
Definition strip (s : string) : string := rstrip (lstrip s).

(** [s.split(sep)] for a one-character separator. *)
Fixpoint split_on (sep : ascii) (s : string) : list string :=
  match s with
  | EmptyString => [EmptyString]
  | String c rest =>
      match split_on sep rest with
      | cur :: more =>
          if Ascii.eqb c sep then EmptyString :: cur :: more
          else String c cur :: more
      | [] => [String c EmptyString]
      end
  end.

(** [s.split()]: maximal runs of non-space characters. *)
Fixpoint split_ws_from (s : string) : string * list string :=
  match s with
  | EmptyString => (EmptyString, [])
  | String c rest =>
      let (cur, more) := split_ws_from rest in
      if is_space c
      then (EmptyString, if is_empty cur then more else cur :: more)
      else (String c cur, more)
  end.

Definition split_ws (s : string) : list string :=
  let (cur, more) := split_ws_from s in
  if is_empty cur then more else cur :: more.

(** [s.startswith(p)] *)
Definition startswith (p s : string) : bool := String.prefix p s.

(** [sub in s] *)
Fixpoint contains (sub s : string) : bool :=
  String.prefix sub s ||
  match s with
  | EmptyString => false
  | String _ rest => contains sub rest
  end.

End Str.

Module Dict.

(** A [dict] with [str] keys: the items in insertion order, no key twice. *)
Definition dict (V : Type) : Type := list (string * V).

Fixpoint get {V : Type} (d : dict V) (k : string) : option V :=
  match d with
  | [] => None
  | (k', v) :: rest => if String.eqb k' k then Some v else get rest k
  end.

(** [k in d] *)
Definition mem {V : Type} (d : dict V) (k : string) : bool :=
  match get d k with Some _ => true | None => false end.

(** [d[k] = v]: a new key goes last, an old key keeps its place. *)
Fixpoint set {V : Type} (d : dict V) (k : string) (v : V) : dict V :=
  match d with
  | [] => [(k, v)]
  | (k', v') :: rest =>
      if String.eqb k' k then (k, v) :: rest else (k', v') :: set rest k v
  end.

Definition keys {V : Type} (d : dict V) : list string := map fst d.

(** [not d] *)
Definition is_empty {V : Type} (d : dict V) : bool :=
  match d with [] => true | _ :: _ => false end.

End Dict.

(* ================================================================== *)
(** ** generatePlanetsEphemeris.py *)
(* ================================================================== *)

Module Generate.
Import Py Str.
Local Open Scope Q_scope.

Definition BODIES : list (string * string) :=
  [("10", "Sun");
   ("199", "Mercury"); ("299", "Venus"); ("499", "Mars");
   ("599", "Jupiter"); ("699", "Saturn"); ("799", "Uranus");
   ("899", "Neptune");
   ("90000030", "Halley")]%string.

(** Stable sort of keyed items, as [sorted(..., key=...)] orders them:
    an item moves past those before it only when its key is smaller. *)
Fixpoint insert_by_key (x : Q * string) (l : list (Q * string))
  : list (Q * string) :=
  match l with
  | [] => [x]
  | y :: rest =>
      if Verify.Qltb (fst y) (fst x) then y :: insert_by_key x rest
      else x :: y :: rest
  end.

Definition sort_by_key (l : list (Q * string)) : list (Q * string) :=
  fold_right insert_by_key [] l.

(** Keyed items in ascending order of their keys. *)
Definition key_le (a b : Q * string) : Prop := fst a <= fst b.

Section Builtins.

(** [float(s)], [None] standing for [ValueError]. *)
Variable float : string -> option Q.
(** [f"{x:.{n}f}"] *)
Variable fmt : nat -> Q -> string.

Definition hms_to_deg (hms_str : string) : Q :=
  match split_ws (strip hms_str) with
  | [p0; p1; p2] =>
      match float p0, float p1, float p2 with
      | Some h, Some m, Some s => (h + m / 60 + s / 3600) * 15
      | _, _, _ => 0                                      (* except: return 0.0 *)
      end
  | _ => 0                                                (* len(parts) != 3 *)
  end.

Definition dms_to_deg (dms_str : string) : Q :=
  match split_ws (strip dms_str) with
  | [p0; p1; p2] =>
      match float p0, float p1, float p2 with
      | Some d, Some m, Some s =>
          let sign := if startswith "-" (strip dms_str) then -1 else 1 in
          sign * (Qabs d + m / 60 + s / 3600)
      | _, _, _ => 0
      end
  | _ => 0
  end.

(** The lines strictly between the [$$SOE] and [$$EOE] markers. *)
Fixpoint block_lines (lines : list string) (in_block : bool) : list string :=
  match lines with
  | [] => []
  | line :: rest =>
      let in_block := if contains "$$EOE" line then false else in_block in
      let here := if in_block then [line] else [] in
      let in_block := if contains "$$SOE" line then true else in_block in
      here ++ block_lines rest in_block
  end.

Definition part (parts : list string) (i : nat) : string :=
  nth i parts EmptyString.

(** One pass of the parsing loop: [None] is a [continue] (a short line or
    a [ValueError]), [Some (jd, fields)] the assignment
    [parsed_data[jd] = fields]. *)
Definition parse_row (body_name : string) (row : string)
  : option (string * list string) :=
  let parts := split_on "," row in
  let jd := strip (part parts 0) in
  match float jd with
  | None => None
  | Some _ =>
      if String.eqb body_name "Sun" then
        if (length parts <? 6)%nat then None
        else
          let ra := hms_to_deg (strip (part parts 3)) in
          let dec := dms_to_deg (strip (part parts 4)) in
          match float (strip (part parts 5)) with
          | None => None
          | Some g_dist =>
              let h_dist := 0 in
              let h_lon := 0 in
              let h_lat := 0 in
              Some (jd, [fmt 6 ra; fmt 6 dec; fmt 8 g_dist;
                         fmt 8 h_dist; fmt 6 h_lon; fmt 6 h_lat])
          end
      else
        if (length parts <? 10)%nat then None
        else
          let ra := hms_to_deg (strip (part parts 3)) in
          let dec := dms_to_deg (strip (part parts 4)) in
          match float (strip (part parts 5)) with
          | None => None
          | Some h_lon =>
              match float (strip (part parts 6)) with
              | None => None
              | Some h_lat =>
                  match float (strip (part parts 7)) with
                  | None => None
                  | Some h_dist =>
                      match float (strip (part parts 9)) with
                      | None => None
                      | Some g_dist =>
                          Some (jd, [fmt 6 ra; fmt 6 dec; fmt 8 g_dist;
                                     fmt 8 h_dist; fmt 6 h_lon; fmt 6 h_lat])
                      end
                  end
              end
          end
  end.

(** The shape of a Sun record: three fetched fields, then the three
    hardcoded heliocentric zeros as the format prints them. *)
Definition sun_record (fields : list string) : Prop :=
  exists ra dec g_dist,
    fields = [ra; dec; g_dist; fmt 8 0; fmt 6 0; fmt 6 0].

(** What every record put into [parsed_data] satisfies. *)
Definition record_ok (body_name : string) (kv : string * list string) : Prop :=
  float (fst kv) <> None
  /\ length (snd kv) = 6%nat
  /\ (body_name = "Sun"%string -> sun_record (snd kv)).

Fixpoint parse_rows (body_name : string) (data_lines : list string)
                    (parsed_data : Dict.dict (list string))
  : Dict.dict (list string) :=
  match data_lines with
  | [] => parsed_data
  | row :: rest =>
      match parse_row body_name row with
      | Some (jd, fields) =>
          parse_rows body_name rest (Dict.set parsed_data jd fields)
      | None => parse_rows body_name rest parsed_data
      end
  end.

(** The service: for a body id, the lines of the response
    ([content.splitlines()]) or [None] when the request fails. *)
Variable horizons : string -> option (list string).

Definition fetch_body_data (body_id body_name : string)
  : Dict.dict (list string) :=
  match horizons body_id with
  | None => []                                            (* return {} *)
  | Some lines => parse_rows body_name (block_lines lines false) []
  end.

(** The parsed data of one configured body, and of all of them in the
    order of [BODIES]. *)
Definition fetched (b : string * string) : Dict.dict (list string) :=
  fetch_body_data (fst b) (snd b).

Definition all_fetched : list (Dict.dict (list string)) := map fetched BODIES.

(** What [main] does: gives up at a body without data, or writes the CSV
    (header first), or stops on an exception. *)
Inductive run : Type :=
| Failed (name : string)
| Raised (e : exn)
| Wrote (csv : list (list string)).

Fixpoint fetch_all (bodies : list (string * string))
                   (all_data : list (Dict.dict (list string)))
  : string + list (Dict.dict (list string)) :=
  match bodies with
  | [] => inr all_data
  | (bid, name) :: rest =>
      let data := fetch_body_data bid name in
      if Dict.is_empty data then inl name
      else fetch_all rest (all_data ++ [data])
  end.

(** The keys paired with [float(key)]; [None] when one does not parse. *)
Fixpoint keyed (ks : list string) : option (list (Q * string)) :=
  match ks with
  | [] => Some []
  | k :: rest =>
      match float k, keyed rest with
      | Some q, Some l => Some ((q, k) :: l)
      | _, _ => None
      end
  end.

(** [sorted(ks, key=float)] *)
Definition sorted_by_float (ks : list string) : option (list string) :=
  match keyed ks with
  | Some l => Some (map snd (sort_by_key l))
  | None => None
  end.

Definition header_of (bodies : list (string * string)) : list string :=
  "JD"%string ::
  flat_map (fun b : string * string =>
              let name := snd b in
              [name ++ "_RA"; name ++ "_Dec"; name ++ "_GeoDist";
               name ++ "_HelioDist"; name ++ "_HelioLon";
               name ++ "_HelioLat"]%string) bodies.

(** The inner loop over [all_data]: the row extended body by body, or
    [None] when a body lacks the timestamp ([valid = False; break]). *)
Fixpoint extend_row (jd : string) (all_data : list (Dict.dict (list string)))
                    (row : list string) : option (list string) :=
  match all_data with
  | [] => Some row
  | bd :: rest =>
      match Dict.get bd jd with
      | Some fields => extend_row jd rest (row ++ fields)
      | None => None
      end
  end.

Fixpoint write_rows (master_jds : list string)
                    (all_data : list (Dict.dict (list string)))
  : list (list string) :=
  match master_jds with
  | [] => []
  | jd :: rest =>
      match extend_row jd all_data [jd] with
      | Some row => row :: write_rows rest all_data
      | None => write_rows rest all_data
      end
  end.

Definition merge (bodies : list (string * string))
                 (all_data : list (Dict.dict (list string))) : run :=
  match all_data with
  | [] => Raised IndexError                               (* all_data[0] *)
  | first :: _ =>
      match sorted_by_float (Dict.keys first) with
      | None => Raised ValueError
      | Some master_jds =>
          Wrote (header_of bodies :: write_rows master_jds all_data)
      end
  end.

(** The Julian Date a CSV row starts with, as a number. *)
Definition jd_of_row (row : list string) : option Q :=
  match row with
  | jd :: _ => float jd
  | [] => None
  end.

Definition main_for (bodies : list (string * string)) : run :=
  match fetch_all bodies [] with
  | inl name => Failed name
  | inr all_data => merge bodies all_data
  end.

Definition main : run := main_for BODIES.

End Builtins.

End Generate.

(* ================================================================== *)
(** ** Reference builtins on plain decimal literals *)
(* ================================================================== *)

(** The theorems below hold for whatever [float] and the [.nf] format do.
    The examples need something to run: [float] on literals of the shape
    [[+-]digits[.digits]] and the fixed-point format with ties to even,
    which is what Python computes on these inputs. *)
Module Decimal.
Local Open Scope Q_scope.

Definition digit_of (c : ascii) : option Z :=
  let n := nat_of_ascii c in
  if ((48 <=? n) && (n <=? 57))%nat then Some (Z.of_nat (n - 48)) else None.

(** A run of digits: its value after [acc], its length after [n], and
    what follows it. *)
Fixpoint read_digits (s : string) (acc : Z) (n : nat) : Z * nat * string :=
  match s with
  | EmptyString => (acc, n, s)
  | String c rest =>
      match digit_of c with
      | Some d => read_digits rest (10 * acc + d)%Z (S n)
      | None => (acc, n, s)
      end
  end.

Definition unsigned_decimal (s : string) : option Q :=
  let '(ip, ni, after_int) := read_digits s 0%Z 0%nat in
  match after_int with
  | EmptyString => if (ni =? 0)%nat then None else Some (inject_Z ip)
  | String c after_dot =>
      if Ascii.eqb c "." then
        let '(fp, nf, tail) := read_digits after_dot 0%Z 0%nat in
        match tail with
        | EmptyString =>
            if (ni + nf =? 0)%nat then None
            else Some (inject_Z ip + (fp # Z.to_pos (10 ^ Z.of_nat nf)))
        | String _ _ => None
        end
      else None
  end.

Definition float (s : string) : option Q :=
  match Str.strip s with
  | String c rest as t =>
      if Ascii.eqb c "-" then option_map Qopp (unsigned_decimal rest)
      else if Ascii.eqb c "+" then unsigned_decimal rest
      else unsigned_decimal t
  | EmptyString => None
  end.

Definition round_half_even (q : Q) : Z :=
  let f := Qfloor q in
  let r := q - inject_Z f in
  if Verify.Qltb r (1 # 2) then f
  else if Verify.Qltb (1 # 2) r then (f + 1)%Z
  else if Z.even f then f else (f + 1)%Z.

Definition digit_char (d : Z) : ascii := ascii_of_nat (48 + Z.to_nat d).

(** The [n] low-order decimal digits of [z]. *)
Fixpoint fixed_digits (n : nat) (z : Z) : string :=
  match n with
  | O => EmptyString
  | S k => (fixed_digits k (z / 10) ++ String (digit_char (z mod 10)) EmptyString)%string
  end.

(** The decimal digits of a non-negative [z], at least one. *)
Fixpoint natural_digits (fuel : nat) (z : Z) : string :=
  match fuel with
  | O => String (digit_char (z mod 10)) EmptyString
  | S k =>
      if (z <? 10)%Z then String (digit_char z) EmptyString
      else (natural_digits k (z / 10) ++ String (digit_char (z mod 10)) EmptyString)%string
  end.

(** [f"{x:.{n}f}"] for [n > 0]. *)
Definition fmt (n : nat) (x : Q) : string :=
  let scaled := round_half_even (Qabs x * inject_Z (10 ^ Z.of_nat n)) in
  let ip := (scaled / 10 ^ Z.of_nat n)%Z in
  let fp := (scaled mod 10 ^ Z.of_nat n)%Z in
  ((if Verify.Qltb x 0 then "-" else "")
   ++ natural_digits (Z.to_nat ip) ip ++ "." ++ fixed_digits n fp)%string.

End Decimal.

(* ================================================================== *)
(** ** compare_with_horizons.py: [compare_value] *)
(* ================================================================== *)

Module CompareRest.
Import Py PyFloat Verify Compare Str.
Local Open Scope Q_scope.

(** [s.lower()] on ASCII letters. *)
Definition lower_char (c : ascii) : ascii :=
  let n := nat_of_ascii c in
  if ((65 <=? n) && (n <=? 90))%nat then ascii_of_nat (n + 32) else c.

Fixpoint lower (s : string) : string :=
  match s with
  | EmptyString => EmptyString
  | String c rest => String (lower_char c) (lower rest)
  end.

(** What [compare_value] prints: one of its three lines, the last with
    the difference and whether it carries the [" ***"] flag. *)
Inductive line : Type :=
| OrreryNA
| HorizonsNA
| Diff (diff : pyfloat) (flag : bool).

(** The call prints a line, or the format of a missing value raises
    [TypeError]. *)
Inductive shown : Type :=
| Printed (l : line)
| TypeError.

(** The test that selects the wrap-around difference. *)
Definition is_angular (label : string) : bool :=
  contains "lon" (lower label) || contains "ra" (lower label)
  || contains "az" (lower label).

Definition compare_value (label : string)
                         (orrery_val horizons_val : option pyfloat)
                         (tolerance : pyfloat) : outcome shown :=
  match orrery_val with
  | None =>
      match horizons_val with
      | None => Return TypeError          (* f"{horizons_val:>14.6f}" on None *)
      | Some _ => Return (Printed OrreryNA)
      end
  | Some o =>
      match horizons_val with
      | None => Return (Printed HorizonsNA)
      | Some h =>
          diff <- (if is_angular label then angle_diff o h
                   else Return (fsub o h)) ;;
          Return (Printed (Diff diff (fgt (fabs diff) tolerance)))
      end
  end.

(** The labels [main] passes to [compare_value], in the order of its
    calls. *)
Definition main_labels : list string :=
  ["RA (geocentric)"; "Dec (geocentric)"; "RA (topocentric)";
   "Dec (topocentric)"; "Azimuth"; "Altitude"; "Distance (AU)";
   "Ecliptic Lon"; "Ecliptic Lat"]%string.

End CompareRest.

(* ================================================================== *)
(** ** cities.py *)
(* ================================================================== *)

Module Cities.
Import Py Str.

Definition tab : ascii := ascii_of_nat 9.

Definition csv_header : list string :=
  ["Name"; "Country"; "Continent"; "Latitude"; "Longitude"]%string.

(** The first loop: the country table, from the lines of the country
    file. *)
Fixpoint parse_countries (lines : list string)
                         (countryToContinent : Dict.dict string)
  : outcome (Dict.dict string) :=
  match lines with
  | [] => Return countryToContinent
  | line :: rest =>
      if startswith "#" line || is_empty (strip line)
      then parse_countries rest countryToContinent
      else
        let parts := split_on tab line in
        continent <- index parts 8 ;;
        code <- index parts 0 ;;
        parse_countries rest (Dict.set countryToContinent code continent)
  end.

(** [countryToContinent.get(country, "Unknown")] *)
Definition continent_of (countryToContinent : Dict.dict string)
                        (country : string) : string :=
  match Dict.get countryToContinent country with
  | Some continent => continent
  | None => "Unknown"%string
  end.

Section Builtins.

(** [int(s)], [None] standing for [ValueError]. *)
Variable int : string -> option Z.

(** The second loop: the selected cities, from the lines of the cities
    file. *)
Fixpoint select_cities (lines : list string)
                       (countryToContinent : Dict.dict string)
                       (citiesData : list (list string))
  : outcome (list (list string)) :=
  match lines with
  | [] => Return citiesData
  | line :: rest =>
      let parts := split_on tab line in
      population_text <- index parts 14 ;;
      match int population_text with
      | None => Raise ValueError
      | Some population =>
          if (100000 <? population)%Z then
            name <- index parts 1 ;;
            country <- index parts 8 ;;
            lat <- index parts 4 ;;
            lon <- index parts 5 ;;
            let continent := continent_of countryToContinent country in
            select_cities rest countryToContinent
                          (citiesData ++ [[name; country; continent; lat; lon]])
          else select_cities rest countryToContinent citiesData
      end
  end.

(** [generateCityList], from the lines of the two downloads to the rows
    handed to the CSV writer. *)
Definition generateCityList (countryInfo cities15000 : list string)
  : outcome (list (list string)) :=
  countryToContinent <- parse_countries countryInfo [] ;;
  citiesData <- select_cities cities15000 countryToContinent [] ;;
  Return (csv_header :: citiesData).

(** What a line of the cities file contributes, said directly: its row
    when the population exceeds 100000, nothing otherwise. *)
Definition city_rows (countryToContinent : Dict.dict string) (line : string)
  : list (list string) :=
  let parts := split_on tab line in
  match int (Generate.part parts 14) with
  | Some population =>
      if (100000 <? population)%Z then
        [[Generate.part parts 1; Generate.part parts 8;
          continent_of countryToContinent (Generate.part parts 8);
          Generate.part parts 4; Generate.part parts 5]]
      else []
  | None => []
  end.

(** A line the second loop can read: 15 fields at least, the fifteenth
    an integer. *)
Definition readable (line : string) : Prop :=
  15 <= length (split_on tab line)
  /\ int (Generate.part (split_on tab line) 14) <> None.

End Builtins.

End Cities.

(* ================================================================== *)
(** ** Predicates used to state properties of the generator *)
(* ================================================================== *)

Module GenerateAux.
Import Str.

(** A line without the start marker, and one without the end marker. *)
Definition no_SOE (line : string) : Prop := contains "$$SOE" line = false.
Definition no_EOE (line : string) : Prop := contains "$$EOE" line = false.

(** What a stored record keeps besides the two angles: its timestamp and
    the four fields after right ascension and declination. *)
Definition beside_angles (r : string * list string) : string * list string :=
  (fst r, skipn 2 (snd r)).

End GenerateAux.

(* ================================================================== *)
(** ** Sample data for the examples *)
(* ================================================================== *)

Module Samples.
Import Float64.
Local Open Scope Q_scope.

(** Two moon records (W = 7), Julian Dates 2459000.5 and 2459000.75. *)
Definition moon_df : list (list binary64) :=
  [[jd_2459000_5; one; one; one; one; one; one];
   [mkB64 false 1044 0x2c2bc60000000; one; one; one; one; one; one]].

(** Three samples, columns JD, RA, Dec, Dist (so [col_offset = 1]). *)
Definition times_ex : list Q := [2459000; 2459001; 2459002].

Definition rows_ex : list (list Q) :=
  [[2459000; 10; 5; 1];
   [2459001; 12; 11 # 2; 2];
   [2459002; 359; 6; 3]].

(** A moon CSV as [csv.reader] yields it: header, a full line, a line of
    two numeric fields, a line with a field that is no number, a blank
    line, a full line. *)
Definition moon_header : list string :=
  ["JD"; "Moon_RA"; "Moon_Dec"; "Moon_GeoDist"; "Moon_HelioDist";
   "Moon_HelioLon"; "Moon_HelioLat"]%string.

Definition moon_line_1 : list string :=
  ["2459000.5"; "10.0"; "5.0"; "0.0025"; "1.0"; "100.0"; "0.5"]%string.
Definition moon_line_short : list string := ["2459000.75"; "13.5"]%string.
Definition moon_line_bad : list string :=
  ["2459001.0"; "n.a."; "5.5"; "0.0025"; "1.0"; "101.0"; "0.5"]%string.
Definition moon_line_2 : list string :=
  ["2459001.25"; "23.0"; "6.0"; "0.0026"; "1.0"; "101.25"; "0.5"]%string.

Definition moon_csv_short : list (list string) :=
  [moon_header; moon_line_1; moon_line_short; moon_line_2].

Definition moon_csv_bad : list (list string) :=
  [moon_header; moon_line_1; moon_line_bad; []; moon_line_2].

(** Responses of the service: the Sun's table lists three timestamps out
    of order, the comet's lacks the middle one. *)
Definition sun_lines : list string :=
  ["*******"; "Date_________JDUT, , , R.A., DEC, delta, deldot,";
   "$$SOE";
   "2459001.000000000, , , 06 44 00.00, +22 58 00.0, 1.0102, 0.1,";
   "2459000.500000000, , , 06 40 00.00, +23 00 00.0, 1.0101, 0.1,";
   "2459000.750000000, , , 06 42 00.00, +22 59 00.0, 1.01015, 0.1,";
   "$$EOE"; "*******"]%string.

Definition planet_lines : list string :=
  ["$$SOE";
   "2459000.500000000, , , 10 00 00.00, -05 30 00.0, 120.5, 1.5, 0.4, 0.1, 1.2, 0.2,";
   "2459000.750000000, , , 10 01 00.00, -05 31 00.0, 121.5, 1.5, 0.4, 0.1, 1.2, 0.2,";
   "2459001.000000000, , , 10 02 00.00, -05 32 00.0, 122.5, 1.5, 0.4, 0.1, 1.2, 0.2,";
   "$$EOE"]%string.

Definition halley_lines : list string :=
  ["$$SOE";
   "2459000.500000000, , , 08 00 00.00, +02 00 00.0, 77.5, 16.5, 35.1, 0.1, 35.2, 0.2,";
   "2459001.000000000, , , 08 00 30.00, +02 00 30.0, 77.5, 16.5, 35.1, 0.1, 35.2, 0.2,";
   "$$EOE"]%string.

Definition horizons_ex (body_id : string) : option (list string) :=
  if String.eqb body_id "10" then Some sun_lines
  else if String.eqb body_id "90000030" then Some halley_lines
  else Some planet_lines.

Definition run_ex : Generate.run :=
  Generate.main Decimal.float Decimal.fmt horizons_ex.

Definition csv_ex : list (list string) :=
  Eval vm_compute in
    match run_ex with
    | Generate.Wrote csv => csv
    | _ => []
    end.

End Samples.

(* ================================================================== *)
(** ** A reference [int] *)
(* ================================================================== *)

Module DecimalInt.

(** [int(s)] on a decimal numeral with an optional sign, the blanks
    around it stripped. *)
Definition unsigned_int (s : string) : option Z :=
  let '(ip, ni, rest) := Decimal.read_digits s 0%Z 0%nat in
  match rest with
  | EmptyString => if (ni =? 0)%nat then None else Some ip
  | String _ _ => None
  end.

Definition int (s : string) : option Z :=
  match Str.strip s with
  | String c rest as t =>
      if Ascii.eqb c "-" then option_map Z.opp (unsigned_int rest)
      else if Ascii.eqb c "+" then unsigned_int rest
      else unsigned_int t
  | EmptyString => None
  end.

End DecimalInt.

(* ================================================================== *)
(** ** More sample data *)
(* ================================================================== *)

Module MoreSamples.
Import Float64 Samples.
Local Open Scope Q_scope.

(** The moon records after a trip through their bit patterns, and the
    file the converter writes for them. *)
Definition moon_df_reread : list (list binary64) :=
  map (map (fun d => of_bits (bits_of d))) moon_df.

Definition moon_file : list byte :=
  Eval vm_compute in
    match Codec.convert_csv_to_bin moon_df 6 with
    | Codec.Success file => file
    | _ => []
    end.

(** The doubles written [0.7], [0.1] and [0.05], and a table whose last
    two declinations are [0.7] and [0.1]. *)
Definition d0_7 : Q := Eval vm_compute in PyFloat.rnd (7 # 10).
Definition d0_1 : Q := Eval vm_compute in PyFloat.rnd (1 # 10).
Definition d0_05 : Q := Eval vm_compute in PyFloat.rnd (5 # 100).

Definition times_two : list Q := [1; 2].
Definition rows_two : list (list Q) := [[1; 10; d0_7; 1]; [2; 20; d0_1; 2]].

(** The parts of the Sun's response around its markers. *)
Definition sun_pre : list string := firstn 2 sun_lines.
Definition sun_mid : list string := firstn 3 (skipn 3 sun_lines).
Definition sun_post : list string := skipn 7 sun_lines.

(** A planet's line, and the same line with both angles not
    available. *)
Definition planet_row : string :=
  "2459000.500000000, , , 10 00 00.00, -05 30 00.0, 120.5, 1.5, 0.4, 0.1, 1.2, 0.2,".
Definition planet_row_na : string :=
  "2459000.500000000, , , n.a., n.a., 120.5, 1.5, 0.4, 0.1, 1.2, 0.2,".

(** Lines of the two GeoNames files, their fields joined by tabs. *)
Definition tsv (fields : list string) : string :=
  String.concat (String Cities.tab EmptyString) fields.

Definition countries_ex : list string :=
  ["# ISO and continent of each country"%string;
   tsv ["FR"; "FRA"; "250"; "FR"; "France"; "Paris"; "547030"; "64768389";
        "EU"]%string;
   tsv ["JP"; "JPN"; "392"; "JA"; "Japan"; "Tokyo"; "377835"; "127288000";
        "AS"]%string].

Definition cities_ex : list string :=
  [tsv ["2988507"; "Paris"; "Paris"; EmptyString; "48.85341"; "2.3488"; "P";
        "PPLC"; "FR"; EmptyString; "11"; "75"; "751"; "75056"; "2138551";
        EmptyString; "42"; "Europe/Paris"; "2023-01-01"]%string;
   tsv ["3014078"; "Gex"; "Gex"; EmptyString; "46.33323"; "6.05766"; "P";
        "PPLA3"; "FR"; EmptyString; "84"; "01"; "012"; "01173"; "17000";
        EmptyString; "628"; "Europe/Paris"; "2023-01-01"]%string;
   tsv ["3369157"; "Cape Town"; "Cape Town"; EmptyString; "-33.92584";
        "18.42322"; "P"; "PPLA"; "ZA"; EmptyString; "11"; "CPT";
        EmptyString; EmptyString; "3433441"; EmptyString; "25";
        "Africa/Johannesburg"; "2023-01-01"]%string].

Definition ctc_ex : Dict.dict string :=
  Eval vm_compute in
    match Cities.parse_countries countries_ex [] with
    | Py.Return ctc => ctc
    | _ => []
    end.

End MoreSamples.

(* ================================================================== *)
(** * Facts *)
(* ================================================================== *)

Example decimal_float_ex :
  Decimal.float " 2459000.5 "%string = Some (24590005 # 10)%Q
  /\ Decimal.float "-12.25"%string = Some (-(1225 # 100))%Q
  /\ Decimal.float "1e5"%string = None
  /\ Decimal.float "n.a."%string = None.
Proof. vm_compute. repeat split. Qed.

Example decimal_fmt_ex :
  Decimal.fmt 8 0 = "0.00000000"%string
  /\ Decimal.fmt 6 0 = "0.000000"%string
  /\ Decimal.fmt 6 (-(1225 # 100)) = "-12.250000"%string
  /\ Decimal.fmt 6 (1 # 3) = "0.333333"%string.
Proof. vm_compute. repeat split. Qed.

(** ** Bytes *)

Module BytesFacts.
Import Bytes.
Local Open Scope Z_scope.

Lemma Z_of_byte_range (b : byte) : 0 <= Z_of_byte b < 256.
Proof.
  unfold Z_of_byte. pose proof (Byte.to_N_bounded b). lia.
Qed.

Lemma Z_of_byte_of_Z (z : Z) : Z_of_byte (byte_of_Z z) = z mod 256.
Proof.
  unfold Z_of_byte, byte_of_Z.
  pose proof (Z.mod_pos_bound z 256 ltac:(lia)) as Hr.
  destruct (Byte.of_N (Z.to_N (z mod 256))) as [b|] eqn:E.
  - apply Byte.to_of_N in E. rewrite E. lia.
  - apply Byte.of_N_None_iff in E. lia.
Qed.

Lemma byte_of_Z_of_byte (b : byte) : byte_of_Z (Z_of_byte b) = b.
Proof.
  unfold byte_of_Z. pose proof (Z_of_byte_range b) as Hr.
  rewrite Z.mod_small by exact Hr.
  unfold Z_of_byte. rewrite N2Z.id, Byte.of_to_N. reflexivity.
Qed.

Lemma length_to_le (n : nat) (z : Z) : length (to_le n z) = n.
Proof.
  revert z. induction n as [|k IH]; intro z; simpl; [reflexivity|].
  now rewrite IH.
Qed.

Lemma of_le_to_le (n : nat) (z : Z) :
  of_le (to_le n z) = z mod 2 ^ (8 * Z.of_nat n).
Proof.
  revert z. induction n as [|k IH]; intro z.
  - simpl. now rewrite Z.mod_1_r.
  - cbn [to_le of_le]. rewrite IH, Z_of_byte_of_Z.
    change 255 with (Z.ones 8). rewrite Z.land_ones by lia.
    rewrite Z.shiftr_div_pow2, Z.shiftl_mul_pow2 by lia.
    change (2 ^ 8) with 256. rewrite Z.mod_mod by lia.
    replace (8 * Z.of_nat (S k)) with (8 + 8 * Z.of_nat k) by lia.
    rewrite Z.pow_add_r by lia. change (2 ^ 8) with 256.
    rewrite Z.rem_mul_r; [lia | lia | apply Z.pow_pos_nonneg; lia].
Qed.

(** Byte [k] of the encoding is bits [8k .. 8k+7] of the integer. *)
Lemma nth_to_le (n : nat) (z : Z) (k : nat) :
  (k < n)%nat ->
  nth_error (to_le n z) k
  = Some (byte_of_Z (Z.land (Z.shiftr z (8 * Z.of_nat k)) 255)).
Proof.
  revert z k. induction n as [|m IH]; intros z k Hk; [lia|].
  destruct k as [|k'].
  - simpl. now rewrite Z.shiftr_0_r.
  - cbn [to_le nth_error]. rewrite IH by lia.
    rewrite Z.shiftr_shiftr by lia.
    replace (8 + 8 * Z.of_nat k') with (8 * Z.of_nat (S k')) by lia.
    reflexivity.
Qed.

End BytesFacts.

(** ** Doubles *)

Module Float64Facts.
Import Bytes Float64 BytesFacts.
Local Open Scope Z_scope.

Lemma validb_spec (d : binary64) : validb d = true <-> valid d.
Proof.
  unfold validb, valid. rewrite !andb_true_iff, !Z.leb_le, !Z.ltb_lt. tauto.
Qed.

Lemma bits_of_range (d : binary64) : valid d -> 0 <= bits_of d < 2 ^ 64.
Proof.
  intros [He Hf]. unfold bits_of.
  rewrite !Z.shiftl_mul_pow2 by lia.
  change (2 ^ 11) with 2048 in He.
  change (2 ^ 52) with 4503599627370496 in *.
  change (2 ^ 63) with 9223372036854775808.
  change (2 ^ 64) with 18446744073709551616.
  destruct (sign d); simpl Z.b2z; lia.
Qed.

Lemma of_bits_bits_of (d : binary64) : valid d -> of_bits (bits_of d) = d.
Proof.
  intros [He Hf]. destruct d as [s e f]. cbn [biased_exp fraction] in He, Hf.
  unfold of_bits, bits_of. cbn [sign biased_exp fraction].
  rewrite !Z.land_ones, !Z.shiftr_div_pow2, !Z.shiftl_mul_pow2 by lia.
  change (2 ^ 11) with 2048 in *.
  change (2 ^ 52) with 4503599627370496 in *.
  change (2 ^ 63) with 9223372036854775808.
  f_equal.
  - apply Bool.eq_iff_eq_true. rewrite Z.testbit_true by lia.
    change (2 ^ 63) with 9223372036854775808.
    destruct s; simpl Z.b2z.
    + replace ((1 * 9223372036854775808 + e * 4503599627370496 + f)
               / 9223372036854775808) with 1
        by (apply Z.div_unique with (r := e * 4503599627370496 + f); lia).
      simpl. tauto.
    + replace ((0 * 9223372036854775808 + e * 4503599627370496 + f)
               / 9223372036854775808) with 0
        by (symmetry; apply Z.div_small; lia).
      simpl. split; discriminate.
  - replace ((Z.b2z s * 9223372036854775808 + e * 4503599627370496 + f)
             / 4503599627370496) with (Z.b2z s * 2048 + e)
      by (apply Z.div_unique with (r := f); lia).
    rewrite Z.add_comm, Z.mod_add by lia. apply Z.mod_small; lia.
  - replace (Z.b2z s * 9223372036854775808 + e * 4503599627370496 + f)
      with (f + (Z.b2z s * 2048 + e) * 4503599627370496) by lia.
    rewrite Z.mod_add by lia. apply Z.mod_small; lia.
Qed.

Lemma length_pack_d (d : binary64) : length (pack_d d) = 8%nat.
Proof. apply length_to_le. Qed.

Lemma unpack_pack_d (d : binary64) : valid d -> unpack_d (pack_d d) = d.
Proof.
  intro Hv. unfold unpack_d, pack_d. rewrite of_le_to_le.
  change (8 * Z.of_nat 8) with 64.
  rewrite Z.mod_small by (apply bits_of_range; exact Hv).
  apply of_bits_bits_of; exact Hv.
Qed.

Example pack_one :
  pack_d one = [x00; x00; x00; x00; x00; x00; xf0; x3f].
Proof. reflexivity. Qed.

Example pack_jd :
  pack_d jd_2459000_5 = [x00; x00; x00; x40; xbc; xc2; x42; x41].
Proof. reflexivity. Qed.

End Float64Facts.

(** ** The binary codec *)

Module CodecFacts.
Import Bytes Float64 Codec BytesFacts Float64Facts Samples.

Lemma length_record (row : list binary64) :
  length (flat_map pack_d row) = length row * 8.
Proof.
  induction row as [|d row IH]; [reflexivity|].
  cbn [flat_map]. rewrite length_app, length_pack_d, IH. simpl. lia.
Qed.

Lemma firstn_exact {A : Type} (l1 l2 : list A) (n : nat) :
  length l1 = n -> firstn n (l1 ++ l2) = l1.
Proof.
  intros <-. rewrite firstn_app, Nat.sub_diag, firstn_all. simpl.
  apply app_nil_r.
Qed.

Lemma skipn_exact {A : Type} (l1 l2 : list A) (n : nat) :
  length l1 = n -> skipn n (l1 ++ l2) = l2.
Proof.
  intros <-. rewrite skipn_app, Nat.sub_diag, skipn_all. reflexivity.
Qed.

(** Cutting a concatenation of equal-sized pieces gives the pieces back. *)
Lemma pieces_flat_map {A B : Type} (f : A -> list B) (size : nat) (l : list A) :
  Forall (fun x => length (f x) = size) l ->
  pieces size (length l) (flat_map f l) = map f l.
Proof.
  induction 1 as [|x l Hx _ IH]; [reflexivity|].
  cbn [length pieces flat_map map].
  rewrite firstn_exact, skipn_exact by exact Hx. now rewrite IH.
Qed.

Lemma length_flat_map_uniform {A B : Type} (f : A -> list B) (size : nat)
      (l : list A) :
  Forall (fun x => length (f x) = size) l ->
  length (flat_map f l) = length l * size.
Proof.
  induction 1 as [|x l Hx _ IH]; [reflexivity|].
  cbn [flat_map length]. rewrite length_app, Hx, IH. lia.
Qed.

(** Piece [i] starts at offset [i * size]. *)
Lemma flat_map_at {A B : Type} (f : A -> list B) (size : nat) (l : list A)
      (i : nat) (a : A) :
  Forall (fun x => length (f x) = size) l ->
  nth_error l i = Some a ->
  exists pre post,
    flat_map f l = pre ++ f a ++ post /\ length pre = i * size.
Proof.
  intros Hall Hi.
  destruct (nth_error_split l i Hi) as (l1 & l2 & -> & Hlen).
  exists (flat_map f l1), (flat_map f l2). split.
  - rewrite flat_map_app. reflexivity.
  - apply Forall_app in Hall. destruct Hall as [H1 _].
    rewrite (length_flat_map_uniform f size l1 H1). now rewrite Hlen.
Qed.

Lemma write_rows_all (n : nat) (rows : list (list binary64)) (f : list byte) :
  Forall (fun row => length row = n) rows ->
  write_rows n rows f = Success (f ++ flat_map (flat_map pack_d) rows).
Proof.
  intro Hall. revert f.
  induction Hall as [|row rows Hrow _ IH]; intro f.
  - simpl. now rewrite app_nil_r.
  - cbn [write_rows flat_map]. unfold struct_pack.
    rewrite Hrow, Nat.eqb_refl, IH. now rewrite app_assoc.
Qed.

(** A row of another width stops the run with [struct.error]; what was
    written before it stays in the file. *)
Lemma write_rows_stops (n : nat) (good : list (list binary64))
      (bad : list binary64) (rest : list (list binary64)) (f : list byte) :
  Forall (fun row => length row = n) good ->
  length bad <> n ->
  write_rows n (good ++ bad :: rest) f
  = StructError (f ++ flat_map (flat_map pack_d) good).
Proof.
  intro Hall. revert f.
  induction Hall as [|row rows Hrow _ IH]; intros f Hbad.
  - cbn [app write_rows flat_map]. unfold struct_pack.
    apply Nat.eqb_neq in Hbad. rewrite Hbad. now rewrite app_nil_r.
  - cbn [app write_rows flat_map]. unfold struct_pack.
    rewrite Hrow, Nat.eqb_refl, IH by exact Hbad. now rewrite app_assoc.
Qed.

Lemma record_sizes (w : nat) (df : list (list binary64)) :
  Forall (fun row => length row = w) df ->
  Forall (fun row => length (flat_map pack_d row) = w * 8) df.
Proof.
  intro H. eapply Forall_impl; [|exact H].
  intros row Hrow. cbv beta in *. now rewrite length_record, Hrow.
Qed.

Lemma double_sizes (row : list binary64) :
  Forall (fun d => length (pack_d d) = 8) row.
Proof. apply Forall_forall. intros d _. apply length_pack_d. Qed.

(** Column [j] of row [i] occupies the 8 bytes at offset [(i*W + j) * 8]. *)
Lemma double_at (w : nat) (df : list (list binary64)) (i j : nat)
      (row : list binary64) (x : binary64) :
  Forall (fun row => length row = w) df ->
  nth_error df i = Some row ->
  nth_error row j = Some x ->
  firstn 8 (skipn ((i * w + j) * 8) (flat_map (flat_map pack_d) df)) = pack_d x.
Proof.
  intros Hall Hi Hj.
  destruct (flat_map_at (flat_map pack_d) (w * 8) df i row
              (record_sizes w df Hall) Hi) as (pre & post & -> & Hpre).
  destruct (flat_map_at pack_d 8 row j x (double_sizes row) Hj)
    as (pre' & post' & -> & Hpre').
  replace (pre ++ (pre' ++ pack_d x ++ post') ++ post)
    with ((pre ++ pre') ++ pack_d x ++ (post' ++ post))
    by (now rewrite <- !app_assoc).
  rewrite skipn_exact by (rewrite length_app; lia).
  apply firstn_exact, length_pack_d.
Qed.

(** C7. For a data frame of N rows of width W = 1 + num_data_cols, the
    converter succeeds and the file is the N records back to back and
    nothing else (no header, no length prefix, no magic number): N * W * 8
    bytes, where column j of row i is the 8 bytes at offset (i*W + j) * 8,
    and these are the double's 64 bits, least significant byte first.
    The script's two calls use W = 55 (planets) and W = 7 (moon). *)
Theorem convert_csv_to_bin_layout
        (df : list (list binary64)) (num_data_cols : nat)
        (Hwidth : Forall (fun row => length row = 1 + num_data_cols) df) :
  exists file,
    convert_csv_to_bin df num_data_cols = Success file
    /\ file = flat_map (fun row => flat_map pack_d row) df
    /\ length file = length df * (1 + num_data_cols) * 8
    /\ (forall i j row x,
          nth_error df i = Some row -> nth_error row j = Some x ->
          firstn 8 (skipn ((i * (1 + num_data_cols) + j) * 8) file) = pack_d x)
    /\ (forall (x : binary64) (k : nat), k < 8 ->
          nth_error (pack_d x) k
          = Some (byte_of_Z
                    (Z.land (Z.shiftr (bits_of x) (8 * Z.of_nat k)) 255)))
    /\ (num_data_cols = 54 ->
          main_planets df = Success file /\ length file = length df * 55 * 8)
    /\ (num_data_cols = 6 ->
          main_moon df = Success file /\ length file = length df * 7 * 8).
Proof.
  exists (flat_map (flat_map pack_d) df).
  assert (Hrun : convert_csv_to_bin df num_data_cols
                 = Success (flat_map (flat_map pack_d) df)).
  { unfold convert_csv_to_bin. cbv zeta.
    now rewrite (write_rows_all _ df [] Hwidth). }
  assert (Hlen : length (flat_map (flat_map pack_d) df)
                 = length df * (1 + num_data_cols) * 8).
  { rewrite (length_flat_map_uniform _ ((1 + num_data_cols) * 8) df
               (record_sizes _ df Hwidth)). lia. }
  repeat split.
  - exact Hrun.
  - exact Hlen.
  - intros i j row x Hi Hj. exact (double_at _ df i j row x Hwidth Hi Hj).
  - intros x k Hk. unfold pack_d. now apply nth_to_le.
  - subst num_data_cols. exact Hrun.
  - subst num_data_cols. exact Hlen.
  - subst num_data_cols. exact Hrun.
  - subst num_data_cols. exact Hlen.
Qed.

Lemma convert_csv_to_bin_layout_witness :
  exists file,
    main_moon moon_df = Success file /\ length file = 2 * 7 * 8
    /\ firstn 8 file = pack_d jd_2459000_5.
Proof.
  destruct (convert_csv_to_bin_layout moon_df 6) as (file & _ & _ & _ & Hat & _ & _ & Hm).
  - repeat constructor.
  - exists file. destruct (Hm eq_refl) as [Hrun Hlen].
    split; [exact Hrun|]. split; [exact Hlen|].
    exact (Hat 0 0 _ _ eq_refl eq_refl).
Defined.

(** C1. Round trip: for every valid dataset under a schema, the encoder
    succeeds and decoding its output under the same schema gives back the
    dataset, every double with the same sign, exponent and fraction bits. *)
Theorem decode_encode_roundtrip
        (s : schema) (rows : list (list binary64))
        (Hvalid : valid_dataset s rows) :
  exists file, encode s rows = Success file /\ decode file s = inr rows.
Proof.
  set (w := recordWidth s).
  assert (Hw : Forall (fun row => length row = w) rows).
  { eapply Forall_impl; [|exact Hvalid]. intros row [H _]. exact H. }
  exists (flat_map (flat_map pack_d) rows). split.
  - unfold encode, convert_csv_to_bin. cbv zeta.
    change (1 + fields_per_body * length (bodies s)) with w.
    now rewrite (write_rows_all w rows [] Hw).
  - unfold decode. cbv zeta. fold w.
    rewrite (length_flat_map_uniform _ (w * 8) rows (record_sizes w rows Hw)).
    assert (Hpos : w * 8 <> 0) by (unfold w, recordWidth; lia).
    rewrite Nat.Div0.mod_mul, Nat.eqb_refl, Nat.div_mul by exact Hpos.
    rewrite (pieces_flat_map _ (w * 8) rows (record_sizes w rows Hw)).
    rewrite map_map. f_equal.
    rewrite <- (map_id rows) at 2. apply map_ext_in.
    intros row Hin. unfold valid_dataset in Hvalid.
    rewrite Forall_forall in Hvalid.
    destruct (Hvalid row Hin) as [Hlen Hcells]. fold w in Hlen.
    rewrite <- Hlen, (pieces_flat_map pack_d 8 row (double_sizes row)).
    rewrite map_map. rewrite <- (map_id row) at 2. apply map_ext_in.
    intros d Hd. rewrite Forall_forall in Hcells.
    apply unpack_pack_d, Hcells, Hd.
Qed.

Lemma decode_encode_roundtrip_witness :
  valid_dataset moon moon_df
  /\ exists file, encode moon moon_df = Success file
                  /\ decode file moon = inr moon_df.
Proof.
  assert (Hv : valid_dataset moon moon_df).
  { repeat constructor; vm_compute; congruence. }
  split; [exact Hv|]. exact (decode_encode_roundtrip moon moon_df Hv).
Defined.

(** A byte string that is not a whole number of records is refused. *)
Example decode_truncated :
  decode [x00; x01; x02] moon = inl TruncatedRecord.
Proof. reflexivity. Qed.

End CodecFacts.

(** ** Rounding to binary64 *)

Module PyFloatFacts.
Import Py PyFloat.
Local Open Scope Q_scope.

Lemma pow2_pos (k : Z) : 0 < pow2 k.
Proof. apply Qpower_0_lt. reflexivity. Qed.

Lemma pow2_plus (a b : Z) : pow2 (a + b) == pow2 a * pow2 b.
Proof. apply Qpower_plus. discriminate. Qed.

Lemma pow2_le (a b : Z) : (a <= b)%Z -> pow2 a <= pow2 b.
Proof. intro H. apply Qpower_le_compat_l; [exact H | discriminate]. Qed.

Lemma pow2_lt (a b : Z) : (a < b)%Z -> pow2 a < pow2 b.
Proof. intro H. apply Qpower_lt_compat_l; [exact H | reflexivity]. Qed.

Lemma pow2_lt_inv (a b : Z) : pow2 a < pow2 b -> (a < b)%Z.
Proof. intro H. apply (Qpower_lt_compat_l_inv 2); [exact H | reflexivity]. Qed.

Lemma pow2_Z (k : Z) : (0 <= k)%Z -> pow2 k == inject_Z (2 ^ k).
Proof. intro H. unfold pow2. now rewrite Zpower_Qpower. Qed.

Lemma pow2_succ (k : Z) : pow2 (k + 1) == 2 * pow2 k.
Proof. rewrite pow2_plus. change (pow2 1) with 2. ring. Qed.

(** A power of two is a whole multiple of every smaller one. *)
Lemma pow2_multiple (a b : Z) :
  (b <= a)%Z -> pow2 a == inject_Z (2 ^ (a - b)) * pow2 b.
Proof.
  intro H. rewrite <- pow2_Z by lia. rewrite <- pow2_plus.
  now replace (a - b + b)%Z with a by ring.
Qed.

Lemma ilog2_spec (x : Q) :
  0 < x -> pow2 (ilog2 x) <= x /\ x < pow2 (ilog2 x + 1).
Proof.
  intro Hx. destruct x as [n d]. unfold ilog2. cbn [Qnum Qden].
  assert (Hn : (0 < n)%Z).
  { unfold Qlt in Hx. cbn in Hx. lia. }
  destruct (Z.log2_spec n Hn) as [Hn1 Hn2].
  destruct (Z.log2_spec (Zpos d) (Pos2Z.is_pos d)) as [Hd1 Hd2].
  pose proof (Z.log2_nonneg n) as Hln.
  pose proof (Z.log2_nonneg (Zpos d)) as Hld.
  set (ln := Z.log2 n) in *. set (ld := Z.log2 (Zpos d)) in *.
  rewrite Z.pow_succ_r in Hn2, Hd2 by assumption.
  assert (HA : pow2 ln == inject_Z (2 ^ ln)) by now apply pow2_Z.
  assert (HB : pow2 ld == inject_Z (2 ^ ld)) by now apply pow2_Z.
  assert (Hk : pow2 (ln - ld) * pow2 ld == pow2 ln).
  { rewrite <- pow2_plus. now replace (ln - ld + ld)%Z with ln by ring. }
  pose proof (pow2_pos (ln - ld)) as Hkp.
  pose proof (pow2_pos ld) as Hldp.
  assert (Hx' : (n # d) * inject_Z (Zpos d) == inject_Z n).
  { rewrite (Qmake_Qdiv n d). field. discriminate. }
  assert (Hn1q : inject_Z (2 ^ ln) <= inject_Z n)
    by (rewrite <- Zle_Qle; exact Hn1).
  assert (Hn2q : inject_Z n < 2 * inject_Z (2 ^ ln))
    by (change 2 with (inject_Z 2); rewrite <- inject_Z_mult, <- Zlt_Qlt;
        exact Hn2).
  assert (Hd1q : inject_Z (2 ^ ld) <= inject_Z (Zpos d))
    by (rewrite <- Zle_Qle; exact Hd1).
  assert (Hd2q : inject_Z (Zpos d) < 2 * inject_Z (2 ^ ld))
    by (change 2 with (inject_Z 2); rewrite <- inject_Z_mult, <- Zlt_Qlt;
        exact Hd2).
  assert (HD : 0 < inject_Z (Zpos d)) by (unfold Qlt; cbn; lia).
  clear Hn1 Hn2 Hd1 Hd2.
  set (X := n # d) in *. set (D := inject_Z (Zpos d)) in *.
  set (N := inject_Z n) in *.
  set (A := inject_Z (2 ^ ln)) in *. set (B := inject_Z (2 ^ ld)) in *.
  set (K := pow2 (ln - ld)) in *.
  assert (HK1 : pow2 (ln - ld + 1) == 2 * K) by apply pow2_succ.
  assert (HK0 : 2 * pow2 (ln - ld - 1) == K).
  { rewrite <- pow2_succ. unfold K.
    now replace (ln - ld - 1 + 1)%Z with (ln - ld)%Z by ring. }
  set (K0 := pow2 (ln - ld - 1)) in *.
  set (PA := pow2 ln) in *. set (PB := pow2 ld) in *.
  assert (Hlow : K0 < X).
  { (* K0 * D < K0 * 2 B = K B = A <= N = X D *)
    apply (Qmult_lt_r _ _ D HD). nra. }
  assert (Hhigh : X < 2 * K).
  { apply (Qmult_lt_r _ _ D HD). nra. }
  destruct (Qle_bool K X) eqn:E.
  - apply Qle_bool_iff in E. split; [exact E|]. rewrite HK1. exact Hhigh.
  - assert (HltK : X < K).
    { apply Qnot_le_lt. intro H. apply Qle_bool_iff in H. congruence. }
    split.
    + apply Qlt_le_weak. exact Hlow.
    + replace (ln - ld - 1 + 1)%Z with (ln - ld)%Z by ring. exact HltK.
Qed.
(** [ilog2 x] is the only exponent whose binade holds [x]. *)
Lemma ilog2_unique (x : Q) (k : Z) :
  pow2 k <= x -> x < pow2 (k + 1) -> ilog2 x = k.
Proof.
  intros H1 H2.
  assert (Hx : 0 < x) by (apply Qlt_le_trans with (pow2 k); [apply pow2_pos | exact H1]).
  destruct (ilog2_spec x Hx) as [H3 H4].
  assert (Ha : (ilog2 x < k + 1)%Z).
  { apply pow2_lt_inv. now apply Qle_lt_trans with x. }
  assert (Hb : (k < ilog2 x + 1)%Z).
  { apply pow2_lt_inv. now apply Qle_lt_trans with x. }
  lia.
Qed.

Lemma ilog2_comp (x y : Q) : 0 < x -> x == y -> ilog2 x = ilog2 y.
Proof.
  intros Hx Hxy. symmetry. destruct (ilog2_spec x Hx) as [H1 H2].
  apply ilog2_unique; rewrite <- Hxy; assumption.
Qed.

Lemma ilog2_mono (x y : Q) : 0 < x -> x <= y -> (ilog2 x <= ilog2 y)%Z.
Proof.
  intros Hx Hxy.
  assert (Hy : 0 < y) by now apply Qlt_le_trans with x.
  destruct (ilog2_spec x Hx) as [H1 _]. destruct (ilog2_spec y Hy) as [_ H2].
  assert (H : (ilog2 x < ilog2 y + 1)%Z).
  { apply pow2_lt_inv. apply Qle_lt_trans with x; [exact H1|].
    now apply Qle_lt_trans with y. }
  lia.
Qed.

Lemma ilog2_ge (x : Q) (k : Z) : pow2 k <= x -> (k <= ilog2 x)%Z.
Proof.
  intro H.
  assert (Hx : 0 < x) by (apply Qlt_le_trans with (pow2 k); [apply pow2_pos | exact H]).
  destruct (ilog2_spec x Hx) as [_ H2].
  assert (Ha : (k < ilog2 x + 1)%Z).
  { apply pow2_lt_inv. now apply Qle_lt_trans with x. }
  lia.
Qed.

Lemma ilog2_lt (x : Q) (k : Z) : 0 < x -> x < pow2 k -> (ilog2 x < k)%Z.
Proof.
  intros Hx H. destruct (ilog2_spec x Hx) as [H1 _].
  apply pow2_lt_inv. now apply Qle_lt_trans with x.
Qed.

(** *** Rounding to the nearest integer *)

Lemma rne_cases (s : Q) :
  let f := Qfloor s in
  inject_Z f <= s /\ s < inject_Z f + 1
  /\ ((s - inject_Z f < 1 # 2 /\ rne s = f)
      \/ (1 # 2 < s - inject_Z f /\ rne s = (f + 1)%Z)
      \/ (s - inject_Z f == 1 # 2 /\ (rne s = f \/ rne s = (f + 1)%Z))).
Proof.
  intro f. pose proof (Qfloor_le s) as H1. pose proof (Qlt_floor s) as H2.
  rewrite inject_Z_plus in H2. change (inject_Z 1) with 1 in H2. fold f in H1, H2.
  split; [exact H1|]. split; [exact H2|].
  unfold rne. fold f.
  destruct (Qle_bool (1 # 2) (s - inject_Z f)) eqn:E1; cbn [negb].
  - apply Qle_bool_iff in E1.
    destruct (Qle_bool (s - inject_Z f) (1 # 2)) eqn:E2; cbn [negb].
    + apply Qle_bool_iff in E2. right. right.
      split; [lra|]. destruct (Z.even f); auto.
    + right. left. split; [|reflexivity].
      apply Qnot_le_lt. intro H. apply Qle_bool_iff in H. congruence.
  - left. split; [|reflexivity].
    apply Qnot_le_lt. intro H. apply Qle_bool_iff in H. congruence.
Qed.

Lemma rne_comp (s t : Q) : s == t -> rne s = rne t.
Proof.
  intro H. unfold rne. rewrite (Qfloor_comp s t H).
  set (f := Qfloor t).
  assert (E1 : Qle_bool (1 # 2) (s - inject_Z f)
               = Qle_bool (1 # 2) (t - inject_Z f)) by now rewrite H.
  assert (E2 : Qle_bool (s - inject_Z f) (1 # 2)
               = Qle_bool (t - inject_Z f) (1 # 2)) by now rewrite H.
  now rewrite E1, E2.
Qed.

Lemma rne_ge (s : Q) (n : Z) : inject_Z n <= s -> (n <= rne s)%Z.
Proof.
  intro H. destruct (rne_cases s) as (H1 & H2 & Hc).
  assert (Hf : (n <= Qfloor s)%Z).
  { change n with (Qfloor (inject_Z n)) || rewrite <- (Qfloor_Z n).
    now apply Qfloor_resp_le. }
  destruct Hc as [[_ ->] | [[_ ->] | [_ [-> | ->]]]]; lia.
Qed.

Lemma rne_le (s : Q) (n : Z) : s <= inject_Z n -> (rne s <= n)%Z.
Proof.
  intro H. destruct (rne_cases s) as (H1 & H2 & Hc).
  assert (Hf : (Qfloor s <= n)%Z).
  { rewrite <- (Qfloor_Z n). now apply Qfloor_resp_le. }
  destruct (Z.eq_dec (Qfloor s) n) as [Heq | Hne].
  - rewrite Heq in *.
    destruct Hc as [[_ ->] | [[Hr _] | [Hr _]]]; [lia | lra | lra].
  - destruct Hc as [[_ ->] | [[_ ->] | [_ [-> | ->]]]]; lia.
Qed.

Lemma rne_Z (n : Z) : rne (inject_Z n) = n.
Proof.
  apply Z.le_antisymm; [apply rne_le | apply rne_ge]; apply Qle_refl.
Qed.

Lemma rne_mono (s t : Q) : s <= t -> (rne s <= rne t)%Z.
Proof.
  intro H. destruct (rne_cases s) as (Hs1 & Hs2 & Hs).
  destruct (rne_cases t) as (Ht1 & Ht2 & Ht).
  pose proof (Qfloor_resp_le s t H) as Hf.
  destruct (Z.eq_dec (Qfloor s) (Qfloor t)) as [Heq | Hne].
  - rewrite Heq in *.
    destruct Hs as [[Hrs ->] | [[Hrs ->] | [Hrs Hs]]];
      destruct Ht as [[Hrt ->] | [[Hrt ->] | [Hrt Ht]]];
      try lia; try (exfalso; lra).
    assert (Hst : s == t) by lra. rewrite (rne_comp s t Hst). lia.
  - assert (Hlt : (Qfloor s + 1 <= Qfloor t)%Z) by lia.
    assert (Ha : (rne s <= Qfloor s + 1)%Z)
      by (destruct Hs as [[_ ->] | [[_ ->] | [_ [-> | ->]]]]; lia).
    assert (Hb : (Qfloor t <= rne t)%Z)
      by (destruct Ht as [[_ ->] | [[_ ->] | [_ [-> | ->]]]]; lia).
    lia.
Qed.

Lemma rne_small (s : Q) : 0 <= s -> s < 1 # 2 -> rne s = 0%Z.
Proof.
  intros H0 H1.
  assert (Hf : Qfloor s = 0%Z).
  { pose proof (Qfloor_le s). pose proof (Qlt_floor s) as H2.
    rewrite inject_Z_plus in H2. change (inject_Z 1) with 1 in H2.
    assert (Ha : (-1 < Qfloor s)%Z).
    { rewrite Zlt_Qlt. change (inject_Z (-1)) with (-1). lra. }
    assert (Hb : (Qfloor s < 1)%Z).
    { rewrite Zlt_Qlt. change (inject_Z 1) with 1. lra. }
    lia. }
  destruct (rne_cases s) as (_ & _ & Hc). rewrite Hf in Hc.
  change (inject_Z 0) with 0 in Hc.
  destruct Hc as [[_ ->] | [[Hr _] | [Hr _]]]; [reflexivity | lra | lra].
Qed.

(** *** Rounding a positive number to 53 bits *)

Lemma ulp_exp_spec (x : Q) :
  (ilog2 x - 52 <= ulp_exp x)%Z /\ (-1074 <= ulp_exp x)%Z
  /\ (ulp_exp x = ilog2 x - 52 \/ ulp_exp x = -1074)%Z.
Proof. unfold ulp_exp. lia. Qed.

Lemma rnd_pos_val (x : Q) :
  rnd_pos x == inject_Z (rne (x / pow2 (ulp_exp x))) * pow2 (ulp_exp x).
Proof. unfold rnd_pos. cbv zeta. apply Qred_correct. Qed.

Lemma rnd_pos_comp (x y : Q) : 0 < x -> x == y -> rnd_pos x = rnd_pos y.
Proof.
  intros Hx Hxy. unfold rnd_pos, ulp_exp. cbv zeta.
  rewrite (ilog2_comp x y Hx Hxy).
  set (e := Z.max (ilog2 y - 52) (-1074)).
  assert (Hs : x / pow2 e == y / pow2 e) by now rewrite Hxy.
  now rewrite (rne_comp _ _ Hs).
Qed.

Lemma rnd_pos_le_grid (x : Q) (n : Z) :
  x <= inject_Z n * pow2 (ulp_exp x) ->
  rnd_pos x <= inject_Z n * pow2 (ulp_exp x).
Proof.
  intro H. rewrite rnd_pos_val.
  pose proof (pow2_pos (ulp_exp x)) as Hp.
  apply Qmult_le_compat_r; [|now apply Qlt_le_weak].
  rewrite <- Zle_Qle. apply rne_le.
  now apply Qle_shift_div_r.
Qed.

Lemma rnd_pos_ge_grid (x : Q) (n : Z) :
  inject_Z n * pow2 (ulp_exp x) <= x ->
  inject_Z n * pow2 (ulp_exp x) <= rnd_pos x.
Proof.
  intro H. rewrite rnd_pos_val.
  pose proof (pow2_pos (ulp_exp x)) as Hp.
  apply Qmult_le_compat_r; [|now apply Qlt_le_weak].
  rewrite <- Zle_Qle. apply rne_ge.
  now apply Qle_shift_div_l.
Qed.

Lemma rnd_pos_nonneg (x : Q) : 0 <= x -> 0 <= rnd_pos x.
Proof.
  intro H. pose proof (rnd_pos_ge_grid x 0) as Hg.
  change (inject_Z 0) with 0 in Hg.
  setoid_replace (0 * pow2 (ulp_exp x)) with 0 in Hg by ring.
  now apply Hg.
Qed.

Lemma rnd_pos_upper (x : Q) : 0 < x -> rnd_pos x <= pow2 (ilog2 x + 1).
Proof.
  intro Hx. destruct (ilog2_spec x Hx) as [H1 H2].
  destruct (ulp_exp_spec x) as (He1 & He2 & He).
  destruct (Z_le_gt_dec (ulp_exp x) (ilog2 x + 1)) as [Hle | Hgt].
  - rewrite (pow2_multiple (ilog2 x + 1) (ulp_exp x) Hle).
    apply rnd_pos_le_grid.
    rewrite <- (pow2_multiple (ilog2 x + 1) (ulp_exp x) Hle).
    now apply Qlt_le_weak.
  - (* below half of the smallest positive double *)
    assert (He' : ulp_exp x = (-1074)%Z) by lia.
    rewrite rnd_pos_val, He'.
    assert (Hs : x / pow2 (-1074) < 1 # 2).
    { apply Qlt_shift_div_r; [apply pow2_pos|].
      apply Qlt_le_trans with (pow2 (ilog2 x + 1)); [exact H2|].
      setoid_replace ((1 # 2) * pow2 (-1074)) with (pow2 (-1075))
        by (vm_compute; reflexivity).
      apply pow2_le. lia. }
    rewrite rne_small; [|apply Qle_shift_div_l; [apply pow2_pos|]; lra|exact Hs].
    change (inject_Z 0) with 0.
    setoid_replace (0 * pow2 (-1074)) with 0 by ring.
    apply Qlt_le_weak, pow2_pos.
Qed.

Lemma rnd_pos_lower (x : Q) :
  0 < x -> (-1074 <= ilog2 x)%Z -> pow2 (ilog2 x) <= rnd_pos x.
Proof.
  intros Hx Hk. destruct (ilog2_spec x Hx) as [H1 H2].
  destruct (ulp_exp_spec x) as (He1 & He2 & He).
  assert (Hle : (ulp_exp x <= ilog2 x)%Z) by lia.
  rewrite (pow2_multiple (ilog2 x) (ulp_exp x) Hle).
  apply rnd_pos_ge_grid.
  now rewrite <- (pow2_multiple (ilog2 x) (ulp_exp x) Hle).
Qed.

Lemma rnd_pos_mono (x y : Q) : 0 < x -> x <= y -> rnd_pos x <= rnd_pos y.
Proof.
  intros Hx Hxy.
  assert (Hy : 0 < y) by now apply Qlt_le_trans with x.
  pose proof (ilog2_mono x y Hx Hxy) as Hk.
  destruct (Z.eq_dec (ulp_exp x) (ulp_exp y)) as [Heq | Hne].
  - rewrite !rnd_pos_val, Heq.
    pose proof (pow2_pos (ulp_exp y)) as Hp.
    apply Qmult_le_compat_r; [|now apply Qlt_le_weak].
    rewrite <- Zle_Qle. apply rne_mono.
    apply Qmult_le_compat_r; [exact Hxy|].
    apply Qlt_le_weak, Qinv_lt_0_compat, Hp.
  - destruct (ulp_exp_spec x) as (Hx1 & Hx2 & Hx3).
    destruct (ulp_exp_spec y) as (Hy1 & Hy2 & Hy3).
    assert (Hky : (ilog2 x + 1 <= ilog2 y)%Z /\ (-1074 <= ilog2 y)%Z) by lia.
    apply Qle_trans with (pow2 (ilog2 x + 1)); [now apply rnd_pos_upper|].
    apply Qle_trans with (pow2 (ilog2 y)); [apply pow2_le; lia|].
    apply rnd_pos_lower; [exact Hy | lia].
Qed.

(** *** Rounding *)

Lemma rnd_zero (x : Q) : x == 0 -> rnd x = 0.
Proof.
  intro H. unfold rnd.
  now rewrite (proj2 (Qeq_bool_iff x 0) H).
Qed.

Lemma rnd_of_pos (x : Q) : 0 < x -> rnd x = rnd_pos x.
Proof.
  intro H. unfold rnd.
  destruct (Qeq_bool x 0) eqn:E.
  - apply Qeq_bool_iff in E. lra.
  - rewrite (proj2 (Qle_bool_iff 0 x)); [reflexivity | lra].
Qed.

Lemma rnd_of_neg (x : Q) : x < 0 -> rnd x = - rnd_pos (- x).
Proof.
  intro H. unfold rnd.
  destruct (Qeq_bool x 0) eqn:E.
  - apply Qeq_bool_iff in E. lra.
  - destruct (Qle_bool 0 x) eqn:E2; [|reflexivity].
    apply Qle_bool_iff in E2. lra.
Qed.

Lemma rnd_comp (x y : Q) : x == y -> rnd x = rnd y.
Proof.
  intro H.
  destruct (Q_dec x 0) as [[Hlt | Hgt] | Heq].
  - rewrite (rnd_of_neg x Hlt), (rnd_of_neg y) by lra.
    rewrite (rnd_pos_comp (- x) (- y)); [reflexivity | lra | lra].
  - rewrite (rnd_of_pos x Hgt), (rnd_of_pos y) by lra.
    now apply rnd_pos_comp.
  - rewrite (rnd_zero x Heq), (rnd_zero y); [reflexivity | lra].
Qed.

Lemma rnd_nonneg (x : Q) : 0 <= x -> 0 <= rnd x.
Proof.
  intro H. destruct (Qle_lt_or_eq _ _ H) as [Hlt | Heq].
  - rewrite (rnd_of_pos x Hlt). now apply rnd_pos_nonneg.
  - rewrite (rnd_zero x); [apply Qle_refl | lra].
Qed.

Lemma rnd_nonpos (x : Q) : x <= 0 -> rnd x <= 0.
Proof.
  intro H. destruct (Qle_lt_or_eq _ _ H) as [Hlt | Heq].
  - rewrite (rnd_of_neg x Hlt).
    pose proof (rnd_pos_nonneg (- x)) as Hp. lra.
  - rewrite (rnd_zero x); [apply Qle_refl | exact Heq].
Qed.

(** Rounding never reverses an order. *)
Lemma rnd_mono (x y : Q) : x <= y -> rnd x <= rnd y.
Proof.
  intro H.
  destruct (Qlt_le_dec 0 x) as [Hx | Hx].
  - rewrite (rnd_of_pos x Hx), (rnd_of_pos y) by lra.
    now apply rnd_pos_mono.
  - destruct (Qlt_le_dec y 0) as [Hy | Hy].
    + rewrite (rnd_of_neg y Hy), (rnd_of_neg x) by lra.
      pose proof (rnd_pos_mono (- y) (- x)) as Hm. lra.
    + apply Qle_trans with 0; [now apply rnd_nonpos | now apply rnd_nonneg].
Qed.

Lemma rnd_opp (x : Q) : rnd (- x) == - rnd x.
Proof.
  destruct (Q_dec x 0) as [[Hlt | Hgt] | Heq].
  - rewrite (rnd_of_neg x Hlt), (rnd_of_pos (- x)) by lra. ring.
  - rewrite (rnd_of_pos x Hgt), (rnd_of_neg (- x)) by lra.
    rewrite (rnd_pos_comp (- - x) x); [reflexivity | lra | ring].
  - rewrite (rnd_zero x Heq), (rnd_zero (- x)); [reflexivity | lra].
Qed.

(** *** Doubles *)

Lemma of_Q_cases (x : Q) :
  (pow2 1024 <= rnd x /\ of_Q x = PInf)
  \/ (rnd x <= - pow2 1024 /\ of_Q x = NInf)
  \/ (- pow2 1024 < rnd x /\ rnd x < pow2 1024 /\ of_Q x = Finite (rnd x)).
Proof.
  unfold of_Q. cbv zeta.
  destruct (Qle_bool (pow2 1024) (rnd x)) eqn:E1.
  - left. split; [now apply Qle_bool_iff | reflexivity].
  - destruct (Qle_bool (rnd x) (- pow2 1024)) eqn:E2.
    + right. left. split; [now apply Qle_bool_iff | reflexivity].
    + right. right. repeat split.
      * apply Qnot_le_lt. intro H. apply Qle_bool_iff in H. congruence.
      * apply Qnot_le_lt. intro H. apply Qle_bool_iff in H. congruence.
Qed.

Lemma of_Q_comp (x y : Q) : x == y -> of_Q x = of_Q y.
Proof. intro H. unfold of_Q. now rewrite (rnd_comp x y H). Qed.

Lemma is_double_spec (c : Q) :
  is_double c = true ->
  rnd c == c /\ - pow2 1024 < c /\ c < pow2 1024 /\ of_Q c = Finite (rnd c).
Proof.
  unfold is_double. intro H.
  destruct (of_Q_cases c) as [[_ E] | [[_ E] | (H1 & H2 & E)]];
    rewrite E in H; try discriminate.
  apply Qeq_bool_iff in H.
  repeat split; try exact H; try exact E; rewrite <- H; assumption.
Qed.

(** A result between two doubles is delivered finite and between
    them. *)
Lemma of_Q_between (a b x : Q) :
  is_double a = true -> is_double b = true -> a <= x -> x <= b ->
  of_Q x = Finite (rnd x) /\ a <= rnd x /\ rnd x <= b.
Proof.
  intros Ha Hb Hax Hxb.
  destruct (is_double_spec a Ha) as (Ha1 & Ha2 & _).
  destruct (is_double_spec b Hb) as (Hb1 & _ & Hb2 & _).
  pose proof (rnd_mono a x Hax) as H1. pose proof (rnd_mono x b Hxb) as H2.
  assert (Hlo : a <= rnd x) by lra. assert (Hhi : rnd x <= b) by lra.
  split; [|split; assumption].
  destruct (of_Q_cases x) as [[H _] | [[H _] | (_ & _ & E)]];
    [lra | lra | exact E].
Qed.

(** [rnd x] is a whole multiple of [2^-1074], and of [2^(k-52)] as soon
    as its magnitude reaches [2^k]. *)
Lemma rnd_pos_grid (x : Q) (k : Z) :
  0 < x -> (-1074 <= k - 52)%Z -> pow2 k <= rnd_pos x ->
  exists m : Z, rnd_pos x == inject_Z m * pow2 (k - 52).
Proof.
  intros Hx Hk Hr.
  destruct (ulp_exp_spec x) as (He1 & He2 & He).
  destruct (Qlt_le_dec x (pow2 k)) as [Hlt | Hge].
  - pose proof (ilog2_lt x k Hx Hlt) as Hl.
    pose proof (rnd_pos_upper x Hx) as Hu.
    assert (Hp : pow2 (ilog2 x + 1) <= pow2 k) by (apply pow2_le; lia).
    exists (2 ^ (k - (k - 52)))%Z.
    rewrite <- (pow2_multiple k (k - 52)) by lia. lra.
  - pose proof (ilog2_ge x k Hge) as Hl.
    exists (rne (x / pow2 (ulp_exp x)) * 2 ^ (ulp_exp x - (k - 52)))%Z.
    rewrite rnd_pos_val, inject_Z_mult, <- Qmult_assoc.
    rewrite <- (pow2_multiple (ulp_exp x) (k - 52)) by lia. reflexivity.
Qed.

Lemma rnd_pos_grid_min (x : Q) :
  exists m : Z, rnd_pos x == inject_Z m * pow2 (-1074).
Proof.
  destruct (ulp_exp_spec x) as (He1 & He2 & He).
  exists (rne (x / pow2 (ulp_exp x)) * 2 ^ (ulp_exp x - (-1074)))%Z.
  rewrite rnd_pos_val, inject_Z_mult, <- Qmult_assoc.
  rewrite <- (pow2_multiple (ulp_exp x) (-1074)) by lia. reflexivity.
Qed.

Lemma rnd_grid_min (x : Q) :
  exists m : Z, rnd x == inject_Z m * pow2 (-1074).
Proof.
  destruct (Q_dec x 0) as [[Hlt | Hgt] | Heq].
  - rewrite (rnd_of_neg x Hlt).
    destruct (rnd_pos_grid_min (- x)) as [m Hm].
    exists (- m)%Z. rewrite Hm, inject_Z_opp. ring.
  - rewrite (rnd_of_pos x Hgt). apply rnd_pos_grid_min.
  - rewrite (rnd_zero x Heq). exists 0%Z. ring.
Qed.

Lemma rnd_grid (x : Q) (k : Z) :
  (-1074 <= k - 52)%Z -> pow2 k <= rnd x ->
  exists m : Z, rnd x == inject_Z m * pow2 (k - 52).
Proof.
  intros Hk Hr. pose proof (pow2_pos k) as Hp.
  destruct (Qlt_le_dec 0 x) as [Hx | Hx].
  - rewrite (rnd_of_pos x Hx) in *. now apply rnd_pos_grid.
  - pose proof (rnd_nonpos x Hx). lra.
Qed.

(** Two different doubles are at least [2^-1074] apart, so that their
    difference is never rounded to zero. *)
Lemma double_gap (t1 t2 : Q) :
  is_double t1 = true -> is_double t2 = true -> t1 < t2 ->
  pow2 (-1074) <= rnd (t2 - t1).
Proof.
  intros H1 H2 Hlt.
  destruct (is_double_spec t1 H1) as (E1 & _).
  destruct (is_double_spec t2 H2) as (E2 & _).
  destruct (rnd_grid_min t1) as [m1 Hm1]. destruct (rnd_grid_min t2) as [m2 Hm2].
  rewrite E1 in Hm1. rewrite E2 in Hm2.
  pose proof (pow2_pos (-1074)) as Hp.
  assert (Hm : (m1 + 1 <= m2)%Z).
  { assert (H : (m1 < m2)%Z); [|lia].
    rewrite Zlt_Qlt. apply (Qmult_lt_r _ _ _ Hp). lra. }
  rewrite Zle_Qle, inject_Z_plus in Hm. change (inject_Z 1) with 1 in Hm.
  assert (Hd : pow2 (-1074) <= t2 - t1).
  { rewrite Hm1, Hm2. set (p := pow2 (-1074)) in *.
    set (a := inject_Z m1) in *. set (b := inject_Z m2) in *. nra. }
  apply Qle_trans with (rnd (pow2 (-1074))); [|now apply rnd_mono].
  vm_compute. discriminate.
Qed.


(** *** The operations on finite operands *)

Lemma double_consts :
  is_double 0 = true /\ is_double 1 = true /\ is_double 180 = true
  /\ is_double (-180) = true /\ is_double 360 = true
  /\ is_double (-360) = true /\ is_double 540 = true.
Proof. vm_compute. repeat split. Qed.

Lemma of_Q_zero (x : Q) : x == 0 -> of_Q x = Finite 0.
Proof. intro H. rewrite (of_Q_comp x 0 H). reflexivity. Qed.

Lemma of_Q_one (x : Q) : x == 1 -> of_Q x = Finite 1.
Proof. intro H. rewrite (of_Q_comp x 1 H). vm_compute. reflexivity. Qed.

Lemma of_Q_double (x c : Q) :
  is_double c = true -> x == c -> exists r, of_Q x = Finite r /\ r == c.
Proof.
  intros Hc Hx. destruct (is_double_spec c Hc) as (E & _ & _ & Ec).
  exists (rnd c). rewrite (of_Q_comp x c Hx). split; [exact Ec | exact E].
Qed.

Lemma fadd_Finite (x y : Q) : fadd (Finite x) (Finite y) = of_Q (x + y).
Proof. reflexivity. Qed.

Lemma fsub_Finite (x y : Q) : fsub (Finite x) (Finite y) = of_Q (x - y).
Proof. reflexivity. Qed.

Lemma fmul_Finite (x y : Q) : fmul (Finite x) (Finite y) = of_Q (x * y).
Proof. reflexivity. Qed.

Lemma fdiv_Finite (x y : Q) :
  ~ y == 0 -> fdiv (Finite x) (Finite y) = Return (of_Q (x / y)).
Proof.
  intro H. unfold fdiv. destruct (Qeq_bool y 0) eqn:E; [|reflexivity].
  apply Qeq_bool_iff in E. contradiction.
Qed.

Lemma flt_Finite (x y : Q) :
  (flt (Finite x) (Finite y) = true /\ x < y)
  \/ (flt (Finite x) (Finite y) = false /\ y <= x).
Proof.
  cbn [flt]. destruct (Qle_bool y x) eqn:E; cbn [negb].
  - right. split; [reflexivity | now apply Qle_bool_iff].
  - left. split; [reflexivity|].
    apply Qnot_le_lt. intro H. apply Qle_bool_iff in H. congruence.
Qed.

Lemma fle_Finite (x y : Q) :
  (fle (Finite x) (Finite y) = true /\ x <= y)
  \/ (fle (Finite x) (Finite y) = false /\ y < x).
Proof.
  cbn [fle]. destruct (Qle_bool x y) eqn:E.
  - left. split; [reflexivity | now apply Qle_bool_iff].
  - right. split; [reflexivity|].
    apply Qnot_le_lt. intro H. apply Qle_bool_iff in H. congruence.
Qed.

(** What [rnd] delivers is a double again when it is finite. *)
Lemma rnd_pos_idem (x : Q) : 0 < x -> rnd_pos (rnd_pos x) == rnd_pos x.
Proof.
  intro Hx. set (y := rnd_pos x).
  destruct (Qlt_le_dec 0 y) as [Hy | Hy].
  2: { assert (H0 : y == 0) by (pose proof (rnd_pos_nonneg x); unfold y in *; lra).
       rewrite (rnd_pos_val y).
       pose proof (pow2_pos (ulp_exp y)) as Hp.
       set (p := pow2 (ulp_exp y)) in *. clearbody p.
       assert (Hs : y / p == inject_Z 0).
       { rewrite H0. change (inject_Z 0) with 0. field. lra. }
       rewrite (rne_comp _ _ Hs), rne_Z, H0. change (inject_Z 0) with 0. ring. }
  destruct (ilog2_spec x Hx) as [Hx1 Hx2].
  destruct (ulp_exp_spec x) as (Ex1 & Ex2 & Ex3).
  pose proof (rnd_pos_upper x Hx) as Hup. fold y in Hup.
  (* [y] is a multiple of [2^e] with [e <= ulp_exp y], or the next power *)
  assert (Hmult : exists m : Z, y == inject_Z m * pow2 (ulp_exp y)).
  { destruct (Qlt_le_dec y (pow2 (ilog2 x + 1))) as [Hlt | Hge].
    - (* same binade or below: the exponent of [y] is at most that of [x] *)
      assert (Hle : (ulp_exp y <= ulp_exp x)%Z).
      { pose proof (ilog2_lt y (ilog2 x + 1) Hy Hlt).
        destruct (ulp_exp_spec y) as (_ & _ & [E | E]); lia. }
      assert (Hge : (ulp_exp x <= ulp_exp y)%Z \/ (ulp_exp y < ulp_exp x)%Z) by lia.
      destruct Hge as [Hge | Hlt'].
      + assert (Heq : ulp_exp y = ulp_exp x) by lia.
        exists (rne (x / pow2 (ulp_exp x))). rewrite Heq. apply rnd_pos_val.
      + exists (rne (x / pow2 (ulp_exp x)) * 2 ^ (ulp_exp x - ulp_exp y))%Z.
        rewrite inject_Z_mult, <- Qmult_assoc.
        rewrite <- (pow2_multiple (ulp_exp x) (ulp_exp y)) by lia.
        apply rnd_pos_val.
    - assert (Heq : y == pow2 (ilog2 x + 1)) by lra.
      assert (Hk : ilog2 y = (ilog2 x + 1)%Z).
      { apply ilog2_unique; rewrite Heq; [apply Qle_refl | apply pow2_lt; lia]. }
      assert (Hle : (ulp_exp y <= ilog2 x + 1)%Z).
      { destruct (ulp_exp_spec y) as (_ & _ & [E | E]); [lia|].
        (* [y > 0] is a multiple of [2^-1074] *)
        rewrite E. destruct (Z_le_gt_dec (-1074) (ilog2 x + 1)); [assumption|].
        exfalso.
        destruct (rnd_pos_grid_min x) as [m Hm]. fold y in Hm.
        pose proof (pow2_pos (-1074)) as Hp.
        assert (Hm1 : (1 <= m)%Z).
        { assert (H : (0 < m)%Z); [|lia].
          rewrite Zlt_Qlt. apply (Qmult_lt_r _ _ _ Hp).
          change (inject_Z 0) with 0. lra. }
        rewrite Zle_Qle in Hm1. change (inject_Z 1) with 1 in Hm1.
        assert (Hlt : pow2 (ilog2 x + 1) < pow2 (-1074)) by (apply pow2_lt; lia).
        set (p := pow2 (-1074)) in *. set (M := inject_Z m) in *. nra. }
      exists (2 ^ (ilog2 x + 1 - ulp_exp y))%Z.
      rewrite <- (pow2_multiple (ilog2 x + 1) (ulp_exp y)) by lia. exact Heq. }
  destruct Hmult as [m Hm].
  rewrite (rnd_pos_val y).
  pose proof (pow2_pos (ulp_exp y)) as Hp.
  set (p := pow2 (ulp_exp y)) in *. clearbody p.
  assert (Hs : y / p == inject_Z m).
  { rewrite Hm. field. lra. }
  rewrite (rne_comp _ _ Hs), rne_Z. symmetry. exact Hm.
Qed.

Lemma rnd_idem (x : Q) : rnd (rnd x) == rnd x.
Proof.
  destruct (Q_dec x 0) as [[Hlt | Hgt] | Heq].
  - rewrite (rnd_of_neg x Hlt). rewrite rnd_opp.
    destruct (Qlt_le_dec 0 (rnd_pos (- x))) as [Hp | Hp].
    + rewrite (rnd_of_pos _ Hp). rewrite rnd_pos_idem by lra. reflexivity.
    + assert (H0 : rnd_pos (- x) == 0)
        by (pose proof (rnd_pos_nonneg (- x)); lra).
      rewrite (rnd_zero _ H0). lra.
  - rewrite (rnd_of_pos x Hgt).
    destruct (Qlt_le_dec 0 (rnd_pos x)) as [Hp | Hp].
    + rewrite (rnd_of_pos _ Hp). now apply rnd_pos_idem.
    + assert (H0 : rnd_pos x == 0)
        by (pose proof (rnd_pos_nonneg x); lra).
      rewrite (rnd_zero _ H0). lra.
  - rewrite (rnd_zero x Heq). reflexivity.
Qed.

(** A finite result is a double. *)
Lemma of_Q_is_double (x r : Q) : of_Q x = Finite r -> is_double r = true.
Proof.
  intro H.
  destruct (of_Q_cases x) as [[_ E] | [[_ E] | (H1 & H2 & E)]];
    rewrite E in H; try discriminate.
  injection H as <-. unfold is_double.
  pose proof (rnd_idem x) as Hi.
  destruct (of_Q_cases (rnd x)) as [[H3 _] | [[H3 _] | (_ & _ & E')]];
    [lra | lra |].
  rewrite E'. now apply Qeq_bool_iff.
Qed.

End PyFloatFacts.

(** ** The bracketing search *)

Module VerifyFacts.
Import Py Verify.
Local Open Scope Q_scope.

Lemma Qltb_lt (a b : Q) : Qltb a b = true <-> a < b.
Proof.
  unfold Qltb. rewrite negb_true_iff, <- not_true_iff_false, Qle_bool_iff.
  split; [apply Qnot_le_lt | apply Qlt_not_le].
Qed.

Lemma Qltb_ge (a b : Q) : Qltb a b = false <-> b <= a.
Proof.
  unfold Qltb. rewrite negb_false_iff. apply Qle_bool_iff.
Qed.

Lemma Qleb_le (a b : Q) : Qleb a b = true <-> a <= b.
Proof. apply Qle_bool_iff. Qed.

Lemma Qleb_gt (a b : Q) : Qleb a b = false <-> b < a.
Proof.
  unfold Qleb. rewrite <- not_true_iff_false, Qle_bool_iff.
  split; [apply Qnot_le_lt | apply Qlt_not_le].
Qed.

Ltac qbool :=
  repeat match goal with
         | H : Qltb _ _ = true |- _ => apply Qltb_lt in H
         | H : Qltb _ _ = false |- _ => apply Qltb_ge in H
         | H : Qleb _ _ = true |- _ => apply Qleb_le in H
         | H : Qleb _ _ = false |- _ => apply Qleb_gt in H
         end.

Lemma index_Some {A : Type} (l : list A) (i : nat) (a : A) :
  nth_error l i = Some a -> index l i = Return a.
Proof. unfold index. now intros ->. Qed.

Lemma index_lt {A : Type} (l : list A) (i : nat) :
  (i < length l)%nat -> exists a, nth_error l i = Some a /\ index l i = Return a.
Proof.
  intro Hi. destruct (nth_error l i) as [a|] eqn:E.
  - exists a. split; [reflexivity|]. now apply index_Some.
  - apply nth_error_None in E. lia.
Qed.

Lemma mid_between (low high : nat) :
  (low + 1 < high)%nat ->
  (low < (low + high) / 2 /\ (low + high) / 2 < high)%nat.
Proof.
  intro H. split.
  - apply Nat.div_le_lower_bound; lia.
  - apply Nat.Div0.div_lt_upper_bound; lia.
Qed.

(** What the loop keeps true and what it ends with: the two indices
    are adjacent, the lower sample is not after the target, and the
    upper one is either the index the loop started with or a sample
    strictly after the target. *)
Lemma bisect_spec (target : Q) (times : list Q) (fuel low high : nat) :
  (low < high)%nat -> (high < length times)%nat -> (high - low <= S fuel)%nat ->
  (exists t, nth_error times low = Some t /\ t <= target) ->
  exists low' high',
    bisect fuel target times low high = Return (low', high')
    /\ high' = S low' /\ (low <= low')%nat /\ (high' <= high)%nat
    /\ (exists t, nth_error times low' = Some t /\ t <= target)
    /\ (high' = high \/ exists t, nth_error times high' = Some t /\ target < t).
Proof.
  revert low high. induction fuel as [|fuel IH]; intros low high Hlh Hhi Hfuel Hlow.
  - exists low, high. assert (high = S low) by lia. subst high.
    cbn [bisect]. replace (S low - low <=? 1)%nat with true
      by (symmetry; apply Nat.leb_le; lia).
    repeat split; auto; lia.
  - cbn [bisect]. destruct (high - low <=? 1)%nat eqn:Eexit.
    + apply Nat.leb_le in Eexit. exists low, high.
      repeat split; auto; lia.
    + apply Nat.leb_gt in Eexit.
      destruct (mid_between low high ltac:(lia)) as [Hm1 Hm2].
      set (mid := ((low + high) / 2)%nat) in *.
      destruct (index_lt times mid ltac:(lia)) as (t_mid & Hnth & ->).
      cbn [bind]. destruct (Qleb t_mid target) eqn:Ecmp; qbool.
      * destruct (IH mid high Hm2 Hhi ltac:(lia)) as (l' & h' & Hrun & Hadj & Hl & Hh & Hlo' & Hhi').
        { exists t_mid. split; assumption. }
        exists l', h'. repeat split; auto; lia.
      * destruct (IH low mid Hm1 ltac:(lia) ltac:(lia) Hlow)
          as (l' & h' & Hrun & Hadj & Hl & Hh & Hlo' & Hhi').
        exists l', h'. repeat split; auto; try lia.
        destruct Hhi' as [-> | Hstrict]; [|right; exact Hstrict].
        right. exists t_mid. split; assumption.
Qed.

(** The guard passed: the search returns an adjacent pair around the
    target.  No order on [times] is needed for this. *)
Lemma bracket_inside (target : Q) (times : list Q) (t_first t_last : Q) :
  (2 <= length times)%nat ->
  nth_error times 0 = Some t_first ->
  nth_error times (length times - 1) = Some t_last ->
  t_first <= target <= t_last ->
  exists low t_low t_high,
    bracket target times = Return (Some (low, S low))
    /\ nth_error times low = Some t_low
    /\ nth_error times (S low) = Some t_high
    /\ t_low <= target <= t_high
    /\ (S low = (length times - 1)%nat \/ target < t_high).
Proof.
  intros Hlen Hfirst Hlast [Hge Hle].
  destruct (bisect_spec target times (length times) 0 (length times - 1))
    as (low & high & Hrun & -> & _ & Hh & (t_low & Hlow & Hlow_le) & Hhigh);
    try lia.
  { exists t_first. split; assumption. }
  assert (Hex : exists t_high, nth_error times (S low) = Some t_high
                 /\ target <= t_high
                 /\ (S low = (length times - 1)%nat \/ target < t_high)).
  { destruct Hhigh as [Heq | (t & Ht & Hlt)].
    - exists t_last. rewrite Heq. repeat split; auto.
    - exists t. repeat split; auto. apply Qlt_le_weak, Hlt. }
  destruct Hex as (t_high & Hnth & Hle' & Hstrict).
  exists low, t_low, t_high. repeat split; auto.
  unfold bracket. rewrite (index_Some _ _ _ Hfirst). cbn [bind].
  replace (Qltb target t_first) with false by (symmetry; now apply Qltb_ge).
  rewrite (index_Some _ _ _ Hlast). cbn [bind].
  replace (Qltb t_last target) with false by (symmetry; now apply Qltb_ge).
  rewrite Hrun. reflexivity.
Qed.

(** The fuel handed to the loop is enough: the search returns, or raises
    [IndexError] on an empty table, and never runs out. *)
Lemma bisect_returns (target : Q) (times : list Q) (fuel low high : nat) :
  (low <= high)%nat -> (high < length times)%nat -> (high - low <= S fuel)%nat ->
  exists lh, bisect fuel target times low high = Return lh.
Proof.
  revert low high. induction fuel as [|fuel IH]; intros low high Hlh Hhi Hfuel;
    cbn [bisect]; destruct (high - low <=? 1)%nat eqn:Eexit; eauto.
  - apply Nat.leb_gt in Eexit. lia.
  - apply Nat.leb_gt in Eexit.
    destruct (mid_between low high ltac:(lia)) as [Hm1 Hm2].
    destruct (index_lt times ((low + high) / 2) ltac:(lia)) as (t_mid & _ & ->).
    cbn [bind]. destruct (Qleb t_mid target); apply IH; lia.
Qed.

Lemma bracket_total (target : Q) (times : list Q) :
  (times = [] /\ bracket target times = Raise IndexError)
  \/ exists r, bracket target times = Return r.
Proof.
  destruct times as [|t0 rest]; [left; split; reflexivity | right].
  unfold bracket. cbn [index nth_error bind].
  destruct (Qltb target t0); [eauto|].
  destruct (index_lt (t0 :: rest) (length (t0 :: rest) - 1)) as (t_last & _ & ->);
    [cbn [length]; lia|].
  cbn [bind]. destruct (Qltb t_last target); [eauto|].
  destruct (bisect_returns target (t0 :: rest) (length (t0 :: rest)) 0
              (length (t0 :: rest) - 1)) as [lh ->]; [lia | cbn [length]; lia | lia|].
  cbn [bind]. eauto.
Qed.

(** C3. Outside the table there is no answer: for a non-empty table and
    a target before the first or after the last Julian Date, the search
    and the interpolator both take the early [return None]; nothing is
    extrapolated.  (The order of the table plays no part.) *)
Theorem interpolate_out_of_range
        (target_jd : Q) (times : list Q) (rows : list (list Q))
        (col_offset : nat) (t_first t_last : Q)
        (Hfirst : nth_error times 0 = Some t_first)
        (Hlast : nth_error times (length times - 1) = Some t_last)
        (Hout : target_jd < t_first \/ t_last < target_jd) :
  bracket target_jd times = Return None
  /\ interpolate target_jd times rows col_offset = Return None.
Proof.
  assert (Hb : bracket target_jd times = Return None).
  { unfold bracket. rewrite (index_Some _ _ _ Hfirst). cbn [bind].
    destruct (Qltb target_jd t_first) eqn:E1; [reflexivity|].
    rewrite (index_Some _ _ _ Hlast). cbn [bind].
    destruct (Qltb t_last target_jd) eqn:E2; [reflexivity|].
    qbool. destruct Hout as [H|H]; exfalso.
    - apply (Qlt_not_le _ _ H E1).
    - apply (Qlt_not_le _ _ H E2). }
  split; [exact Hb|]. unfold interpolate. rewrite Hb. reflexivity.
Qed.

(** C4, as the code has it.  For a target strictly between the first
    and the last Julian Date the search ends (the fuel is enough) with two
    adjacent indices, [low < high = low + 1], such that
    [times[low] <= target <= times[high]].  This is so on an exact
    timestamp match as well: the search never returns [low = high]. *)
Theorem bracket_monotonic
        (target_jd : Q) (times : list Q) (t_first t_last : Q)
        (Hfirst : nth_error times 0 = Some t_first)
        (Hlast : nth_error times (length times - 1) = Some t_last)
        (Hin : t_first < target_jd /\ target_jd < t_last) :
  (exists low high t_low t_high,
     bracket target_jd times = Return (Some (low, high))
     /\ (low < high)%nat /\ high = (low + 1)%nat
     /\ nth_error times low = Some t_low
     /\ nth_error times high = Some t_high
     /\ t_low <= target_jd /\ target_jd <= t_high)
  /\ forall i, bracket target_jd times <> Return (Some (i, i)).
Proof.
  destruct Hin as [H1 H2].
  assert (Hlen : (2 <= length times)%nat).
  { destruct times as [|a [|b l]]; simpl in *; try lia.
    - discriminate.
    - injection Hfirst as E1. injection Hlast as E2. subst t_first t_last.
      exfalso. apply (Qlt_irrefl a). now apply Qlt_trans with target_jd. }
  destruct (bracket_inside target_jd times t_first t_last Hlen Hfirst Hlast)
    as (low & t_low & t_high & Hrun & Hlo & Hhi & [Hle Hge] & _).
  { split; apply Qlt_le_weak; assumption. }
  split.
  - exists low, (S low), t_low, t_high. repeat split; auto; lia.
  - intros i Hi. rewrite Hrun in Hi. injection Hi as E1 E2. lia.
Qed.

(** Strictly ascending tables are strictly monotone in the index. *)
Lemma ascending_tail (a : Q) (l : list Q) :
  ascending (a :: l) = true -> ascending l = true.
Proof.
  destruct l as [|b l]; [reflexivity|]. cbn [ascending].
  now intros [_ H]%andb_true_iff.
Qed.

Lemma ascending_head (l : list Q) :
  forall a j x, ascending (a :: l) = true -> nth_error l j = Some x -> a < x.
Proof.
  induction l as [|b l IH]; intros a j x Hasc Hj.
  - destruct j; discriminate.
  - cbn [ascending] in Hasc. apply andb_true_iff in Hasc.
    destruct Hasc as [Hab Hrest]. qbool.
    destruct j as [|j]; cbn [nth_error] in Hj.
    + now injection Hj as <-.
    + apply Qlt_trans with b; [exact Hab|]. exact (IH b j x Hrest Hj).
Qed.

Lemma ascending_lt (times : list Q) :
  ascending times = true ->
  forall i j a b, (i < j)%nat ->
    nth_error times i = Some a -> nth_error times j = Some b -> a < b.
Proof.
  induction times as [|t times IH]; intros Hasc i j a b Hij Hi Hj.
  - destruct i; discriminate.
  - destruct j as [|j]; [lia|]. cbn [nth_error] in Hj.
    destruct i as [|i]; cbn [nth_error] in Hi.
    + injection Hi as <-. exact (ascending_head times t j b Hasc Hj).
    + apply (IH (ascending_tail _ _ Hasc) i j a b); auto; lia.
Qed.

Lemma ascending_le (times : list Q) :
  ascending times = true ->
  forall i j a b, (i <= j)%nat ->
    nth_error times i = Some a -> nth_error times j = Some b -> a <= b.
Proof.
  intros Hasc i j a b Hij Hi Hj.
  destruct (Nat.eq_dec i j) as [->|Hne].
  - rewrite Hi in Hj. injection Hj as <-. apply Qle_refl.
  - apply Qlt_le_weak. apply (ascending_lt times Hasc i j); auto; lia.
Qed.

(** Where the search lands on a stored Julian Date: on the interval that
    starts at it, or, for the last row, on the interval that ends at it. *)
Lemma bracket_exact (times : list Q) (i : nat) (t_i : Q) :
  ascending times = true -> (2 <= length times)%nat ->
  nth_error times i = Some t_i ->
  bracket t_i times = Return (Some (exact_low (length times) i,
                                    S (exact_low (length times) i))).
Proof.
  intros Hasc Hlen Hi.
  assert (Hilt : (i < length times)%nat)
    by (apply nth_error_Some; rewrite Hi; discriminate).
  destruct (index_lt times 0 ltac:(lia)) as (t_first & Hfirst & _).
  destruct (index_lt times (length times - 1) ltac:(lia)) as (t_last & Hlast & _).
  destruct (bracket_inside t_i times t_first t_last Hlen Hfirst Hlast)
    as (low & t_low & t_high & Hrun & Hlo & Hhi & [Hle Hge] & Hstrict).
  { split.
    - apply (ascending_le times Hasc 0 i); auto; lia.
    - apply (ascending_le times Hasc i (length times - 1)); auto; lia. }
  assert (Hhlt : (S low < length times)%nat)
    by (apply nth_error_Some; rewrite Hhi; discriminate).
  assert (Hlow_le : (low <= i)%nat).
  { destruct (Nat.le_gt_cases low i) as [H|H]; [exact H|]. exfalso.
    apply (Qlt_not_le t_i t_low); [|exact Hle].
    apply (ascending_lt times Hasc i low); auto. }
  assert (Hcase : S low = (length times - 1)%nat \/ i = low).
  { destruct Hstrict as [Heq | Hlt]; [left; exact Heq | right].
    destruct (Nat.le_gt_cases (S low) i) as [H|H]; [|lia]. exfalso.
    apply (Qlt_not_le t_i t_high Hlt).
    apply (ascending_le times Hasc (S low) i); auto. }
  rewrite Hrun. unfold exact_low.
  destruct (i + 1 <? length times)%nat eqn:Ei.
  - apply Nat.ltb_lt in Ei. assert (i = low) by lia. subst. reflexivity.
  - apply Nat.ltb_ge in Ei.
    assert (low = (length times - 2)%nat) by lia. subst low. reflexivity.
Qed.

End VerifyFacts.

(** ** Angles *)

Module AngleFacts.
Import Py PyFloat Verify Compare SpecCircular VerifyFacts PyFloatFacts.
Local Open Scope Q_scope.

(** *** Results between two doubles *)

Lemma fadd_between (a b x y : Q) :
  is_double a = true -> is_double b = true -> a <= x + y -> x + y <= b ->
  fadd (Finite x) (Finite y) = Finite (rnd (x + y))
  /\ a <= rnd (x + y) /\ rnd (x + y) <= b.
Proof. intros. rewrite fadd_Finite. now apply of_Q_between. Qed.

Lemma fsub_between (a b x y : Q) :
  is_double a = true -> is_double b = true -> a <= x - y -> x - y <= b ->
  fsub (Finite x) (Finite y) = Finite (rnd (x - y))
  /\ a <= rnd (x - y) /\ rnd (x - y) <= b.
Proof. intros. rewrite fsub_Finite. now apply of_Q_between. Qed.

Lemma fmul_between (a b x y : Q) :
  is_double a = true -> is_double b = true -> a <= x * y -> x * y <= b ->
  fmul (Finite x) (Finite y) = Finite (rnd (x * y))
  /\ a <= rnd (x * y) /\ rnd (x * y) <= b.
Proof. intros. rewrite fmul_Finite. now apply of_Q_between. Qed.

(** *** The two conditional corrections of the interpolator *)

Lemma wrap_delta_range (d : Q) :
  -360 <= d -> d <= 360 ->
  exists r,
    wrap_delta (Finite d) = Finite r /\ -180 <= r /\ r <= 180
    /\ ((d < -180 /\ r = rnd (d + 360))
        \/ (180 < d /\ r = rnd (d - 360))
        \/ (-180 <= d /\ d <= 180 /\ r = d)).
Proof.
  intros Hlo Hhi.
  destruct double_consts as (D0 & D1 & D180 & Dm180 & D360 & Dm360 & D540).
  unfold wrap_delta. cbv zeta.
  destruct (flt_Finite d (-180)) as [[E H] | [E H]]; rewrite E.
  - destruct (fadd_between 0 180 d 360 D0 D180) as (Ea & Ha1 & Ha2); try lra.
    rewrite Ea. unfold fgt.
    destruct (flt_Finite 180 (rnd (d + 360))) as [[E' H'] | [E' H']];
      rewrite E'; [exfalso; lra|].
    exists (rnd (d + 360)). repeat split; try lra. left. split; [exact H | reflexivity].
  - unfold fgt.
    destruct (flt_Finite 180 d) as [[E' H'] | [E' H']]; rewrite E'.
    + destruct (fsub_between (-180) 0 d 360 Dm180 D0) as (Ea & Ha1 & Ha2); try lra.
      rewrite Ea. exists (rnd (d - 360)). repeat split; try lra.
      right. left. split; [exact H' | reflexivity].
    + exists d. repeat split; try lra. right. right. repeat split; auto.
Qed.

Lemma wrap_ra_range (x : Q) :
  -180 <= x -> x <= 540 ->
  exists r, wrap_ra (Finite x) = Finite r /\ 0 <= r /\ r < 360.
Proof.
  intros Hlo Hhi.
  destruct double_consts as (D0 & D1 & D180 & Dm180 & D360 & Dm360 & D540).
  unfold wrap_ra. cbv zeta.
  destruct (flt_Finite x 0) as [[E H] | [E H]]; rewrite E.
  - destruct (fadd_between 180 360 x 360 D180 D360) as (Ea & Ha1 & Ha2); try lra.
    rewrite Ea. unfold fge.
    destruct (fle_Finite 360 (rnd (x + 360))) as [[E' H'] | [E' H']]; rewrite E'.
    + destruct (fsub_between 0 0 (rnd (x + 360)) 360 D0 D0) as (Eb & Hb1 & Hb2);
        try lra.
      rewrite Eb. eexists. split; [reflexivity|]. lra.
    + eexists. split; [reflexivity|]. lra.
  - unfold fge.
    destruct (fle_Finite 360 x) as [[E' H'] | [E' H']]; rewrite E'.
    + destruct (fsub_between 0 180 x 360 D0 D180) as (Eb & Hb1 & Hb2); try lra.
      rewrite Eb. eexists. split; [reflexivity|]. lra.
    + eexists. split; [reflexivity|]. lra.
Qed.

(** For endpoints in [[0, 360)] and a fraction in [[0, 1]] nothing
    overflows: the delta lies in [[-180, 180]] and the value returned in
    [[0, 360)]. *)
Lemma interp_ra_range (ra1 ra2 frac : Q) :
  0 <= ra1 -> ra1 < 360 -> 0 <= ra2 -> ra2 < 360 -> 0 <= frac -> frac <= 1 ->
  exists delta r,
    wrap_delta (fsub (Finite ra2) (Finite ra1)) = Finite delta
    /\ -180 <= delta /\ delta <= 180
    /\ ((rnd (ra2 - ra1) < -180 /\ delta = rnd (rnd (ra2 - ra1) + 360))
        \/ (180 < rnd (ra2 - ra1) /\ delta = rnd (rnd (ra2 - ra1) - 360))
        \/ (-180 <= rnd (ra2 - ra1) /\ rnd (ra2 - ra1) <= 180
            /\ delta = rnd (ra2 - ra1)))
    /\ interp_ra (Finite ra1) (Finite ra2) (Finite frac) = Finite r
    /\ 0 <= r /\ r < 360.
Proof.
  intros H1 H2 H3 H4 H5 H6.
  destruct double_consts as (D0 & D1 & D180 & Dm180 & D360 & Dm360 & D540).
  unfold interp_ra.
  destruct (fsub_between (-360) 360 ra2 ra1 Dm360 D360) as (Ed & Hd1 & Hd2);
    try lra.
  rewrite Ed.
  destruct (wrap_delta_range (rnd (ra2 - ra1)) Hd1 Hd2)
    as (delta & Ew & Hw1 & Hw2 & Hcases).
  rewrite Ew.
  destruct (fmul_between (-180) 180 delta frac Dm180 D180) as (Em & Hm1 & Hm2);
    try nra.
  rewrite Em.
  destruct (fadd_between (-180) 540 ra1 (rnd (delta * frac)) Dm180 D540)
    as (Ea & Ha1 & Ha2); try lra.
  rewrite Ea.
  destruct (wrap_ra_range _ Ha1 Ha2) as (r & Er & Hr1 & Hr2).
  exists delta, r. repeat split; auto.
Qed.

(** *** [fmod] and [%] by 360 *)

Lemma fmod_360 (x : Q) :
  (0 <= x -> 0 <= fmod x 360 /\ fmod x 360 < 360)
  /\ (x < 0 -> -360 < fmod x 360 /\ fmod x 360 <= 0)
  /\ fmod x 360 == x - 360 * inject_Z (Qtrunc (x / 360)).
Proof.
  unfold fmod.
  assert (Hx : x == 360 * (x / 360)) by field.
  set (q := x / 360) in *.
  unfold Qtrunc.
  destruct (Qle_bool 0 q) eqn:E.
  - apply Qle_bool_iff in E.
    pose proof (Qfloor_le q) as Hf1. pose proof (Qlt_floor q) as Hf2.
    rewrite inject_Z_plus in Hf2. change (inject_Z 1) with 1 in Hf2.
    set (f := inject_Z (Qfloor q)) in *.
    split; [intros _; split; lra|]. split; [intro; exfalso; lra | reflexivity].
  - assert (Hq : q < 0).
    { apply Qnot_le_lt. intro H. apply Qle_bool_iff in H. congruence. }
    pose proof (Qle_ceiling q) as Hc1. pose proof (Qceiling_lt q) as Hc2.
    unfold Z.sub in Hc2. rewrite inject_Z_plus, inject_Z_opp in Hc2.
    change (inject_Z 1) with 1 in Hc2.
    set (c := inject_Z (Qceiling q)) in *.
    split; [intro; exfalso; lra|]. split; [intros _; split; lra | reflexivity].
Qed.

Lemma fmod_small (x : Q) : 0 <= x -> x < 360 -> fmod x 360 == x.
Proof.
  intros H0 H1. unfold fmod.
  assert (Hq : 0 <= x / 360 /\ x / 360 < 1).
  { split.
    - apply Qle_shift_div_l; lra.
    - apply Qlt_shift_div_r; lra. }
  unfold Qtrunc. rewrite (proj2 (Qle_bool_iff 0 (x / 360)) (proj1 Hq)).
  assert (Hf : Qfloor (x / 360) = 0%Z).
  { pose proof (Qfloor_le (x / 360)) as Hf1. pose proof (Qlt_floor (x / 360)) as Hf2.
    rewrite inject_Z_plus in Hf2. change (inject_Z 1) with 1 in Hf2.
    destruct Hq as [Hq0 Hq1].
    assert (Ha : (-1 < Qfloor (x / 360))%Z).
    { rewrite Zlt_Qlt. change (inject_Z (-1)) with (-1).
      set (f := inject_Z (Qfloor (x / 360))) in *. set (q := x / 360) in *. lra. }
    assert (Hb : (Qfloor (x / 360) < 1)%Z).
    { rewrite Zlt_Qlt. change (inject_Z 1) with 1.
      set (f := inject_Z (Qfloor (x / 360))) in *. set (q := x / 360) in *. lra. }
    lia. }
  rewrite Hf. change (inject_Z 0) with 0. ring.
Qed.

Lemma fmod_small_neg (x : Q) : -360 < x -> x < 0 -> fmod x 360 == x.
Proof.
  intros H0 H1. unfold fmod.
  assert (Hq : -1 < x / 360 /\ x / 360 < 0).
  { split.
    - apply Qlt_shift_div_l; lra.
    - apply Qlt_shift_div_r; lra. }
  unfold Qtrunc.
  destruct (Qle_bool 0 (x / 360)) eqn:E.
  { apply Qle_bool_iff in E. exfalso. destruct Hq. lra. }
  assert (Hc : Qceiling (x / 360) = 0%Z).
  { pose proof (Qle_ceiling (x / 360)) as Hc1.
    pose proof (Qceiling_lt (x / 360)) as Hc2.
    unfold Z.sub in Hc2. rewrite inject_Z_plus, inject_Z_opp in Hc2.
    change (inject_Z 1) with 1 in Hc2.
    destruct Hq as [Hq0 Hq1].
    assert (Ha : (-1 < Qceiling (x / 360))%Z).
    { rewrite Zlt_Qlt. change (inject_Z (-1)) with (-1).
      set (c := inject_Z (Qceiling (x / 360))) in *. set (q := x / 360) in *. lra. }
    assert (Hb : (Qceiling (x / 360) < 1)%Z).
    { rewrite Zlt_Qlt. change (inject_Z 1) with 1.
      set (c := inject_Z (Qceiling (x / 360))) in *. set (q := x / 360) in *. lra. }
    lia. }
  rewrite Hc. change (inject_Z 0) with 0. ring.
Qed.

(** [x % 360.0] on a finite [x]: a double in [[0, 360]] (360 itself
    when a tiny negative remainder is rounded up), on the grid of
    [2^-45] once it exceeds 128. *)
Lemma float_mod_360 (x : Q) :
  exists d,
    float_mod (Finite x) (Finite 360) = Return (Finite d)
    /\ 0 <= d /\ d <= 360
    /\ ((0 <= x /\ d == fmod x 360)
        \/ (x < 0 /\ fmod x 360 == 0 /\ d == 0)
        \/ (x < 0 /\ fmod x 360 < 0 /\ d = rnd (fmod x 360 + 360))).
Proof.
  destruct double_consts as (D0 & D1 & D180 & Dm180 & D360 & Dm360 & D540).
  destruct (fmod_360 x) as (Hpos & Hneg & _).
  unfold float_mod. change (Qeq_bool 360 0) with false. cbv zeta.
  change (negb (Qle_bool 0 360)) with false. cbn [xorb].
  destruct (Qeq_bool (fmod x 360) 0) eqn:E0.
  - apply Qeq_bool_iff in E0. exists 0. split; [reflexivity|].
    split; [lra|]. split; [lra|].
    destruct (Qlt_le_dec x 0) as [Hx | Hx].
    + right. left. repeat split; auto; lra.
    + left. split; [exact Hx | lra].
  - apply Qeq_bool_neq in E0.
    destruct (Qle_bool 0 (fmod x 360)) eqn:E1; cbn [negb].
    + apply Qle_bool_iff in E1.
      destruct (Qlt_le_dec x 0) as [Hx | Hx].
      { destruct (Hneg Hx). exfalso. apply E0. lra. }
      destruct (Hpos Hx) as [Hm0 Hm1].
      exists (fmod x 360). split; [reflexivity|].
      split; [lra|]. split; [lra|]. left. split; [exact Hx | reflexivity].
    + assert (Hm : fmod x 360 < 0).
      { apply Qnot_le_lt. intro H. apply Qle_bool_iff in H. congruence. }
      destruct (Qlt_le_dec x 0) as [Hx | Hx].
      2: { destruct (Hpos Hx). exfalso. lra. }
      destruct (Hneg Hx) as [Hm0 Hm1].
      destruct (fadd_between 0 360 (fmod x 360) 360 D0 D360) as (Ea & Ha1 & Ha2);
        try lra.
      rewrite Ea. exists (rnd (fmod x 360 + 360)). split; [reflexivity|].
      split; [lra|]. split; [lra|]. right. right. repeat split; auto.
Qed.

(** Above 128 the doubles are [2^-45] apart: one that exceeds 180
    exceeds it by that much at least. *)
Lemma above_180 (d : Q) (m : Z) :
  d == inject_Z m * pow2 (-45) -> 180 < d -> 180 + pow2 (-45) <= d.
Proof.
  intros Hm Hd. pose proof (pow2_pos (-45)) as Hp.
  assert (H180 : 180 == inject_Z (180 * 2 ^ 45) * pow2 (-45))
    by (vm_compute; reflexivity).
  assert (Hlt : (180 * 2 ^ 45 < m)%Z).
  { rewrite Zlt_Qlt. apply (Qmult_lt_r _ _ _ Hp). lra. }
  assert (Hle : (180 * 2 ^ 45 + 1 <= m)%Z) by lia.
  rewrite Zle_Qle, inject_Z_plus in Hle. change (inject_Z 1) with 1 in Hle.
  set (M := inject_Z m) in *. set (C := inject_Z (180 * 2 ^ 45)) in *.
  set (p := pow2 (-45)) in *. nra.
Qed.

Lemma double_above_180 : is_double (-180 + pow2 (-45)) = true.
Proof. vm_compute. reflexivity. Qed.


(** *** [angle_diff] *)

Lemma grid_360 : 360 == inject_Z (360 * 2 ^ 45) * pow2 (-45).
Proof. vm_compute. reflexivity. Qed.

(** [d - 360.0] for a double [d] in (180, 360] is above -180. *)
Lemma sub_360_above (d : Q) (m : Z) :
  d == inject_Z m * pow2 (-45) -> 180 < d -> d <= 360 ->
  fsub (Finite d) (Finite 360) = Finite (rnd (d - 360))
  /\ -180 < rnd (d - 360) /\ rnd (d - 360) <= 0.
Proof.
  intros Hm H1 H2.
  destruct double_consts as (D0 & D1 & D180 & Dm180 & D360 & Dm360 & D540).
  pose proof (above_180 d m Hm H1) as Hab.
  pose proof (pow2_pos (-45)) as Hp.
  destruct (fsub_between (-180 + pow2 (-45)) 0 d 360 double_above_180 D0)
    as (E & Ha & Hb); try lra.
  split; [exact E|]. split; lra.
Qed.

(** The body of [angle_diff] on a double-precision difference [x]. *)
Lemma angle_diff_core (y : Q) :
  let x := rnd y in
  exists d r,
    float_mod (Finite x) (Finite 360) = Return (Finite d)
    /\ (if fgt (Finite d) (Finite 180) then fsub (Finite d) (Finite 360)
        else Finite d) = Finite r
    /\ -180 < r /\ r <= 180
    /\ (0 <= x -> x <= 180 -> r == x)
    /\ (180 < x -> x < 360 -> r = rnd (x - 360))
    /\ (-360 < x -> x < -180 -> r = rnd (x + 360)).
Proof.
  intro x.
  destruct double_consts as (D0 & D1 & D180 & Dm180 & D360 & Dm360 & D540).
  destruct (float_mod_360 x) as (d & Ed & Hd0 & Hd1 & Hcase).
  destruct (fmod_360 x) as (Hpos & Hneg & Hn).
  assert (H128 : pow2 7 == 128) by reflexivity.
  (* a [d] above 180 lies on the grid of [2^-45] *)
  assert (Hgrid : 180 < d -> exists m : Z, d == inject_Z m * pow2 (-45)).
  { intro Hd.
    destruct Hcase as [[Hx Hdx] | [(Hx & Hm0 & Hd') | (Hx & Hm & Hd')]].
    - destruct (Hpos Hx) as [Hf0 Hf1].
      assert (Hxge : pow2 7 <= rnd y).
      { fold x. rewrite H128.
        assert (Hq : 0 <= inject_Z (Qtrunc (x / 360))).
        { unfold Qtrunc.
          assert (Hq0 : 0 <= x / 360) by (apply Qle_shift_div_l; lra).
          rewrite (proj2 (Qle_bool_iff _ _) Hq0).
          change 0 with (inject_Z 0). rewrite <- Zle_Qle.
          rewrite <- (Qfloor_Z 0). now apply Qfloor_resp_le. }
        set (n := inject_Z (Qtrunc (x / 360))) in *. lra. }
      destruct (rnd_grid y 7 ltac:(lia) Hxge) as [mx Hmx]. fold x in Hmx.
      change (7 - 52)%Z with (-45)%Z in Hmx.
      exists (mx - 360 * 2 ^ 45 * Qtrunc (x / 360))%Z.
      unfold Z.sub. rewrite inject_Z_plus, inject_Z_opp, inject_Z_mult.
      rewrite Hdx, Hn. rewrite Hmx at 1.
      pose proof grid_360 as H360.
      set (G := inject_Z (360 * 2 ^ 45)) in *.
      set (n := inject_Z (Qtrunc (x / 360))) in *.
      set (p := pow2 (-45)) in *. set (M := inject_Z mx) in *.
      rewrite H360 at 1. ring.
    - exfalso. lra.
    - assert (Hge : pow2 7 <= rnd (fmod x 360 + 360)) by (rewrite <- Hd', H128; lra).
      destruct (rnd_grid _ 7 ltac:(lia) Hge) as [m Hm']. exists m.
      rewrite Hd'. exact Hm'. }
  destruct (flt_Finite 180 d) as [[E H] | [E H]].
  - destruct (Hgrid H) as [m Hm].
    destruct (sub_360_above d m Hm H Hd1) as (Es & Hs1 & Hs2).
    exists d, (rnd (d - 360)). split; [exact Ed|].
    split; [unfold fgt; rewrite E; exact Es|].
    split; [exact Hs1|]. split; [lra|].
    destruct Hcase as [[Hx Hdx] | [(Hx & Hm0 & Hd') | (Hx & Hm' & Hd')]].
    + split; [|split].
      * intros _ Hx180. exfalso.
        rewrite (fmod_small x) in Hdx; [lra | lra | lra].
      * intros Hx180 Hx360. apply rnd_comp.
        rewrite Hdx, (fmod_small x); [reflexivity | lra | lra].
      * intros. exfalso. lra.
    + exfalso. lra.
    + split; [intros; exfalso; lra|]. split; [intros; exfalso; lra|].
      intros Hx1 Hx2. exfalso.
      (* then [d] is at most 180 *)
      assert (Hmx : fmod x 360 == x) by (apply fmod_small_neg; lra).
      destruct (fadd_between 0 180 (fmod x 360) 360 D0 D180) as (_ & _ & Hc);
        try lra.
      rewrite <- Hd' in Hc. lra.
  - exists d, d. split; [exact Ed|].
    split; [unfold fgt; rewrite E; reflexivity|].
    split; [lra|]. split; [exact H|].
    destruct Hcase as [[Hx Hdx] | [(Hx & Hm0 & Hd') | (Hx & Hm' & Hd')]].
    + split; [|split].
      * intros _ Hx180. rewrite Hdx. apply fmod_small; lra.
      * intros Hx180 Hx360. exfalso.
        rewrite (fmod_small x) in Hdx; [lra | lra | lra].
      * intros. exfalso. lra.
    + split; [intros; exfalso; lra|]. split; [intros; exfalso; lra|].
      intros Hx1 Hx2. exfalso.
      rewrite (fmod_small_neg x) in Hm0; lra.
    + split; [intros; exfalso; lra|]. split; [intros; exfalso; lra|].
      intros Hx1 Hx2. rewrite Hd'. apply rnd_comp.
      rewrite (fmod_small_neg x); [reflexivity | lra | lra].
Qed.

Lemma angle_diff_range (a b : Q) :
  is_finite (fsub (Finite a) (Finite b)) = true ->
  exists r,
    angle_diff (Finite a) (Finite b) = Return (Finite r)
    /\ -180 < r /\ r <= 180
    /\ (0 <= rnd (a - b) -> rnd (a - b) <= 180 -> r == rnd (a - b))
    /\ (180 < rnd (a - b) -> rnd (a - b) < 360
        -> r = rnd (rnd (a - b) - 360))
    /\ (-360 < rnd (a - b) -> rnd (a - b) < -180
        -> r = rnd (rnd (a - b) + 360))
    /\ fsub (Finite a) (Finite b) = Finite (rnd (a - b)).
Proof.
  intro Hfin. rewrite fsub_Finite in Hfin.
  assert (E : of_Q (a - b) = Finite (rnd (a - b))).
  { destruct (of_Q_cases (a - b)) as [[_ E] | [[_ E] | (_ & _ & E)]];
      rewrite E in Hfin; try discriminate. exact E. }
  destruct (angle_diff_core (a - b)) as (d & r & Ed & Er & H1 & H2 & H3 & H4 & H5).
  exists r. unfold angle_diff. rewrite fsub_Finite, E, Ed. cbn [bind].
  rewrite Er. repeat split; auto.
Qed.

(** C8, as the code has it.  For finite doubles [a] and [b] whose
    difference does not overflow, [angle_diff] returns a double in
    (-180, 180].  With [d] the double-precision difference [a - b]: it
    returns [d] when [0 <= d <= 180], [d - 360] rounded when
    [180 < d < 360] and [d + 360] rounded when [-360 < d < -180], and in
    these cases it is the delta of the interpolator's right-ascension
    step.  (Elsewhere the two need not agree, and the result is
    congruent to [a - b] modulo 360 only up to the rounding of the
    operations.) *)
Theorem angle_diff_shortest
        (a b : Q)
        (Hfin : is_finite (fsub (Finite a) (Finite b)) = true) :
  let d := rnd (a - b) in
  exists r,
    angle_diff (Finite a) (Finite b) = Return (Finite r)
    /\ -180 < r /\ r <= 180
    /\ (0 <= d -> d <= 180 -> r == d)
    /\ (180 < d -> d < 360 -> r = rnd (d - 360))
    /\ (-360 < d -> d < -180 -> r = rnd (d + 360))
    /\ ((0 <= d /\ d < 360) \/ (-360 < d /\ d < -180) ->
        exists r', wrap_delta (fsub (Finite a) (Finite b)) = Finite r'
                   /\ r' == r).
Proof.
  intro d.
  destruct (angle_diff_range a b Hfin) as (r & Er & H1 & H2 & H3 & H4 & H5 & Es).
  fold d in H3, H4, H5, Es.
  exists r. split; [exact Er|]. split; [exact H1|]. split; [exact H2|].
  split; [exact H3|]. split; [exact H4|]. split; [exact H5|].
  intro Hd. rewrite Es.
  destruct (wrap_delta_range d) as (r' & Ew & _ & _ & Hc); [lra | lra |].
  exists r'. split; [exact Ew|].
  destruct Hc as [[Hlt ->] | [[Hgt ->] | (Hge & Hle & ->)]].
  - rewrite H5; [reflexivity | |]; lra.
  - rewrite H4; [reflexivity | |]; lra.
  - symmetry. apply H3; lra.
Qed.

(** C5, as the code has it.  For endpoints in [0, 360) and a fraction
    in [0, 1], every operation being rounded to the nearest double: the
    delta is the difference [v_high - v_low] brought into [-180, 180] by
    adding 360 once when it is below -180 and subtracting 360 once when
    it is above 180; the value returned is [v_low + delta * frac],
    brought into [0, 360) by adding 360 once when it is negative and
    subtracting 360 once when it has reached 360.  Endpoints 359 and 1
    at one half give 0, and so do 350 and 370. *)
Theorem circular_step
        (v_low v_high frac : Q)
        (Hlow : 0 <= v_low /\ v_low < 360)
        (Hhigh : 0 <= v_high /\ v_high < 360)
        (Hfrac : 0 <= frac /\ frac <= 1) :
  let d := rnd (v_high - v_low) in
  exists delta r,
    wrap_delta (fsub (Finite v_high) (Finite v_low)) = Finite delta
    /\ (-180 <= delta /\ delta <= 180)
    /\ ((d < -180 /\ delta = rnd (d + 360))
        \/ (180 < d /\ delta = rnd (d - 360))
        \/ (-180 <= d /\ d <= 180 /\ delta = d))
    /\ interp_ra (Finite v_low) (Finite v_high) (Finite frac)
       = wrap_ra (fadd (Finite v_low) (fmul (Finite delta) (Finite frac)))
    /\ interp_ra (Finite v_low) (Finite v_high) (Finite frac) = Finite r
    /\ (0 <= r /\ r < 360)
    /\ interp_ra (Finite 359) (Finite 1) (Finite (1 # 2)) = Finite 0
    /\ interp_ra (Finite 350) (Finite 370) (Finite (1 # 2)) = Finite 0.
Proof.
  destruct Hlow as [Hl0 Hl1]. destruct Hhigh as [Hh0 Hh1].
  destruct Hfrac as [Hf0 Hf1]. intro d.
  destruct (interp_ra_range v_low v_high frac Hl0 Hl1 Hh0 Hh1 Hf0 Hf1)
    as (delta & r & Ew & Hd1 & Hd2 & Hc & Er & Hr1 & Hr2).
  exists delta, r. split; [exact Ew|]. split; [split; assumption|].
  split; [exact Hc|]. split; [unfold interp_ra; now rewrite Ew|].
  split; [exact Er|]. split; [split; assumption|].
  split; vm_compute; reflexivity.
Qed.

End AngleFacts.

(** ** Exact hits *)

Module InterpolateFacts.
Import Py PyFloat Verify Compare VerifyFacts PyFloatFacts AngleFacts.
Local Open Scope Q_scope.

Lemma exact_low_next (n i : nat) :
  (2 <= n)%nat -> (i < n)%nat ->
  (S (exact_low n i) < n)%nat /\ (i = exact_low n i \/ i = S (exact_low n i)).
Proof.
  intros Hn Hi. unfold exact_low.
  destruct (i + 1 <? n)%nat eqn:E.
  - apply Nat.ltb_lt in E. lia.
  - apply Nat.ltb_ge in E. lia.
Qed.

(** The difference of two doubles in ascending order is positive: a
    double above zero, or the positive infinity when it overflows. *)
Lemma fsub_ascending (t1 t2 : Q) :
  is_double t1 = true -> is_double t2 = true -> t1 < t2 ->
  fsub (Finite t2) (Finite t1) = PInf
  \/ (fsub (Finite t2) (Finite t1) = Finite (rnd (t2 - t1))
      /\ 0 < rnd (t2 - t1)).
Proof.
  intros H1 H2 Hlt. pose proof (double_gap t1 t2 H1 H2 Hlt) as Hgap.
  pose proof (pow2_pos (-1074)) as Hp. pose proof (pow2_pos 1024) as Hq.
  rewrite fsub_Finite.
  destruct (of_Q_cases (t2 - t1)) as [[_ E] | [[H _] | (_ & _ & E)]].
  - left. exact E.
  - exfalso. lra.
  - right. split; [exact E | lra].
Qed.

(** On the lower row of the interval the fraction is exactly zero. *)
Lemma frac_at_low (t1 t2 : Q) :
  is_double t1 = true -> is_double t2 = true -> t1 < t2 ->
  fdiv (fsub (Finite t1) (Finite t1)) (fsub (Finite t2) (Finite t1))
  = Return (Finite 0).
Proof.
  intros H1 H2 Hlt.
  assert (E0 : fsub (Finite t1) (Finite t1) = Finite 0).
  { rewrite fsub_Finite. apply of_Q_zero. ring. }
  rewrite E0.
  destruct (fsub_ascending t1 t2 H1 H2 Hlt) as [E | [E Hpos]]; rewrite E.
  - reflexivity.
  - rewrite fdiv_Finite by lra.
    rewrite (of_Q_zero (0 / rnd (t2 - t1))); [reflexivity|].
    field; lra.
Qed.

(** On the upper row it is exactly one, unless the difference of the
    two Julian Dates overflows. *)
Lemma frac_at_high (t1 t2 : Q) :
  is_double t1 = true -> is_double t2 = true -> t1 < t2 ->
  (is_finite (fsub (Finite t2) (Finite t1)) = true ->
   fdiv (fsub (Finite t2) (Finite t1)) (fsub (Finite t2) (Finite t1))
   = Return (Finite 1))
  /\ exists frac,
       fdiv (fsub (Finite t2) (Finite t1)) (fsub (Finite t2) (Finite t1))
       = Return frac.
Proof.
  intros H1 H2 Hlt.
  destruct (fsub_ascending t1 t2 H1 H2 Hlt) as [E | [E Hpos]]; rewrite E.
  - split; [discriminate | eexists; reflexivity].
  - assert (Ed : fdiv (Finite (rnd (t2 - t1))) (Finite (rnd (t2 - t1)))
                 = Return (Finite 1)).
    { rewrite fdiv_Finite by lra.
      rewrite (of_Q_one (rnd (t2 - t1) / rnd (t2 - t1))); [reflexivity|].
      field; lra. }
    split; [intros _; exact Ed | eexists; exact Ed].
Qed.

Lemma finite_inv (a : pyfloat) :
  is_finite a = true -> exists x, a = Finite x.
Proof. destruct a; try discriminate. eauto. Qed.

Lemma fsub_finite_inv (x y : Q) :
  is_finite (fsub (Finite x) (Finite y)) = true ->
  fsub (Finite x) (Finite y) = Finite (rnd (x - y))
  /\ - pow2 1024 < rnd (x - y) /\ rnd (x - y) < pow2 1024.
Proof.
  rewrite fsub_Finite. intro H.
  destruct (of_Q_cases (x - y)) as [[_ E] | [[_ E] | (H1 & H2 & E)]];
    rewrite E in H; try discriminate.
  repeat split; assumption.
Qed.

(** With a fraction of zero the linear step returns the lower value. *)
Lemma lerp_at_0 (v1 v2 : Q) :
  is_double v1 = true ->
  is_finite (fsub (Finite v2) (Finite v1)) = true ->
  exists r, lerp (Finite v1) (Finite v2) (Finite 0) = Finite r /\ r == v1.
Proof.
  intros Hv Hfin. destruct (fsub_finite_inv v2 v1 Hfin) as (E & _).
  unfold lerp. rewrite E, fmul_Finite.
  rewrite (of_Q_zero (rnd (v2 - v1) * 0)) by ring.
  rewrite fadd_Finite. apply of_Q_double; [exact Hv | ring].
Qed.

(** With a fraction of one it returns [v1 + (v2 - v1)], both operations
    rounded. *)
Lemma lerp_at_1 (v1 v2 : Q) :
  is_finite (fsub (Finite v2) (Finite v1)) = true ->
  lerp (Finite v1) (Finite v2) (Finite 1) = of_Q (v1 + rnd (v2 - v1)).
Proof.
  intro Hfin. destruct (fsub_finite_inv v2 v1 Hfin) as (E & Hlo & Hhi).
  unfold lerp. rewrite E, fmul_Finite.
  assert (Em : of_Q (rnd (v2 - v1) * 1) = Finite (rnd (rnd (v2 - v1)))).
  { rewrite (of_Q_comp (rnd (v2 - v1) * 1) (rnd (v2 - v1))) by ring.
    pose proof (rnd_idem (v2 - v1)) as Hi.
    destruct (of_Q_cases (rnd (v2 - v1))) as [[H _] | [[H _] | (_ & _ & E')]];
      [lra | lra | exact E']. }
  rewrite Em, fadd_Finite. apply of_Q_comp.
  rewrite (rnd_idem (v2 - v1)). reflexivity.
Qed.

(** With a fraction of zero the right-ascension step returns the lower
    value when that lies in [[0, 360)]. *)
Lemma interp_ra_at_0 (ra1 ra2 : Q) :
  is_double ra1 = true ->
  0 <= ra1 -> ra1 < 360 -> 0 <= ra2 -> ra2 < 360 ->
  exists r, interp_ra (Finite ra1) (Finite ra2) (Finite 0) = Finite r
            /\ r == ra1.
Proof.
  intros Hd H0 H1 H2 H3.
  destruct double_consts as (D0 & D1 & D180 & Dm180 & D360 & Dm360 & D540).
  unfold interp_ra.
  destruct (fsub_between (-360) 360 ra2 ra1 Dm360 D360) as (Ed & Hd1 & Hd2);
    try lra.
  rewrite Ed.
  destruct (wrap_delta_range _ Hd1 Hd2) as (delta & Ew & _).
  rewrite Ew, fmul_Finite.
  rewrite (of_Q_zero (delta * 0)) by ring.
  rewrite fadd_Finite.
  destruct (of_Q_double (ra1 + 0) ra1 Hd) as (r & Er & Hr); [ring|].
  rewrite Er. unfold wrap_ra. cbv zeta.
  destruct (flt_Finite r 0) as [[E H] | [E H]]; rewrite E; [exfalso; lra|].
  unfold fge.
  destruct (fle_Finite 360 r) as [[E' H'] | [E' H']]; rewrite E'; [exfalso; lra|].
  exists r. split; [reflexivity | exact Hr].
Qed.

Lemma Forall_nth_error {A : Type} (P : A -> Prop) (l : list A) (i : nat) (a : A) :
  Forall P l -> nth_error l i = Some a -> P a.
Proof.
  intros HF Hi. rewrite Forall_forall in HF. apply HF.
  eapply nth_error_In. exact Hi.
Qed.

(** C2, as the code has it.  In a strictly ascending table of at least
    two rows of doubles, a target equal to the Julian Date of row [i] is
    bracketed by two adjacent rows, never by [low = high]: [(i, i+1)], or
    [(last-1, last)] when [i] is the last row.  The interpolator divides
    by [t_high - t_low], which is not zero, and runs its arithmetic.
    When [i] is not the last row the fraction is 0.0 and the result is
    row [i]'s declination and distance (where the difference of the two
    rows' values does not overflow) and its right ascension (where the
    right ascensions of both rows lie in [0, 360)).  When [i] is the
    last row the fraction is 1.0 and the result is the rounded sum of
    the lower value and the rounded difference, which need not be the
    stored value. *)
Theorem interpolate_exact_match
        (times : list Q) (rows : list (list Q)) (col_offset i : nat) (t_i : Q)
        (row1 row2 : list Q) (ra1 ra2 dec1 dec2 dist1 dist2 : Q)
        (Hasc : ascending times = true)
        (Hdbl : Forall (fun t => is_double t = true) times)
        (Hlen : (2 <= length times)%nat)
        (Hi : nth_error times i = Some t_i)
        (Hrow1 : nth_error rows (exact_low (length times) i) = Some row1)
        (Hrow2 : nth_error rows (S (exact_low (length times) i)) = Some row2)
        (Hra1 : nth_error row1 col_offset = Some ra1)
        (Hra2 : nth_error row2 col_offset = Some ra2)
        (Hdec1 : nth_error row1 (col_offset + 1) = Some dec1)
        (Hdec2 : nth_error row2 (col_offset + 1) = Some dec2)
        (Hdist1 : nth_error row1 (col_offset + 2) = Some dist1)
        (Hdist2 : nth_error row2 (col_offset + 2) = Some dist2) :
  let low := exact_low (length times) i in
  bracket t_i times = Return (Some (low, S low))
  /\ exists t1 t2 frac,
       nth_error times low = Some t1
       /\ nth_error times (S low) = Some t2
       /\ t1 < t2
       /\ fdiv (fsub (Finite t_i) (Finite t1)) (fsub (Finite t2) (Finite t1))
          = Return frac
       /\ interpolate t_i times rows col_offset
          = Return (Some (interp_ra (Finite ra1) (Finite ra2) frac,
                          lerp (Finite dec1) (Finite dec2) frac,
                          lerp (Finite dist1) (Finite dist2) frac))
       /\ ((i = low /\ frac = Finite 0
            /\ (is_double dec1 = true ->
                is_finite (fsub (Finite dec2) (Finite dec1)) = true ->
                exists r, lerp (Finite dec1) (Finite dec2) frac = Finite r
                          /\ r == dec1)
            /\ (is_double dist1 = true ->
                is_finite (fsub (Finite dist2) (Finite dist1)) = true ->
                exists r, lerp (Finite dist1) (Finite dist2) frac = Finite r
                          /\ r == dist1)
            /\ (is_double ra1 = true ->
                0 <= ra1 /\ ra1 < 360 -> 0 <= ra2 /\ ra2 < 360 ->
                exists r, interp_ra (Finite ra1) (Finite ra2) frac = Finite r
                          /\ r == ra1))
           \/ (i = S low
               /\ (is_finite (fsub (Finite t2) (Finite t1)) = true ->
                   frac = Finite 1
                   /\ (is_finite (fsub (Finite dec2) (Finite dec1)) = true ->
                       lerp (Finite dec1) (Finite dec2) frac
                       = of_Q (dec1 + rnd (dec2 - dec1)))
                   /\ (is_finite (fsub (Finite dist2) (Finite dist1)) = true ->
                       lerp (Finite dist1) (Finite dist2) frac
                       = of_Q (dist1 + rnd (dist2 - dist1)))))).
Proof.
  intro low.
  assert (Hilt : (i < length times)%nat)
    by (apply nth_error_Some; rewrite Hi; discriminate).
  destruct (exact_low_next (length times) i Hlen Hilt) as [Hnext Hwhich].
  fold low in Hnext, Hwhich, Hrow1, Hrow2.
  pose proof (bracket_exact times i t_i Hasc Hlen Hi) as Hb. fold low in Hb.
  split; [exact Hb|].
  destruct (index_lt times low ltac:(lia)) as (t1 & Ht1 & _).
  destruct (index_lt times (S low) Hnext) as (t2 & Ht2 & _).
  assert (Hlt : t1 < t2)
    by (apply (ascending_lt times Hasc low (S low)); auto).
  pose proof (Forall_nth_error _ _ _ _ Hdbl Ht1) as Hd1. cbv beta in Hd1.
  pose proof (Forall_nth_error _ _ _ _ Hdbl Ht2) as Hd2. cbv beta in Hd2.
  assert (Hfrac : exists frac,
             fdiv (fsub (Finite t_i) (Finite t1)) (fsub (Finite t2) (Finite t1))
             = Return frac
             /\ (i = low -> frac = Finite 0)
             /\ (i = S low ->
                 is_finite (fsub (Finite t2) (Finite t1)) = true ->
                 frac = Finite 1)).
  { destruct Hwhich as [Heq | Heq].
    - assert (t_i = t1) by congruence. subst t_i.
      exists (Finite 0). split; [now apply frac_at_low|].
      split; [reflexivity | intro; exfalso; lia].
    - assert (t_i = t2) by congruence. subst t_i.
      destruct (frac_at_high t1 t2 Hd1 Hd2 Hlt) as (Hone & frac & Hf).
      exists frac. split; [exact Hf|].
      split; [intro; exfalso; lia|].
      intros _ Hfin. specialize (Hone Hfin). congruence. }
  destruct Hfrac as (frac & Hf & Hf0 & Hf1).
  exists t1, t2, frac.
  split; [exact Ht1|]. split; [exact Ht2|]. split; [exact Hlt|].
  split; [exact Hf|]. split.
  - unfold interpolate. rewrite Hb. cbn [bind].
    rewrite (index_Some _ _ _ Ht1), (index_Some _ _ _ Ht2). cbn [bind].
    rewrite Hf. cbn [bind].
    rewrite (index_Some _ _ _ Hrow1), (index_Some _ _ _ Hrow2). cbn [bind].
    rewrite (index_Some _ _ _ Hra1), (index_Some _ _ _ Hra2). cbn [bind].
    rewrite (index_Some _ _ _ Hdec1), (index_Some _ _ _ Hdec2). cbn [bind].
    rewrite (index_Some _ _ _ Hdist1), (index_Some _ _ _ Hdist2). cbn [bind].
    reflexivity.
  - destruct Hwhich as [Heq | Heq].
    + left. rewrite (Hf0 Heq). split; [exact Heq|]. split; [reflexivity|].
      split; [intros; now apply lerp_at_0|].
      split; [intros; now apply lerp_at_0|].
      intros Hd [Ha0 Ha1] [Hb0 Hb1]. now apply interp_ra_at_0.
    + right. split; [exact Heq|]. intro Hfin.
      rewrite (Hf1 Heq Hfin). split; [reflexivity|].
      split; intro; now apply lerp_at_1.
Qed.

End InterpolateFacts.

(** ** The tolerant loader *)

Module LoaderFacts.
Import Py Verify VerifyFacts.
Local Open Scope Q_scope.

Section WithFloat.

Variable float : string -> option Q.

Lemma floats_length (row : list string) (vals : list Q) :
  floats float row = Some vals -> length vals = length row.
Proof.
  revert vals. induction row as [|x row IH]; intros vals H; cbn [floats] in H.
  - now injection H as <-.
  - destruct (float x) as [v|]; [|discriminate].
    destruct (floats float row) as [vs|]; [|discriminate].
    injection H as <-. cbn [length]. f_equal. now apply IH.
Qed.

Lemma floats_None (row : list string) :
  floats float row = None <-> exists x, In x row /\ float x = None.
Proof.
  induction row as [|x row IH]; cbn [floats].
  - split; [discriminate | intros (x & [] & _)].
  - destruct (float x) as [v|] eqn:Ex.
    + destruct (floats float row) as [vs|].
      * split; [discriminate|]. intros (y & [<- | Hy] & Hn); [congruence|].
        destruct IH as [_ IH]. discriminate IH. now exists y.
      * split; [|reflexivity]. intros _. destruct IH as [IH _].
        destruct (IH eq_refl) as (y & Hy & Hn). exists y. split; [now right | exact Hn].
    + split; [|reflexivity]. intros _. exists x. split; [now left | exact Ex].
Qed.

Lemma load_rows_kept (reader : list (list string))
      (times : list Q) (data_rows : list (list Q)) :
  load_rows float reader times data_rows
  = Return (times ++ map first_col (kept_rows float reader),
            data_rows ++ kept_rows float reader).
Proof.
  revert times data_rows.
  induction reader as [|row reader IH]; intros times data_rows.
  - cbn. now rewrite !app_nil_r.
  - cbn [load_rows kept_rows flat_map]. fold (kept_rows float reader).
    destruct row as [|x row]; [apply IH|].
    unfold kept_row.
    destruct (floats float (x :: row)) as [vals|] eqn:E; [|apply IH].
    destruct vals as [|v vs].
    + apply floats_length in E. discriminate.
    + cbn [index nth_error bind]. rewrite IH.
      cbn [app map first_col nth]. now rewrite <- !app_assoc.
Qed.

(** C6, as the code has it.  The load never aborts on a data line: the
    result is the non-empty lines all of whose fields parse as floats, in
    order, each with as many values as the line has fields.  A line with
    a field that does not parse is skipped silently and the other rows
    stay unchanged and in order; a line of fewer (or more) than W fields
    that all parse is kept as a short (or long) row, since the loader
    compares no width. *)
Theorem load_file_tolerant (header : list string) (reader : list (list string)) :
  load_file float (Some (header :: reader))
  = Return (Some (map first_col (kept_rows float reader)),
            Some (kept_rows float reader))
  /\ (forall before line after,
        floats float line = None ->
        kept_rows float (before ++ line :: after)
        = kept_rows float before ++ kept_rows float after)
  /\ (forall before line after vals,
        line <> [] -> floats float line = Some vals ->
        kept_rows float (before ++ line :: after)
        = kept_rows float before ++ vals :: kept_rows float after
          /\ length vals = length line)
  /\ (forall line, floats float line = None <->
                   exists x, In x line /\ float x = None).
Proof.
  split; [|split; [|split]].
  - cbn [load_file]. rewrite load_rows_kept. reflexivity.
  - intros before line after Hbad. unfold kept_rows.
    rewrite flat_map_app. cbn [flat_map]. unfold kept_row at 2.
    rewrite Hbad. destruct line; reflexivity.
  - intros before line after vals Hne Hok. split.
    + unfold kept_rows. rewrite flat_map_app. cbn [flat_map].
      unfold kept_row at 2. rewrite Hok.
      destruct line; [contradiction | reflexivity].
    + now apply floats_length.
  - apply floats_None.
Qed.

End WithFloat.

End LoaderFacts.

(** ** The generator *)

Module DictFacts.
Import Dict.

Lemma set_Forall {V : Type} (P : string * V -> Prop) (d : dict V)
      (k : string) (v : V) :
  Forall P d -> P (k, v) -> Forall P (set d k v).
Proof.
  intros Hd Hkv. induction Hd as [|[k' v'] d Hx Hd IH]; cbn [set].
  - constructor; [exact Hkv | constructor].
  - destruct (String.eqb k' k); constructor; auto.
Qed.

Lemma get_In {V : Type} (d : dict V) (k : string) (v : V) :
  get d k = Some v -> In (k, v) d.
Proof.
  induction d as [|[k' v'] d IH]; cbn [get]; [discriminate|].
  destruct (String.eqb k' k) eqn:E.
  - apply String.eqb_eq in E. subst k'. intro H. injection H as <-. now left.
  - intro H. right. now apply IH.
Qed.

Lemma In_get {V : Type} (d : dict V) (k : string) :
  In k (keys d) -> exists v, get d k = Some v.
Proof.
  unfold keys. induction d as [|[k' v'] d IH]; cbn [map get]; [intros []|].
  destruct (String.eqb k' k) eqn:E; [intros _; now exists v'|].
  intros [H|H]; [|now apply IH].
  cbn in H. subst k'. rewrite String.eqb_refl in E. discriminate.
Qed.

Lemma mem_keys {V : Type} (d : dict V) (k : string) :
  mem d k = true <-> In k (keys d).
Proof.
  unfold mem. split.
  - destruct (get d k) as [v|] eqn:E; [|discriminate]. intros _.
    apply get_In in E. unfold keys.
    change k with (fst (k, v)). now apply in_map.
  - intros H. destruct (In_get d k H) as [v ->]. reflexivity.
Qed.

End DictFacts.

Module SortFacts.
Import Verify VerifyFacts Generate.
Local Open Scope Q_scope.

Lemma insert_by_key_In (x y : Q * string) (l : list (Q * string)) :
  In y (insert_by_key x l) <-> y = x \/ In y l.
Proof.
  induction l as [|z l IH]; cbn [insert_by_key].
  - cbn. intuition.
  - destruct (Qltb (fst z) (fst x)); cbn [In]; [rewrite IH|]; intuition.
Qed.

Lemma sort_by_key_In (y : Q * string) (l : list (Q * string)) :
  In y (sort_by_key l) <-> In y l.
Proof.
  induction l as [|x l IH]; cbn [sort_by_key fold_right]; [reflexivity|].
  fold (sort_by_key l). rewrite insert_by_key_In, IH. cbn [In]. intuition.
Qed.

Lemma insert_by_key_sorted (x : Q * string) (l : list (Q * string)) :
  StronglySorted key_le l -> StronglySorted key_le (insert_by_key x l).
Proof.
  induction 1 as [|z l Hl IH Hz]; cbn [insert_by_key].
  - constructor; constructor.
  - destruct (Qltb (fst z) (fst x)) eqn:E; qbool.
    + constructor; [exact IH|].
      apply Forall_forall. intros y Hy. apply insert_by_key_In in Hy.
      destruct Hy as [-> | Hy].
      * apply Qlt_le_weak, E.
      * rewrite Forall_forall in Hz. now apply Hz.
    + constructor; [constructor; assumption|].
      constructor; [exact E|].
      apply Forall_forall. intros y Hy. rewrite Forall_forall in Hz.
      unfold key_le. apply Qle_trans with (fst z); [exact E|]. now apply Hz.
Qed.

Lemma sort_by_key_sorted (l : list (Q * string)) :
  StronglySorted key_le (sort_by_key l).
Proof.
  induction l as [|x l IH]; cbn [sort_by_key fold_right]; [constructor|].
  now apply insert_by_key_sorted.
Qed.

End SortFacts.

Module GenerateFacts.
Import Py Str Verify VerifyFacts Generate DictFacts SortFacts.
Local Open Scope Q_scope.

Section WithBuiltins.

Variable float : string -> option Q.
Variable fmt : nat -> Q -> string.
Variable horizons : string -> option (list string).

Lemma parse_row_ok (body_name row jd : string) (fields : list string) :
  parse_row float fmt body_name row = Some (jd, fields) ->
  record_ok float fmt body_name (jd, fields).
Proof.
  unfold parse_row. cbv zeta.
  destruct (float (strip (part (split_on "," row) 0))) as [q|] eqn:Ejd;
    [|discriminate].
  destruct (String.eqb body_name "Sun") eqn:Esun.
  - destruct (length (split_on "," row) <? 6)%nat; [discriminate|].
    destruct (float (strip (part (split_on "," row) 5))); [|discriminate].
    intro H. injection H as <- <-. unfold record_ok. cbn [fst snd].
    split; [congruence|]. split; [reflexivity|].
    intros _. unfold sun_record. eauto.
  - apply String.eqb_neq in Esun.
    destruct (length (split_on "," row) <? 10)%nat; [discriminate|].
    destruct (float (strip (part (split_on "," row) 5))); [|discriminate].
    destruct (float (strip (part (split_on "," row) 6))); [|discriminate].
    destruct (float (strip (part (split_on "," row) 7))); [|discriminate].
    destruct (float (strip (part (split_on "," row) 9))); [|discriminate].
    intro H. injection H as <- <-. unfold record_ok. cbn [fst snd].
    split; [congruence|]. split; [reflexivity|]. intro. contradiction.
Qed.

Lemma parse_rows_ok (body_name : string) (data_lines : list string)
      (parsed_data : Dict.dict (list string)) :
  Forall (record_ok float fmt body_name) parsed_data ->
  Forall (record_ok float fmt body_name)
         (parse_rows float fmt body_name data_lines parsed_data).
Proof.
  revert parsed_data.
  induction data_lines as [|row rest IH]; intros parsed_data Hacc;
    cbn [parse_rows]; [exact Hacc|].
  destruct (parse_row float fmt body_name row) as [[jd fields]|] eqn:E.
  - apply IH, set_Forall; [exact Hacc|]. now apply parse_row_ok with row.
  - now apply IH.
Qed.

Lemma fetch_body_data_ok (body_id body_name : string) :
  Forall (record_ok float fmt body_name)
         (fetch_body_data float fmt horizons body_id body_name).
Proof.
  unfold fetch_body_data. destruct (horizons body_id); [|constructor].
  apply parse_rows_ok. constructor.
Qed.

Lemma fetch_all_inr (bodies : list (string * string))
      (acc all_data : list (Dict.dict (list string))) :
  fetch_all float fmt horizons bodies acc = inr all_data ->
  all_data = acc ++ map (fetched float fmt horizons) bodies.
Proof.
  revert acc. induction bodies as [|[bid name] bodies IH]; intro acc;
    cbn [fetch_all map].
  - intro H. injection H as <-. now rewrite app_nil_r.
  - destruct (Dict.is_empty (fetch_body_data float fmt horizons bid name));
      [discriminate|].
    intro H. apply IH in H. rewrite H, <- app_assoc. reflexivity.
Qed.

Lemma keyed_total (ks : list string) :
  Forall (fun k => float k <> None) ks ->
  exists l, keyed float ks = Some l
            /\ map snd l = ks
            /\ Forall (fun qk => float (snd qk) = Some (fst qk)) l.
Proof.
  induction 1 as [|k ks Hk _ (l & Hl & Hsnd & Hall)]; cbn [keyed].
  - exists []. repeat split; constructor.
  - destruct (float k) as [q|] eqn:E; [|contradiction]. rewrite Hl.
    exists ((q, k) :: l). cbn [map snd]. rewrite Hsnd.
    repeat split. constructor; [exact E | exact Hall].
Qed.

(** The inner loop: it succeeds exactly when every body has the
    timestamp, and then appends every body's six fields in order. *)
Lemma extend_row_Some (jd : string) (all_data : list (Dict.dict (list string)))
      (row r : list string) :
  extend_row jd all_data row = Some r ->
  exists fieldss,
    Forall2 (fun bd fields => Dict.get bd jd = Some fields) all_data fieldss
    /\ r = row ++ concat fieldss.
Proof.
  revert row. induction all_data as [|bd rest IH]; intro row; cbn [extend_row].
  - intro H. injection H as <-. exists []. split; [constructor|].
    now rewrite app_nil_r.
  - destruct (Dict.get bd jd) as [fields|] eqn:E; [|discriminate].
    intro H. destruct (IH _ H) as (fieldss & Hall & ->).
    exists (fields :: fieldss). split; [now constructor|].
    cbn [concat]. now rewrite app_assoc.
Qed.

Lemma extend_row_all (jd : string) (all_data : list (Dict.dict (list string)))
      (row : list string) :
  Forall (fun bd => Dict.mem bd jd = true) all_data ->
  exists r, extend_row jd all_data row = Some r.
Proof.
  intro Hall. revert row.
  induction Hall as [|bd rest Hbd _ IH]; intro row; cbn [extend_row].
  - now exists row.
  - unfold Dict.mem in Hbd. destruct (Dict.get bd jd); [|discriminate].
    apply IH.
Qed.

Lemma extend_row_mem (jd : string) (all_data : list (Dict.dict (list string)))
      (row r : list string) :
  extend_row jd all_data row = Some r ->
  Forall (fun bd => Dict.mem bd jd = true) all_data.
Proof.
  intro H. destruct (extend_row_Some _ _ _ _ H) as (fieldss & Hall & _).
  clear H. induction Hall as [|bd fields rest fieldss Hget _ IH].
  - constructor.
  - constructor; [|exact IH]. unfold Dict.mem. now rewrite Hget.
Qed.

Lemma write_rows_In (master_jds : list string)
      (all_data : list (Dict.dict (list string))) (row : list string) :
  In row (write_rows master_jds all_data) <->
  exists jd, In jd master_jds /\ extend_row jd all_data [jd] = Some row.
Proof.
  induction master_jds as [|jd rest IH]; cbn [write_rows].
  - split; [intros [] | intros (jd & [] & _)].
  - destruct (extend_row jd all_data [jd]) as [r|] eqn:E; cbn [In];
      rewrite ?IH; split.
    + intros [<- | (jd' & Hin & Hrow)]; [exists jd | exists jd']; auto.
    + intros (jd' & [<- | Hin] & Hrow); [left; congruence | right; eauto].
    + intros (jd' & Hin & Hrow). eauto.
    + intros (jd' & [<- | Hin] & Hrow); [congruence | eauto].
Qed.

(** Rows come out in the order of [master_jds]; over keyed, sorted
    timestamps their Julian Dates ascend. *)
Lemma write_rows_sorted (l : list (Q * string))
      (all_data : list (Dict.dict (list string))) :
  Forall (fun qk => float (snd qk) = Some (fst qk)) l ->
  StronglySorted key_le l ->
  exists qs,
    map (jd_of_row float) (write_rows (map snd l) all_data) = map Some qs
    /\ StronglySorted Qle qs
    /\ (forall q, In q qs -> In q (map fst l)).
Proof.
  intros Hkeys Hsorted.
  induction Hsorted as [|[q k] l Hl IH Hhead].
  - exists []. repeat split; [constructor | intros q []].
  - inversion Hkeys as [|? ? Hk Hrest]; subst. cbn [fst snd] in Hk.
    destruct (IH Hrest) as (qs & Hmap & Hqs & Hsub).
    cbn [map snd write_rows].
    destruct (extend_row k all_data [k]) as [row|] eqn:E.
    + exists (q :: qs). destruct (extend_row_Some _ _ _ _ E) as (fieldss & _ & ->).
      cbn [map app jd_of_row]. rewrite Hk, Hmap. split; [reflexivity|]. split.
      * constructor; [exact Hqs|]. apply Forall_forall. intros q' Hq'.
        apply Hsub, in_map_iff in Hq'. destruct Hq' as ([q'' k'] & <- & Hin).
        rewrite Forall_forall in Hhead. exact (Hhead _ Hin).
      * intros q' [<- | Hq']; [now left | right; now apply Hsub].
    + exists qs. split; [exact Hmap|]. split; [exact Hqs|].
      intros q' Hq'. right. now apply Hsub.
Qed.

Lemma keyed_Some (ks : list string) (l : list (Q * string)) :
  keyed float ks = Some l ->
  map snd l = ks /\ Forall (fun qk => float (snd qk) = Some (fst qk)) l.
Proof.
  revert l. induction ks as [|k ks IH]; intro l; cbn [keyed].
  - intro H. injection H as <-. split; constructor.
  - destruct (float k) as [q|] eqn:E; [|discriminate].
    destruct (keyed float ks) as [l'|]; [|discriminate].
    intro H. injection H as <-. destruct (IH l' eq_refl) as [Hsnd Hall].
    cbn [map snd]. rewrite Hsnd. split; [reflexivity|].
    constructor; [exact E | exact Hall].
Qed.

Lemma keys_parse (body_id body_name : string) :
  Forall (fun k => float k <> None)
         (Dict.keys (fetch_body_data float fmt horizons body_id body_name)).
Proof.
  unfold Dict.keys. apply Forall_map.
  eapply Forall_impl; [|apply fetch_body_data_ok].
  intros kv (H & _). exact H.
Qed.

(** A run that writes the CSV writes the header and then one row per
    master timestamp that every body has. *)
Lemma main_wrote (csv : list (list string)) :
  main float fmt horizons = Wrote csv ->
  exists l,
    keyed float (Dict.keys (fetched float fmt horizons ("10", "Sun")%string)) = Some l
    /\ csv = header_of BODIES
             :: write_rows (map snd (sort_by_key l)) (all_fetched float fmt horizons).
Proof.
  unfold main, main_for.
  destruct (fetch_all float fmt horizons BODIES []) as [name|all_data] eqn:E;
    [discriminate|].
  apply fetch_all_inr in E. cbn [app] in E. subst all_data.
  fold (all_fetched float fmt horizons). unfold merge.
  change (all_fetched float fmt horizons) with (fetched float fmt horizons ("10", "Sun")%string :: tl (all_fetched float fmt horizons)) at 1.
  cbv iota. unfold sorted_by_float.
  destruct (keyed float (Dict.keys (fetched float fmt horizons ("10", "Sun")%string))) as [l|] eqn:Ek;
    [|discriminate].
  intro H. injection H as <-. exists l. split; reflexivity.
Qed.

(** [main] ends by giving up on a body or by writing the file: the sort
    key [float] cannot fail on keys that the parser stored. *)
Lemma main_total :
  (exists name, main float fmt horizons = Failed name)
  \/ (exists csv, main float fmt horizons = Wrote csv).
Proof.
  unfold main, main_for.
  destruct (fetch_all float fmt horizons BODIES []) as [name|all_data] eqn:E.
  - left. now exists name.
  - right. apply fetch_all_inr in E. cbn [app] in E. subst all_data.
    fold (all_fetched float fmt horizons). unfold merge.
    change (all_fetched float fmt horizons) with (fetched float fmt horizons ("10", "Sun")%string :: tl (all_fetched float fmt horizons)) at 1.
    cbv iota. unfold sorted_by_float.
    destruct (keyed_total (Dict.keys (fetched float fmt horizons ("10", "Sun")%string)))
      as (l & -> & _); [apply keys_parse|].
    eauto.
Qed.

Lemma fetched_records (bd : Dict.dict (list string)) (jd : string)
      (fields : list string) :
  In bd (all_fetched float fmt horizons) -> Dict.get bd jd = Some fields -> length fields = 6%nat.
Proof.
  intros Hbd Hget. unfold all_fetched in Hbd. apply in_map_iff in Hbd.
  destruct Hbd as ([bid name] & <- & _).
  pose proof (fetch_body_data_ok bid name) as Hok.
  rewrite Forall_forall in Hok.
  destruct (Hok _ (get_In _ _ _ Hget)) as (_ & Hlen & _). exact Hlen.
Qed.

Lemma length_concat_six (fieldss : list (list string)) :
  Forall (fun fields => length fields = 6%nat) fieldss ->
  length (concat fieldss) = (6 * length fieldss)%nat.
Proof.
  induction 1 as [|f fs Hf _ IH]; [reflexivity|].
  cbn [concat length]. rewrite length_app, Hf, IH. lia.
Qed.

Lemma fields_six (jd : string) (ds : list (Dict.dict (list string)))
      (fieldss : list (list string)) :
  (forall bd, In bd ds -> In bd (all_fetched float fmt horizons)) ->
  Forall2 (fun bd fields => Dict.get bd jd = Some fields) ds fieldss ->
  Forall (fun fields => length fields = 6%nat) fieldss.
Proof.
  intros Hin Hall.
  induction Hall as [|bd fields ds fieldss Hget _ IH]; constructor.
  - apply (fetched_records bd jd); [apply Hin; now left | exact Hget].
  - apply IH. intros bd' Hbd'. apply Hin. now right.
Qed.

Lemma written_row_shape (jd : string) (row : list string) :
  extend_row jd (all_fetched float fmt horizons) [jd] = Some row ->
  hd_error row = Some jd /\ length row = 55%nat.
Proof.
  intro H. destruct (extend_row_Some _ _ _ _ H) as (fieldss & Hall & ->).
  split; [reflexivity|].
  pose proof (fields_six jd (all_fetched float fmt horizons) fieldss (fun _ H => H) Hall) as Hsix.
  cbn [app length]. rewrite (length_concat_six _ Hsix).
  apply Forall2_length in Hall. rewrite <- Hall. reflexivity.
Qed.

(** Every line of the Sun's table that parses is stored with the three
    hardcoded zeros, whatever the line holds. *)
Lemma sun_records_zero (body_id jd : string) (fields : list string) :
  Dict.get (fetch_body_data float fmt horizons body_id "Sun") jd = Some fields ->
  sun_record fmt fields.
Proof.
  intro Hget. pose proof (fetch_body_data_ok body_id "Sun") as Hok.
  rewrite Forall_forall in Hok.
  destruct (Hok _ (get_In _ _ _ Hget)) as (_ & _ & Hsun). exact (Hsun eq_refl).
Qed.

(** C9. In every data row of a planets CSV that the generator writes, the
    Sun's HelioDist, HelioLon and HelioLat columns (4, 5 and 6, after the
    Julian Date and the Sun's RA, Dec and GeoDist) are the literal 0.0 as
    the [.8f] and [.6f] formats print it; the row's Sun fields are the
    record the parser stored for that timestamp. *)
Theorem sun_heliocentric_zero
        (csv : list (list string)) (row : list string)
        (Hrun : main float fmt horizons = Wrote csv)
        (Hrow : In row (tl csv)) :
  exists jd ra dec g_dist others,
    row = jd :: ra :: dec :: g_dist
             :: fmt 8 0 :: fmt 6 0 :: fmt 6 0 :: others
    /\ Dict.get (fetch_body_data float fmt horizons "10" "Sun") jd
       = Some [ra; dec; g_dist; fmt 8 0; fmt 6 0; fmt 6 0].
Proof.
  destruct (main_wrote csv Hrun) as (l & _ & ->). cbn [tl] in Hrow.
  apply write_rows_In in Hrow. destruct Hrow as (jd & _ & Hext).
  destruct (extend_row_Some _ _ _ _ Hext) as (fieldss & Hall & ->).
  change (all_fetched float fmt horizons) with (fetched float fmt horizons ("10", "Sun")%string :: tl (all_fetched float fmt horizons)) in Hall.
  inversion Hall as [|bd fields ds fs Hget Hrest]; subst.
  destruct (sun_records_zero "10" jd fields Hget)
    as (ra & dec & g_dist & Hfields).
  subst fields.
  exists jd, ra, dec, g_dist, (concat fs). split; [reflexivity | exact Hget].
Qed.

(** C10. A planets CSV that the generator writes has its data rows in
    ascending numeric Julian Date order; a timestamp has a row if and only
    if each of the 9 bodies has a parsed record under exactly that
    timestamp; every row, like the header, has 1 + 9*6 = 55 columns. *)
Theorem planets_csv_sorted_complete
        (csv : list (list string))
        (Hrun : main float fmt horizons = Wrote csv) :
  exists header rows,
    csv = header :: rows
    /\ length (all_fetched float fmt horizons) = 9%nat
    /\ (exists qs, map (jd_of_row float) rows = map Some qs
                   /\ StronglySorted Qle qs)
    /\ (forall jd,
          (exists row, In row rows /\ hd_error row = Some jd)
          <-> Forall (fun bd => Dict.mem bd jd = true) (all_fetched float fmt horizons))
    /\ Forall (fun row => length row = 55%nat) rows
    /\ length header = 55%nat.
Proof.
  destruct (main_wrote csv Hrun) as (l & Hkeyed & ->).
  destruct (keyed_Some _ _ Hkeyed) as [Hsnd Hfloat].
  exists (header_of BODIES), (write_rows (map snd (sort_by_key l)) (all_fetched float fmt horizons)).
  split; [reflexivity|]. split; [reflexivity|]. split; [|split; [|split]].
  - destruct (write_rows_sorted (sort_by_key l) (all_fetched float fmt horizons))
      as (qs & Hmap & Hsorted & _).
    + apply Forall_forall. intros qk Hin.
      apply (proj1 (sort_by_key_In qk l)) in Hin.
      rewrite Forall_forall in Hfloat. exact (Hfloat qk Hin).
    + apply sort_by_key_sorted.
    + exists qs. split; assumption.
  - intro jd. split.
    + intros (row & Hin & Hhd). apply write_rows_In in Hin.
      destruct Hin as (jd' & _ & Hext).
      destruct (written_row_shape _ _ Hext) as [Hhd' _].
      assert (jd' = jd) by congruence. subst jd'.
      exact (extend_row_mem _ _ _ _ Hext).
    + intro Hall. destruct (extend_row_all jd (all_fetched float fmt horizons) [jd] Hall) as [r Hr].
      exists r. split; [|exact (proj1 (written_row_shape _ _ Hr))].
      apply write_rows_In. exists jd. split; [|exact Hr].
      assert (Hsun : In jd (Dict.keys (fetched float fmt horizons ("10", "Sun")%string))).
      { apply mem_keys.
        change (all_fetched float fmt horizons) with (fetched float fmt horizons ("10", "Sun")%string :: tl (all_fetched float fmt horizons)) in Hall.
        inversion Hall as [|bd ds Hbd Hds]. exact Hbd. }
      rewrite <- Hsnd in Hsun. apply in_map_iff in Hsun.
      destruct Hsun as (qk & Hk & Hin). apply in_map_iff. exists qk.
      split; [exact Hk|]. exact (proj2 (sort_by_key_In qk l) Hin).
  - apply Forall_forall. intros row Hin. apply write_rows_In in Hin.
    destruct Hin as (jd & _ & Hext). exact (proj2 (written_row_shape _ _ Hext)).
  - reflexivity.
Qed.

End WithBuiltins.

End GenerateFacts.

(* ================================================================== *)
(** * The theorems at concrete inputs *)
(* ================================================================== *)

Module Checks.
Import Py PyFloat Verify Compare SpecCircular Generate Samples.
Import VerifyFacts AngleFacts InterpolateFacts LoaderFacts GenerateFacts.
Local Open Scope Q_scope.

Ltac side := first [reflexivity | (vm_compute; lia) | (split; lra) | lra].

(** Before the table: no data. *)
Lemma interpolate_out_of_range_witness :
  bracket 2458999 times_ex = Return None
  /\ interpolate 2458999 times_ex rows_ex 1 = Return None.
Proof.
  apply (interpolate_out_of_range 2458999 times_ex rows_ex 1 2459000 2459002).
  - reflexivity.
  - reflexivity.
  - left. lra.
Defined.

(** JD 2459000.5 lies between rows 0 and 1. *)
Lemma bracket_monotonic_witness :
  exists low high t_low t_high,
    bracket (24590005 # 10) times_ex = Return (Some (low, high))
    /\ (low < high)%nat /\ high = (low + 1)%nat
    /\ nth_error times_ex low = Some t_low
    /\ nth_error times_ex high = Some t_high
    /\ t_low <= 24590005 # 10 /\ 24590005 # 10 <= t_high.
Proof.
  refine (proj1 (bracket_monotonic (24590005 # 10) times_ex 2459000 2459002
                   _ _ _)).
  - reflexivity.
  - reflexivity.
  - split; lra.
Defined.

(** C4, the claim as written: JD 2459001 lies strictly between the first
    and the last Julian Date and is the Julian Date of row 1, an exact
    match; the search returns the adjacent pair (1, 2), not low = high. *)
Lemma bracket_exact_match_counterexample :
  nth_error times_ex 0 = Some 2459000
  /\ nth_error times_ex (length times_ex - 1) = Some 2459002
  /\ 2459000 < 2459001 /\ 2459001 < 2459002
  /\ nth_error times_ex 1 = Some 2459001
  /\ bracket 2459001 times_ex = Return (Some (1, 2)%nat)
  /\ bracket 2459001 times_ex <> Return (Some (1, 1)%nat).
Proof.
  repeat split; try reflexivity. vm_compute. discriminate.
Qed.

(** The specification's scenario: half way between the first two rows. *)
Example interpolate_half_way :
  interpolate (24590005 # 10) times_ex rows_ex 1
  = Return (Some (Finite 11, Finite (21 # 4), Finite (3 # 2))).
Proof. vm_compute. reflexivity. Qed.

(** An exact hit on the first row: bracketed by the first interval, and
    the arithmetic gives the row back. *)
Lemma interpolate_exact_match_witness :
  bracket 2459000 times_ex = Return (Some (0, 1)%nat)
  /\ exists ra dec dist,
       interpolate 2459000 times_ex rows_ex 1
       = Return (Some (Finite ra, Finite dec, Finite dist))
       /\ ra == 10 /\ dec == 5 /\ dist == 1.
Proof.
  destruct (interpolate_exact_match
              times_ex rows_ex 1 0 2459000
              [2459000; 10; 5; 1] [2459001; 12; 11 # 2; 2]
              10 12 5 (11 # 2) 1 2)
    as (Hb & t1 & t2 & frac & _ & _ & _ & _ & Hrun & Hcase).
  - reflexivity.
  - repeat constructor.
  - vm_compute; lia.
  - reflexivity.
  - reflexivity.
  - reflexivity.
  - reflexivity.
  - reflexivity.
  - reflexivity.
  - reflexivity.
  - reflexivity.
  - reflexivity.
  - split; [exact Hb|].
    destruct Hcase as [(_ & _ & Hdec & Hdist & Hra) | (Hi & _)].
    + destruct (Hdec eq_refl eq_refl) as (dec & Edec & Hdec').
      destruct (Hdist eq_refl eq_refl) as (dist & Edist & Hdist').
      destruct (Hra eq_refl) as (ra & Era & Hra'); [split; lra | split; lra|].
      exists ra, dec, dist. rewrite Hrun, Era, Edec, Edist.
      repeat split; assumption.
    + vm_compute in Hi. discriminate Hi.
Defined.

(** C2, the claim as written: on an exact hit the search does not return
    [low = high]; it returns the adjacent pair, and the interpolator goes
    through its division and its arithmetic.  With a single row that
    division is by zero.  On the last row of a table whose last two
    declinations are the doubles 0.7 and 0.1 the arithmetic does not give
    the stored 0.1 back. *)
Lemma exact_match_counterexample :
  ascending [1; 2] = true
  /\ nth_error [1; 2] 0 = Some 1
  /\ bracket 1 [1; 2] = Return (Some (0, 1)%nat)
  /\ bracket 1 [1; 2] <> Return (Some (0, 0)%nat)
  /\ interpolate 1 [1] [[1; 10; 20; 30]] 1 = Raise ZeroDivisionError
  /\ exists dec,
       interpolate 2 MoreSamples.times_two MoreSamples.rows_two 1
       = Return (Some (Finite 20, Finite dec, Finite 2))
       /\ dec < MoreSamples.d0_1.
Proof.
  repeat split; try reflexivity.
  - vm_compute. discriminate.
  - eexists. split; vm_compute; reflexivity.
Qed.

(** A right ascension outside [0, 360) does not come back verbatim. *)
Example exact_match_wraps_ra :
  interpolate 1 [1; 2] [[1; 400; 5; 1]; [2; 400; 6; 2]] 1
  = Return (Some (Finite 40, Finite 5, Finite 1)).
Proof. vm_compute. reflexivity. Qed.

(** Endpoints 359 and 1 at one half. *)
Lemma circular_step_witness :
  exists delta r,
    wrap_delta (fsub (Finite 1) (Finite 359)) = Finite delta
    /\ (-180 <= delta /\ delta <= 180)
    /\ interp_ra (Finite 359) (Finite 1) (Finite (1 # 2)) = Finite r
    /\ (0 <= r /\ r < 360).
Proof.
  destruct (circular_step 359 1 (1 # 2))
    as (delta & r & Hw & Hd & _ & _ & Hr & Hrange & _).
  - split; lra.
  - split; lra.
  - split; lra.
  - exists delta, r. repeat split; tauto.
Defined.

(** C5, the claim as written: for endpoints 0 and 180 the code's delta is
    180 where the formula gives -180 (which is outside (-180, 180]), and
    at one half the code returns 90 where the formula gives 270.  Far
    outside one turn (endpoints 0 and 1000) the single conditional step
    leaves a delta of 640. *)
Lemma circular_step_counterexample :
  wrap_delta (fsub (Finite 180) (Finite 0)) = Finite 180
  /\ spec_delta 0 180 == -180
  /\ ~ -180 < spec_delta 0 180
  /\ interp_ra (Finite 0) (Finite 180) (Finite (1 # 2)) = Finite 90
  /\ spec_circular 0 180 (1 # 2) == 270
  /\ wrap_delta (fsub (Finite 1000) (Finite 0)) = Finite 640
  /\ interp_ra (Finite 0) (Finite 1000) (Finite (1 # 4)) = Finite 160
  /\ spec_circular 0 1000 (1 # 4) == 340.
Proof.
  repeat split; try (vm_compute; reflexivity).
  intro H; vm_compute in H; discriminate H.
Qed.

(** Differences of 20 degrees and of 340. *)
Lemma angle_diff_shortest_witness :
  exists r,
    angle_diff (Finite 350) (Finite 10) = Return (Finite r)
    /\ -180 < r /\ r <= 180.
Proof.
  destruct (angle_diff_shortest 350 10) as (r & Hr & H1 & H2 & _).
  - reflexivity.
  - exists r. repeat split; assumption.
Defined.

(** C8, the claim as written: for angles 0 and 180 [angle_diff] gives
    +180 where the interpolator's step on the same difference keeps
    -180, so the two are not one rule; and for the doubles 0 and 0.1 the
    result is not congruent to the difference -0.1 modulo 360 (it is off
    in the last places). *)
Lemma angle_diff_counterexample :
  angle_diff (Finite 0) (Finite 180) = Return (Finite 180)
  /\ wrap_delta (fsub (Finite 0) (Finite 180)) = Finite (-180)
  /\ exists r,
       angle_diff (Finite 0) (Finite MoreSamples.d0_1) = Return (Finite r)
       /\ ~ r == 0 - MoreSamples.d0_1
       /\ ~ exists k : Z, r == (0 - MoreSamples.d0_1) + 360 * inject_Z k.
Proof.
  split; [vm_compute; reflexivity|]. split; [vm_compute; reflexivity|].
  eexists. split; [vm_compute; reflexivity|]. split.
  - intro H. vm_compute in H. discriminate H.
  - intros [k Hk].
    assert (Hlo : -1 < inject_Z k).
    { apply (Qmult_lt_l _ _ 360); [reflexivity|].
      apply Qlt_le_trans with (360 * inject_Z k); [|apply Qle_refl].
      rewrite <- (Qplus_lt_r _ _ (0 - MoreSamples.d0_1)), <- Hk.
      vm_compute. reflexivity. }
    assert (Hhi : inject_Z k < 0).
    { apply (Qmult_lt_l _ _ 360); [reflexivity|].
      rewrite <- (Qplus_lt_r _ _ (0 - MoreSamples.d0_1)), <- Hk.
      vm_compute. reflexivity. }
    change (-1) with (inject_Z (-1)) in Hlo. change 0 with (inject_Z 0) in Hhi.
    rewrite <- Zlt_Qlt in Hlo, Hhi. lia.
Qed.

(** *** The arithmetic is that of binary64 *)

(** [0.7 + (0.1 - 0.7) * 1.0] is [0.09999999999999998], below both. *)
Example lerp_rounds :
  lerp (Finite MoreSamples.d0_7) (Finite MoreSamples.d0_1) (Finite 1)
  = of_Q (9999999999999998 # 100000000000000000)
  /\ of_Q (9999999999999998 # 100000000000000000)
     <> Finite MoreSamples.d0_1.
Proof. split; [vm_compute; reflexivity | vm_compute; discriminate]. Qed.

(** Between right ascensions [0.0] and [359.99999999999994] at a quarter
    the sum [ra + 360] rounds to [360.0], and [0.0] is returned. *)
Example interp_ra_rounds :
  interp_ra (Finite 0) (of_Q (35999999999999994 # 100000000000000))
            (Finite (1 # 4))
  = Finite 0.
Proof. vm_compute. reflexivity. Qed.

(** [(-1e-20) % 360.0] is [360.0], and [angle_diff(-1e-20, 0)] is
    [0.0]. *)
Example float_mod_rounds :
  float_mod (of_Q (-1 # 100000000000000000000)) (Finite 360)
  = Return (Finite 360)
  /\ angle_diff (of_Q (-1 # 100000000000000000000)) (Finite 0)
     = Return (Finite 0).
Proof. split; vm_compute; reflexivity. Qed.

(** [angle_diff(0.05, 0)] is [0.05], [angle_diff(360.05, 0)] is
    [0.05000000000001137], and [angle_diff(0, 0.1)] is
    [-0.10000000000002274]. *)
Example angle_diff_rounds :
  angle_diff (Finite MoreSamples.d0_05) (Finite 0)
  = Return (Finite MoreSamples.d0_05)
  /\ angle_diff (of_Q (36005 # 100)) (Finite 0)
     = Return (of_Q (5000000000001137 # 100000000000000000))
  /\ angle_diff (Finite 0) (Finite MoreSamples.d0_1)
     = Return (of_Q (-10000000000002274 # 100000000000000000)).
Proof. repeat split; vm_compute; reflexivity. Qed.

(** A line with a field that is no number, and a blank line, are skipped;
    the other rows are loaded unchanged and in order. *)
Example load_file_skips_bad_line :
  load_file Decimal.float (Some moon_csv_bad)
  = Return (Some (map first_col (kept_rows Decimal.float [moon_line_1; moon_line_2])),
            Some (kept_rows Decimal.float [moon_line_1; moon_line_2])).
Proof. vm_compute. reflexivity. Qed.

(** C6, the claim as written: with W = 7, a line of two numeric fields is
    not omitted; it is loaded as a row of two values. *)
Lemma load_file_short_line_counterexample :
  (length moon_line_short < 7)%nat
  /\ exists times data,
       load_file Decimal.float (Some moon_csv_short)
       = Return (Some times, Some data)
       /\ length data = 3%nat
       /\ nth_error data 1 = Some [245900075 # 100; 135 # 10]
       /\ data <> kept_rows Decimal.float [moon_line_1; moon_line_2].
Proof.
  split; [vm_compute; lia|].
  eexists _, _. split; [vm_compute; reflexivity|].
  split; [reflexivity|]. split; [reflexivity|].
  vm_compute. discriminate.
Qed.

(** The sample run writes two rows: the timestamp that the comet lacks is
    left out, and the Sun's out-of-order timestamps come out ascending. *)
Example run_ex_wrote :
  run_ex = Wrote csv_ex
  /\ map (@hd_error string) csv_ex
     = [Some "JD"; Some "2459000.500000000"; Some "2459001.000000000"]%string.
Proof. split; vm_compute; reflexivity. Qed.

(** [sorted] is stable: equal numbers keep the order of their keys. *)
Example sorted_by_float_stable :
  sorted_by_float Decimal.float ["2"; "1.0"; "1.00"; "1"]%string
  = Some ["1.0"; "1.00"; "1"; "2"]%string.
Proof. vm_compute. reflexivity. Qed.

Lemma sun_heliocentric_zero_witness :
  exists jd ra dec g_dist others,
    nth 1 csv_ex []
    = (jd :: ra :: dec :: g_dist
          :: "0.00000000" :: "0.000000" :: "0.000000" :: others)%string.
Proof.
  destruct (sun_heliocentric_zero Decimal.float Decimal.fmt horizons_ex
              csv_ex (nth 1 csv_ex []))
    as (jd & ra & dec & g_dist & others & Hrow & _).
  - vm_compute. reflexivity.
  - vm_compute. left. reflexivity.
  - exists jd, ra, dec, g_dist, others. exact Hrow.
Defined.

Lemma planets_csv_sorted_complete_witness :
  exists header rows,
    csv_ex = header :: rows
    /\ (exists qs, map (jd_of_row Decimal.float) rows = map Some qs
                   /\ StronglySorted Qle qs)
    /\ Forall (fun row => length row = 55%nat) rows.
Proof.
  destruct (planets_csv_sorted_complete Decimal.float Decimal.fmt horizons_ex
              csv_ex)
    as (header & rows & Hcsv & _ & Hsorted & _ & Hwidth & _).
  - vm_compute. reflexivity.
  - exists header, rows. repeat split; assumption.
Defined.

End Checks.

(* ================================================================== *)
(** * Further properties of the scripts *)
(* ================================================================== *)

(** ** The interpolator inside the table and on small tables *)

Module InterpolateMore.
Import Py PyFloat Verify Compare VerifyFacts PyFloatFacts AngleFacts.
Import InterpolateFacts.
Local Open Scope Q_scope.

(** The division of the interpolator never raises between two rows in
    ascending order, and its result lies in [[0, 1]] when the difference
    of the two Julian Dates does not overflow. *)
Lemma frac_unit (target t1 t2 : Q) :
  is_double t1 = true -> is_double t2 = true ->
  t1 < t2 -> t1 <= target -> target <= t2 ->
  exists frac,
    fdiv (fsub (Finite target) (Finite t1)) (fsub (Finite t2) (Finite t1))
    = Return frac
    /\ (is_finite (fsub (Finite t2) (Finite t1)) = true ->
        exists f, frac = Finite f /\ 0 <= f /\ f <= 1).
Proof.
  intros Hd1 Hd2 Hlt H1 H2.
  destruct double_consts as (D0 & D1 & _).
  destruct (fsub_ascending t1 t2 Hd1 Hd2 Hlt) as [E | [E Hpos]]; rewrite E.
  - destruct (fsub (Finite target) (Finite t1)); eexists;
      (split; [reflexivity | discriminate]).
  - pose proof (rnd_nonneg (target - t1) ltac:(lra)) as Hn0.
    pose proof (rnd_mono (target - t1) (t2 - t1) ltac:(lra)) as Hn1.
    destruct (fsub_finite_inv t2 t1) as (_ & Hlo & Hhi);
      [rewrite E; reflexivity|].
    assert (En : fsub (Finite target) (Finite t1)
                 = Finite (rnd (target - t1))).
    { rewrite fsub_Finite.
      destruct (of_Q_cases (target - t1)) as [[H _] | [[H _] | (_ & _ & E')]];
        [lra | lra | exact E']. }
    rewrite En, fdiv_Finite by lra.
    set (n := rnd (target - t1)) in *. set (d := rnd (t2 - t1)) in *.
    assert (Hq0 : 0 <= n / d) by (apply Qle_shift_div_l; lra).
    assert (Hq1 : n / d <= 1) by (apply Qle_shift_div_r; lra).
    destruct (of_Q_between 0 1 (n / d) D0 D1 Hq0 Hq1) as (Ef & Hf0 & Hf1).
    exists (of_Q (n / d)). split; [reflexivity|].
    intros _. exists (rnd (n / d)). repeat split; assumption.
Qed.

Lemma nth_error_cols (row : list Q) (col : nat) :
  (col + 2 < length row)%nat ->
  exists a b c,
    nth_error row col = Some a
    /\ nth_error row (col + 1) = Some b
    /\ nth_error row (col + 2) = Some c.
Proof.
  intro H.
  destruct (index_lt row col ltac:(lia)) as (a & Ha & _).
  destruct (index_lt row (col + 1) ltac:(lia)) as (b & Hb & _).
  destruct (index_lt row (col + 2) ltac:(lia)) as (c & Hc & _).
  now exists a, b, c.
Qed.

(** Inside a strictly ascending table of doubles nothing is raised and
    nothing is extrapolated: the interpolator returns the three values
    computed from the two bracketing rows.  Where the span of the table
    does not overflow, the fraction is a double in [0, 1], and the right
    ascension returned is a double in [0, 360) when those of the two
    rows are. *)
Theorem interpolate_in_range
        (target_jd : Q) (times : list Q) (rows : list (list Q))
        (col_offset : nat) (t_first t_last : Q)
        (Hasc : ascending times = true)
        (Hdbl : Forall (fun t => is_double t = true) times)
        (Hlen : (2 <= length times)%nat)
        (Hfirst : nth_error times 0 = Some t_first)
        (Hlast : nth_error times (length times - 1) = Some t_last)
        (Hin : t_first <= target_jd /\ target_jd <= t_last)
        (Hrows : (length times <= length rows)%nat)
        (Hcols : Forall (fun row => (col_offset + 2 < length row)%nat) rows) :
  exists low row1 row2 ra1 ra2 dec1 dec2 dist1 dist2 frac,
    bracket target_jd times = Return (Some (low, S low))
    /\ nth_error rows low = Some row1 /\ nth_error rows (S low) = Some row2
    /\ nth_error row1 col_offset = Some ra1
    /\ nth_error row2 col_offset = Some ra2
    /\ nth_error row1 (col_offset + 1) = Some dec1
    /\ nth_error row2 (col_offset + 1) = Some dec2
    /\ nth_error row1 (col_offset + 2) = Some dist1
    /\ nth_error row2 (col_offset + 2) = Some dist2
    /\ interpolate target_jd times rows col_offset
       = Return (Some (interp_ra (Finite ra1) (Finite ra2) frac,
                       lerp (Finite dec1) (Finite dec2) frac,
                       lerp (Finite dist1) (Finite dist2) frac))
    /\ (is_finite (fsub (Finite t_last) (Finite t_first)) = true ->
        exists f,
          frac = Finite f /\ 0 <= f /\ f <= 1
          /\ (0 <= ra1 /\ ra1 < 360 -> 0 <= ra2 /\ ra2 < 360 ->
              exists r,
                interp_ra (Finite ra1) (Finite ra2) frac = Finite r
                /\ 0 <= r /\ r < 360)).
Proof.
  destruct (bracket_inside target_jd times t_first t_last Hlen Hfirst Hlast Hin)
    as (low & t1 & t2 & Hb & Ht1 & Ht2 & [Hle Hge] & _).
  assert (Hhi : (S low < length times)%nat)
    by (apply nth_error_Some; rewrite Ht2; discriminate).
  assert (Hlt : t1 < t2)
    by (apply (ascending_lt times Hasc low (S low)); auto).
  pose proof (Forall_nth_error _ _ _ _ Hdbl Ht1) as Hd1. cbv beta in Hd1.
  pose proof (Forall_nth_error _ _ _ _ Hdbl Ht2) as Hd2. cbv beta in Hd2.
  destruct (frac_unit target_jd t1 t2 Hd1 Hd2 Hlt Hle Hge) as (frac & Hf & Hunit).
  destruct (index_lt rows low ltac:(lia)) as (row1 & Hrow1 & _).
  destruct (index_lt rows (S low) ltac:(lia)) as (row2 & Hrow2 & _).
  rewrite Forall_forall in Hcols.
  destruct (nth_error_cols row1 col_offset
              (Hcols _ (nth_error_In _ _ Hrow1)))
    as (ra1 & dec1 & dist1 & Ha1 & Hb1 & Hc1).
  destruct (nth_error_cols row2 col_offset
              (Hcols _ (nth_error_In _ _ Hrow2)))
    as (ra2 & dec2 & dist2 & Ha2 & Hb2 & Hc2).
  exists low, row1, row2, ra1, ra2, dec1, dec2, dist1, dist2, frac.
  split; [exact Hb|]. repeat (split; [assumption|]). split.
  { unfold interpolate. rewrite Hb. cbn [bind].
    rewrite (index_Some _ _ _ Ht1), (index_Some _ _ _ Ht2). cbn [bind].
    rewrite Hf. cbn [bind].
    rewrite (index_Some _ _ _ Hrow1), (index_Some _ _ _ Hrow2). cbn [bind].
    rewrite (index_Some _ _ _ Ha1), (index_Some _ _ _ Ha2). cbn [bind].
    rewrite (index_Some _ _ _ Hb1), (index_Some _ _ _ Hb2). cbn [bind].
    rewrite (index_Some _ _ _ Hc1), (index_Some _ _ _ Hc2). cbn [bind].
    reflexivity. }
  intro Hspan.
  (* the interval is no wider than the table *)
  assert (H1 : t_first <= t1)
    by (apply (ascending_le times Hasc 0 low); auto; lia).
  assert (H2 : t2 <= t_last)
    by (apply (ascending_le times Hasc (S low) (length times - 1)); auto; lia).
  destruct (fsub_finite_inv t_last t_first Hspan) as (_ & Hs1 & Hs2).
  assert (Hfin : is_finite (fsub (Finite t2) (Finite t1)) = true).
  { destruct (fsub_ascending t1 t2 Hd1 Hd2 Hlt) as [E | [E _]];
      [|rewrite E; reflexivity].
    exfalso. rewrite fsub_Finite in E.
    pose proof (rnd_mono (t2 - t1) (t_last - t_first) ltac:(lra)) as Hm.
    destruct (of_Q_cases (t2 - t1)) as [[H _] | [[_ E'] | (_ & _ & E')]];
      [lra | congruence | congruence]. }
  destruct (Hunit Hfin) as (f & -> & Hf0 & Hf1).
  exists f. repeat split; try assumption.
  intros [Ha Ha'] [Hb' Hb''].
  destruct (interp_ra_range ra1 ra2 f Ha Ha' Hb' Hb'' Hf0 Hf1)
    as (_ & r & _ & _ & _ & _ & Er & Hr0 & Hr1).
  exists r. repeat split; assumption.
Qed.

(** A table of fewer than two rows never yields a value: empty, the
    first subscript raises; with one row the answer is [None] away from
    its Julian Date and a division by zero at it. *)
Theorem interpolate_small_table
        (target_jd : Q) (rows : list (list Q)) (col_offset : nat) :
  interpolate target_jd [] rows col_offset = Raise IndexError
  /\ forall t : Q,
       (target_jd == t ->
        interpolate target_jd [t] rows col_offset = Raise ZeroDivisionError)
       /\ (~ target_jd == t ->
           interpolate target_jd [t] rows col_offset = Return None).
Proof.
  split; [reflexivity|]. intro t.
  unfold interpolate, bracket. cbn [index nth_error bind length Nat.sub].
  split; intro H.
  - replace (Qltb target_jd t) with false by (symmetry; apply Qltb_ge; lra).
    replace (Qltb t target_jd) with false by (symmetry; apply Qltb_ge; lra).
    cbn [bisect Nat.sub Nat.leb bind index nth_error].
    rewrite (fsub_Finite t t), (of_Q_zero (t - t)) by ring.
    reflexivity.
  - destruct (Qltb target_jd t) eqn:E1; [reflexivity|].
    destruct (Qltb t target_jd) eqn:E2; [reflexivity|].
    qbool. exfalso. apply H. lra.
Qed.

End InterpolateMore.

(** ** The converter: rows of another width, and distinct data *)

Module CodecMore.
Import Bytes Float64 Codec BytesFacts Float64Facts CodecFacts.

(** The first row of another width, if there is one. *)
Lemma first_bad_row (n : nat) (df : list (list binary64)) :
  Forall (fun row => length row = n) df
  \/ exists good bad rest,
       df = good ++ bad :: rest
       /\ Forall (fun row => length row = n) good
       /\ length bad <> n.
Proof.
  induction df as [|row df IH]; [left; constructor|].
  destruct (Nat.eq_dec (length row) n) as [Hrow | Hrow].
  - destruct IH as [Hall | (good & bad & rest & -> & Hgood & Hbad)].
    + left. now constructor.
    + right. exists (row :: good), bad, rest. repeat split; auto.
  - right. exists [], row, df. repeat split; auto.
Qed.

(** The run succeeds exactly when every row has the expected width; the
    first row of another width raises [struct.error], and the file then
    holds the records of the rows before it and nothing of the rows
    after. *)
Theorem convert_csv_to_bin_struct_error
        (df : list (list binary64)) (num_data_cols : nat) :
  (Forall (fun row => length row = 1 + num_data_cols) df
   <-> exists file, convert_csv_to_bin df num_data_cols = Success file)
  /\ (forall good bad rest,
        df = good ++ bad :: rest ->
        Forall (fun row => length row = 1 + num_data_cols) good ->
        length bad <> 1 + num_data_cols ->
        convert_csv_to_bin df num_data_cols
        = StructError (flat_map (fun row => flat_map pack_d row) good)).
Proof.
  assert (Hstop : forall good bad rest,
             df = good ++ bad :: rest ->
             Forall (fun row => length row = 1 + num_data_cols) good ->
             length bad <> 1 + num_data_cols ->
             convert_csv_to_bin df num_data_cols
             = StructError (flat_map (fun row => flat_map pack_d row) good)).
  { intros good bad rest -> Hgood Hbad. unfold convert_csv_to_bin. cbv zeta.
    now rewrite (write_rows_stops _ good bad rest [] Hgood Hbad). }
  split; [split|exact Hstop].
  - intro Hall. exists (flat_map (flat_map pack_d) df).
    unfold convert_csv_to_bin. cbv zeta.
    now rewrite (write_rows_all _ df [] Hall).
  - intros [file Hrun].
    destruct (first_bad_row (1 + num_data_cols) df)
      as [Hall | (good & bad & rest & Hdf & Hgood & Hbad)]; [exact Hall|].
    rewrite (Hstop good bad rest Hdf Hgood Hbad) in Hrun. discriminate.
Qed.

Lemma records_back (w : nat) (rows : list (list binary64)) :
  Forall (fun row => length row = w) rows ->
  Forall (Forall valid) rows ->
  map (fun rec => map unpack_d (pieces 8 w rec))
      (pieces (w * 8) (length rows) (flat_map (flat_map pack_d) rows))
  = rows.
Proof.
  intros Hw Hv.
  rewrite (pieces_flat_map _ (w * 8) rows (record_sizes w rows Hw)).
  rewrite map_map. rewrite <- (map_id rows) at 2. apply map_ext_in.
  intros row Hin. rewrite Forall_forall in Hw, Hv.
  rewrite <- (Hw row Hin), (pieces_flat_map pack_d 8 row (double_sizes row)).
  rewrite map_map. rewrite <- (map_id row) at 2. apply map_ext_in.
  intros d Hd. apply unpack_pack_d.
  specialize (Hv row Hin). rewrite Forall_forall in Hv. now apply Hv.
Qed.

(** Two data frames of doubles that convert to the same file are the
    same data frame: no two datasets share a binary file. *)
Theorem convert_csv_to_bin_injective
        (df1 df2 : list (list binary64)) (num_data_cols : nat)
        (file : list byte)
        (Hrun1 : convert_csv_to_bin df1 num_data_cols = Success file)
        (Hrun2 : convert_csv_to_bin df2 num_data_cols = Success file)
        (Hvalid1 : Forall (Forall valid) df1)
        (Hvalid2 : Forall (Forall valid) df2) :
  df1 = df2.
Proof.
  set (w := 1 + num_data_cols) in *.
  assert (Hw : forall df, convert_csv_to_bin df num_data_cols = Success file ->
                          Forall (fun row => length row = w) df
                          /\ file = flat_map (flat_map pack_d) df).
  { intros df Hrun.
    destruct (first_bad_row w df)
      as [Hall | (good & bad & rest & -> & Hgood & Hbad)].
    - split; [exact Hall|]. unfold convert_csv_to_bin in Hrun. cbv zeta in Hrun.
      fold w in Hrun. rewrite (write_rows_all w df [] Hall) in Hrun.
      now injection Hrun as <-.
    - unfold convert_csv_to_bin in Hrun. cbv zeta in Hrun. fold w in Hrun.
      rewrite (write_rows_stops w good bad rest [] Hgood Hbad) in Hrun.
      discriminate. }
  destruct (Hw df1 Hrun1) as [Hw1 Hf1]. destruct (Hw df2 Hrun2) as [Hw2 Hf2].
  assert (Hlen : length df1 = length df2).
  { assert (H1 : length file = length df1 * (w * 8))
      by (rewrite Hf1; apply length_flat_map_uniform, record_sizes, Hw1).
    assert (H2 : length file = length df2 * (w * 8))
      by (rewrite Hf2; apply length_flat_map_uniform, record_sizes, Hw2).
    unfold w in *. nia. }
  rewrite <- (records_back w df1 Hw1 Hvalid1), <- (records_back w df2 Hw2 Hvalid2).
  now rewrite <- Hf1, <- Hf2, Hlen.
Qed.

End CodecMore.

(** ** [compare_value] *)

Module CompareMore.
Import Py PyFloat Verify Compare CompareRest.
Import VerifyFacts PyFloatFacts AngleFacts.
Local Open Scope Q_scope.

(** The divisor of [angle_diff] is the literal 360.0: nothing is
    raised, whatever the two floats are. *)
Lemma angle_diff_returns (a b : pyfloat) :
  exists d, angle_diff a b = Return d.
Proof.
  unfold angle_diff, float_mod. change (Qeq_bool 360 0) with false.
  destruct (fsub a b) as [x| | |]; cbv zeta.
  - destruct (Qeq_bool (fmod x 360) 0); [cbn [bind]; eauto|].
    destruct (xorb _ _); cbn [bind]; eauto.
  - cbn [bind]. eauto.
  - cbn [bind]. eauto.
  - cbn [bind]. eauto.
Qed.

(** [compare_value] raises [TypeError] exactly when both values are
    missing, and nothing else ever.  For a label it takes as an angle
    and two finite values whose difference does not overflow, the
    difference printed is a double in (-180, 180], flagged exactly when
    its magnitude exceeds the tolerance.  Of the labels [main] uses,
    those taken as angles are the two right ascensions, the azimuth and
    the ecliptic longitude. *)
Theorem compare_value_angular
        (label : string) (o h tolerance : Q)
        (Hangular : is_angular label = true)
        (Hfin : is_finite (fsub (Finite o) (Finite h)) = true) :
  (exists d flag,
      compare_value label (Some (Finite o)) (Some (Finite h))
                    (Finite tolerance)
      = Return (Printed (Diff (Finite d) flag))
      /\ -180 < d /\ d <= 180
      /\ (flag = true <-> tolerance < Qabs d))
  /\ (forall lbl ov hv tol,
        compare_value lbl ov hv tol = Return TypeError
        <-> ov = None /\ hv = None)
  /\ (forall lbl ov hv tol, exists s, compare_value lbl ov hv tol = Return s)
  /\ map is_angular main_labels
     = [true; false; true; false; true; false; false; true; false].
Proof.
  split; [|split; [|split]].
  - destruct (angle_diff_range o h Hfin) as (d & Ed & H1 & H2 & _).
    exists d, (fgt (fabs (Finite d)) (Finite tolerance)).
    unfold compare_value. rewrite Hangular, Ed. cbn [bind].
    split; [reflexivity|]. split; [exact H1|]. split; [exact H2|].
    unfold fgt. cbn [fabs].
    destruct (flt_Finite tolerance (Qabs d)) as [[E H] | [E H]]; rewrite E.
    + split; auto.
    + split; [discriminate|]. intro Hlt. exfalso. lra.
  - intros lbl ov hv tol. unfold compare_value.
    destruct ov as [o'|], hv as [h'|]; cbn.
    + destruct (is_angular lbl).
      * destruct (angle_diff_returns o' h') as [d ->]. cbn [bind].
        split; [discriminate | intros [H _]; discriminate].
      * cbn [bind]. split; [discriminate | intros [H _]; discriminate].
    + split; [discriminate | intros [H _]; discriminate].
    + split; [discriminate | intros [_ H]; discriminate].
    + split; auto.
  - intros lbl ov hv tol. unfold compare_value.
    destruct ov as [o'|], hv as [h'|]; try (eexists; reflexivity).
    destruct (is_angular lbl).
    + destruct (angle_diff_returns o' h') as [d ->]. cbn [bind]. eauto.
    + cbn [bind]. eauto.
  - vm_compute. reflexivity.
Qed.

End CompareMore.

(** ** The planets generator: what is kept, where it goes, when it fails *)

Module GenerateMore.
Import Py Str Verify VerifyFacts Generate DictFacts SortFacts GenerateFacts.
Local Open Scope Q_scope.

Lemma set_keys {V : Type} (d : Dict.dict V) (k : string) (v : V) :
  Dict.keys (Dict.set d k v)
  = if Dict.mem d k then Dict.keys d else Dict.keys d ++ [k].
Proof.
  unfold Dict.keys, Dict.mem.
  induction d as [|[k' v'] d IH]; cbn [Dict.set Dict.get map]; [reflexivity|].
  destruct (String.eqb k' k) eqn:E.
  - apply String.eqb_eq in E. subst k'. reflexivity.
  - cbn [map fst]. rewrite IH. destruct (Dict.get d k); reflexivity.
Qed.

Lemma set_NoDup {V : Type} (d : Dict.dict V) (k : string) (v : V) :
  NoDup (Dict.keys d) -> NoDup (Dict.keys (Dict.set d k v)).
Proof.
  intro H. rewrite set_keys. destruct (Dict.mem d k) eqn:E; [exact H|].
  apply NoDup_app; [exact H | constructor; [intros [] | constructor] |].
  intros x Hx [<- | []]. apply mem_keys in Hx. congruence.
Qed.

Lemma insert_by_key_NoDup (x : Q * string) (l : list (Q * string)) :
  ~ In (snd x) (map snd l) -> NoDup (map snd l) ->
  NoDup (map snd (insert_by_key x l)).
Proof.
  induction l as [|y l IH]; intros Hx Hl; cbn [insert_by_key map].
  - constructor; [intros [] | constructor].
  - destruct (Qltb (fst y) (fst x)); cbn [map].
    + inversion Hl as [|? ? Hy Hl']; subst. constructor.
      * intro Hin. apply in_map_iff in Hin. destruct Hin as (z & Hz & Hin).
        apply insert_by_key_In in Hin. destruct Hin as [-> | Hin].
        -- apply Hx. left. now rewrite Hz.
        -- apply Hy. rewrite <- Hz. now apply in_map.
      * apply IH; [|exact Hl']. intro Hin. apply Hx. now right.
    + constructor; assumption.
Qed.

Lemma sort_by_key_NoDup (l : list (Q * string)) :
  NoDup (map snd l) -> NoDup (map snd (sort_by_key l)).
Proof.
  induction l as [|x l IH]; cbn [sort_by_key fold_right map]; [constructor|].
  intro H. inversion H as [|? ? Hx Hl]; subst.
  apply insert_by_key_NoDup; [|now apply IH].
  intro Hin. apply Hx. apply in_map_iff in Hin. destruct Hin as (z & Hz & Hin).
  apply (proj1 (sort_by_key_In z l)) in Hin. rewrite <- Hz. now apply in_map.
Qed.

Section WithBuiltins.

Variable float : string -> option Q.
Variable fmt : nat -> Q -> string.
Variable horizons : string -> option (list string).

Lemma parse_rows_NoDup (body_name : string) (data_lines : list string)
      (parsed_data : Dict.dict (list string)) :
  NoDup (Dict.keys parsed_data) ->
  NoDup (Dict.keys (parse_rows float fmt body_name data_lines parsed_data)).
Proof.
  revert parsed_data.
  induction data_lines as [|row rest IH]; intros parsed_data H;
    cbn [parse_rows]; [exact H|].
  destruct (parse_row float fmt body_name row) as [[jd fields]|].
  - apply IH. now apply set_NoDup.
  - now apply IH.
Qed.

Lemma fetch_body_data_NoDup (body_id body_name : string) :
  NoDup (Dict.keys (fetch_body_data float fmt horizons body_id body_name)).
Proof.
  unfold fetch_body_data. destruct (horizons body_id); [|constructor].
  apply parse_rows_NoDup. constructor.
Qed.

Lemma write_rows_NoDup (master_jds : list string)
      (all_data : list (Dict.dict (list string))) :
  NoDup master_jds ->
  NoDup (map (@hd_error string) (write_rows master_jds all_data)).
Proof.
  induction 1 as [|jd rest Hjd _ IH]; cbn [write_rows]; [constructor|].
  destruct (extend_row jd all_data [jd]) as [row|] eqn:E; [|exact IH].
  cbn [map]. constructor; [|exact IH].
  destruct (extend_row_Some _ _ _ _ E) as (fieldss & _ & ->). cbn [app hd_error].
  intro Hin. apply in_map_iff in Hin. destruct Hin as (r & Hr & Hin).
  apply write_rows_In in Hin. destruct Hin as (jd' & Hjd' & Hext).
  destruct (extend_row_Some _ _ _ _ Hext) as (fs & _ & ->).
  cbn [app hd_error] in Hr. injection Hr as ->. contradiction.
Qed.

(** No timestamp is written twice: the data rows of the CSV start with
    pairwise different Julian Date texts. *)
Theorem planets_csv_distinct_timestamps
        (csv : list (list string))
        (Hrun : main float fmt horizons = Wrote csv) :
  NoDup (map (@hd_error string) (tl csv)).
Proof.
  destruct (main_wrote float fmt horizons csv Hrun) as (l & Hkeyed & ->).
  cbn [tl]. apply write_rows_NoDup.
  destruct (keyed_Some float _ _ Hkeyed) as [Hsnd _].
  apply sort_by_key_NoDup. rewrite Hsnd. apply fetch_body_data_NoDup.
Qed.

End WithBuiltins.

End GenerateMore.

Module GenerateLayout.
Import Py Str Verify VerifyFacts Generate GenerateAux DictFacts SortFacts GenerateFacts.
Local Open Scope Q_scope.

Lemma block_lines_outside (pre rest : list string) :
  Forall no_SOE pre ->
  block_lines (pre ++ rest) false = block_lines rest false.
Proof.
  induction 1 as [|line pre Hline _ IH]; [reflexivity|].
  cbn [app block_lines]. unfold no_SOE in Hline. rewrite Hline.
  destruct (contains "$$EOE" line); cbn [app]; exact IH.
Qed.

Lemma block_lines_inside (mid rest : list string) :
  Forall no_EOE mid ->
  block_lines (mid ++ rest) true = mid ++ block_lines rest true.
Proof.
  induction 1 as [|line mid Hline _ IH]; [reflexivity|].
  cbn [app block_lines]. unfold no_EOE in Hline. rewrite Hline.
  destruct (contains "$$SOE" line); cbn [app]; now rewrite IH.
Qed.

(** The data lines are the lines strictly between the start marker and
    the end marker: nothing before the first [$$SOE], neither marker
    line, nothing after [$$EOE]. *)
Theorem block_lines_between
        (pre mid post : list string) (soe eoe : string)
        (Hpre : Forall no_SOE pre)
        (Hsoe : contains "$$SOE" soe = true)
        (Hmid : Forall no_EOE mid)
        (Heoe : contains "$$EOE" eoe = true /\ no_SOE eoe)
        (Hpost : Forall no_SOE post) :
  block_lines (pre ++ soe :: mid ++ eoe :: post) false = mid.
Proof.
  destruct Heoe as [Heoe Heoe'].
  rewrite (block_lines_outside pre _ Hpre).
  cbn [block_lines]. rewrite Hsoe.
  replace (if contains "$$EOE" soe then false else false) with false
    by (destruct (contains "$$EOE" soe); reflexivity).
  cbn [app]. rewrite (block_lines_inside mid _ Hmid).
  cbn [block_lines]. rewrite Heoe. unfold no_SOE in Heoe'. rewrite Heoe'.
  cbn [app]. rewrite <- (app_nil_r post), (block_lines_outside post [] Hpost).
  cbn [block_lines]. apply app_nil_r.
Qed.

Section WithBuiltins.

Variable float : string -> option Q.
Variable fmt : nat -> Q -> string.
Variable horizons : string -> option (list string).

(** The right ascension and declination fields never decide whether a
    line is kept, and touch only the first two stored fields; a field
    that is not three tokens is stored as the number zero. *)
Theorem parse_row_angles
        (body_name row row' : string)
        (Hlen : length (split_on "," row) = length (split_on "," row'))
        (Hsame : forall i, i <> 3%nat -> i <> 4%nat ->
                           part (split_on "," row) i = part (split_on "," row') i) :
  option_map beside_angles (parse_row float fmt body_name row)
  = option_map beside_angles (parse_row float fmt body_name row')
  /\ forall s,
       (forall p0 p1 p2, split_ws (strip s) <> [p0; p1; p2]) ->
       hms_to_deg float s = 0 /\ dms_to_deg float s = 0.
Proof.
  split.
  - unfold parse_row. cbv zeta.
    rewrite Hlen, (Hsame 0%nat), (Hsame 5%nat), (Hsame 6%nat), (Hsame 7%nat),
      (Hsame 9%nat) by discriminate.
    destruct (float (strip (part (split_on "," row') 0))); [|reflexivity].
    destruct (String.eqb body_name "Sun").
    + destruct (length (split_on "," row') <? 6)%nat; [reflexivity|].
      destruct (float (strip (part (split_on "," row') 5))); reflexivity.
    + destruct (length (split_on "," row') <? 10)%nat; [reflexivity|].
      destruct (float (strip (part (split_on "," row') 5))); [|reflexivity].
      destruct (float (strip (part (split_on "," row') 6))); [|reflexivity].
      destruct (float (strip (part (split_on "," row') 7))); [|reflexivity].
      destruct (float (strip (part (split_on "," row') 9))); reflexivity.
  - intros s Hs. unfold hms_to_deg, dms_to_deg.
    destruct (split_ws (strip s)) as [|p0 [|p1 [|p2 [|p3 l]]]];
      try (split; reflexivity).
    exfalso. now apply (Hs p0 p1 p2).
Qed.

Lemma fetch_all_result (bodies : list (string * string))
      (acc : list (Dict.dict (list string))) :
  (Forall (fun b => Dict.is_empty (fetched float fmt horizons b) = false) bodies
   /\ fetch_all float fmt horizons bodies acc
      = inr (acc ++ map (fetched float fmt horizons) bodies))
  \/ (exists before id name after,
        bodies = before ++ (id, name) :: after
        /\ Forall (fun b => Dict.is_empty (fetched float fmt horizons b) = false) before
        /\ Dict.is_empty (fetched float fmt horizons (id, name)) = true
        /\ fetch_all float fmt horizons bodies acc = inl name).
Proof.
  revert acc. induction bodies as [|[bid name] bodies IH]; intro acc.
  - left. split; [constructor|]. cbn. now rewrite app_nil_r.
  - cbn [fetch_all].
    destruct (Dict.is_empty (fetch_body_data float fmt horizons bid name)) eqn:E.
    + right. exists [], bid, name, bodies. repeat split; auto.
    + destruct (IH (acc ++ [fetch_body_data float fmt horizons bid name]))
        as [[Hall Hrun] | (before & id & nm & after & -> & Hbefore & Hempty & Hrun)].
      * left. split; [constructor; assumption|].
        rewrite Hrun. cbn [map]. now rewrite <- app_assoc.
      * right. exists ((bid, name) :: before), id, nm, after.
        repeat split; auto.
Qed.

(** A CSV is written only when every one of the nine bodies returned at
    least one record; otherwise [main] gives up at the first body
    without data, and writes nothing. *)
Theorem main_needs_every_body :
  ((exists csv, main float fmt horizons = Wrote csv)
   <-> Forall (fun bd => Dict.is_empty bd = false)
              (all_fetched float fmt horizons))
  /\ (forall name,
        main float fmt horizons = Failed name
        <-> exists before id after,
              BODIES = before ++ (id, name) :: after
              /\ Forall (fun b => Dict.is_empty (fetched float fmt horizons b) = false)
                        before
              /\ Dict.is_empty (fetched float fmt horizons (id, name)) = true).
Proof.
  pose proof (main_total float fmt horizons) as Htotal.
  unfold main, main_for in *.
  destruct (fetch_all_result BODIES [])
    as [[Hall Hrun] | (before & id & nm & after & HB & Hbefore & Hempty & Hrun)];
    rewrite Hrun in *.
  - split.
    + split; [intros _ | intros _].
      * unfold all_fetched. apply Forall_map. exact Hall.
      * destruct Htotal as [[name H] | H]; [|exact H].
        unfold merge in H. cbn [app map BODIES] in H.
        destruct (sorted_by_float float _); discriminate.
    + intro name. split.
      * intro H. exfalso. destruct Htotal as [[n Hn] | [csv Hcsv]].
        -- unfold merge in Hn. cbn [app map BODIES] in Hn.
           destruct (sorted_by_float float _); discriminate.
        -- rewrite Hcsv in H. discriminate.
      * intros (b' & id' & a' & HB' & Hb' & He'). exfalso.
        rewrite HB' in Hall. apply Forall_app in Hall. destruct Hall as [_ Hall].
        inversion Hall as [|? ? Hne _]; subst. congruence.
  - split.
    + split; [intros [csv H]; discriminate|].
      intro Hall. exfalso. unfold all_fetched in Hall. rewrite HB in Hall.
      rewrite map_app in Hall. apply Forall_app in Hall. destruct Hall as [_ Hall].
      cbn [map] in Hall. inversion Hall as [|? ? Hne _]; subst. congruence.
    + intro name. split.
      * intro H. injection H as <-. now exists before, id, after.
      * intros (b' & id' & a' & HB' & Hb' & He').
        assert (nm = name); [|now subst].
        clear Hrun Htotal. rewrite HB in HB'. clear HB.
        revert b' HB' Hb'. induction Hbefore as [|x before Hx _ IH]; intros b' HB' Hb'.
        -- destruct b' as [|y b']; cbn [app] in HB'.
           ++ now injection HB'.
           ++ injection HB' as Hy _. subst y.
              inversion Hb' as [|? ? Hne _]; subst. congruence.
        -- destruct b' as [|y b']; cbn [app] in HB'.
           ++ injection HB' as Hy _. subst x. congruence.
           ++ injection HB' as Hy HB'. subst y.
              inversion Hb' as [|? ? _ Hb'']; subst. now apply (IH b').
Qed.

End WithBuiltins.

End GenerateLayout.

(** ** Where the merge puts each body *)

Module MergeLayout.
Import Py Str Verify VerifyFacts Generate DictFacts SortFacts GenerateFacts.
Import CodecFacts.
Local Open Scope Q_scope.

Lemma Forall2_nth_error {A B : Type} (R : A -> B -> Prop)
      (l : list A) (l' : list B) (k : nat) (a : A) :
  Forall2 R l l' -> nth_error l k = Some a ->
  exists b, nth_error l' k = Some b /\ R a b.
Proof.
  intro H. revert k. induction H as [|x y l l' Hxy _ IH]; intros k Hk.
  - destruct k; discriminate.
  - destruct k as [|k]; cbn [nth_error] in *.
    + injection Hk as <-. now exists y.
    + now apply IH.
Qed.

Lemma concat_at (fieldss : list (list string)) (k : nat) (fields : list string) :
  Forall (fun f => length f = 6%nat) fieldss ->
  nth_error fieldss k = Some fields ->
  firstn 6 (skipn (6 * k) (concat fieldss)) = fields.
Proof.
  intro H. revert k. induction H as [|f fs Hf _ IH]; intros k Hk.
  - destruct k; discriminate.
  - destruct k as [|k]; cbn [nth_error concat] in *.
    + injection Hk as <-. rewrite Nat.mul_0_r. cbn [skipn].
      now apply firstn_exact.
    + replace (6 * S k)%nat with (6 * k + 6)%nat by lia.
      rewrite <- skipn_skipn, (skipn_exact f _ 6 Hf). now apply IH.
Qed.

Section WithBuiltins.

Variable float : string -> option Q.
Variable fmt : nat -> Q -> string.
Variable horizons : string -> option (list string).

(** In a written row the six fields of the body at position [k] of
    [BODIES] stand in columns [1 + 6k .. 6 + 6k] and are the record that
    body has for the row's timestamp; the header names these columns
    after the body. *)
Theorem merged_row_layout
        (csv : list (list string)) (row : list string) (jd : string)
        (k : nat) (b : string * string)
        (Hrun : main float fmt horizons = Wrote csv)
        (Hrow : In row (tl csv))
        (Hjd : hd_error row = Some jd)
        (Hk : nth_error BODIES k = Some b) :
  exists fields,
    Dict.get (fetched float fmt horizons b) jd = Some fields
    /\ firstn 6 (skipn (1 + 6 * k) row) = fields
    /\ firstn 6 (skipn (1 + 6 * k) (hd [] csv))
       = map (fun suffix => (snd b ++ suffix)%string)
             ["_RA"; "_Dec"; "_GeoDist"; "_HelioDist"; "_HelioLon";
              "_HelioLat"]%string.
Proof.
  destruct (main_wrote float fmt horizons csv Hrun) as (l & _ & ->).
  cbn [tl hd] in *.
  apply write_rows_In in Hrow. destruct Hrow as (jd' & _ & Hext).
  destruct (extend_row_Some _ _ _ _ Hext) as (fieldss & Hall & ->).
  cbn [app hd_error] in Hjd. injection Hjd as ->.
  assert (Hnth : nth_error (all_fetched float fmt horizons) k
                 = Some (fetched float fmt horizons b)).
  { unfold all_fetched. now apply map_nth_error. }
  destruct (Forall2_nth_error _ _ _ k _ Hall Hnth) as (fields & Hf & Hget).
  exists fields. split; [exact Hget|]. split.
  - cbn [app]. change (1 + 6 * k)%nat with (S (6 * k)). cbn [skipn].
    apply concat_at; [|exact Hf].
    exact (fields_six float fmt horizons jd _ fieldss (fun _ H => H) Hall).
  - unfold header_of. change (1 + 6 * k)%nat with (S (6 * k)). cbn [skipn].
    set (names := fun b0 : string * string => _).
    destruct (flat_map_at names 6 BODIES k b) as (pre & post & -> & Hpre);
      [|exact Hk|].
    + apply Forall_forall. intros x _. reflexivity.
    + rewrite (skipn_exact pre _ (6 * k)) by lia.
      now rewrite (firstn_exact (names b) post 6).
Qed.

End WithBuiltins.

End MergeLayout.

(** ** The city list *)

Module CitiesFacts.
Import Py Str Cities VerifyFacts.

Section WithInt.

Variable int : string -> option Z.

Lemma index_part (parts : list string) (i : nat) :
  i < length parts -> index parts i = Return (Generate.part parts i).
Proof.
  intro H. destruct (index_lt parts i H) as (a & Ha & ->).
  unfold Generate.part. now rewrite (nth_error_nth _ _ _ Ha).
Qed.

Lemma select_cities_readable (lines : list string)
      (ctc : Dict.dict string) (acc : list (list string)) :
  Forall (readable int) lines ->
  select_cities int lines ctc acc
  = Return (acc ++ flat_map (city_rows int ctc) lines).
Proof.
  intro H. revert acc. induction H as [|line lines [Hlen Hint] _ IH]; intro acc.
  - cbn. now rewrite app_nil_r.
  - cbn [select_cities flat_map]. cbv zeta.
    rewrite (index_part _ 14) by lia. cbn [bind].
    unfold city_rows. cbv zeta.
    destruct (int (Generate.part (split_on tab line) 14)) as [population|];
      [|contradiction].
    destruct (100000 <? population)%Z.
    + rewrite !index_part by lia. cbn [bind]. rewrite IH.
      now rewrite <- app_assoc.
    + now rewrite IH.
Qed.

Lemma select_cities_unreadable (good : list string) (bad : string)
      (rest : list string) (ctc : Dict.dict string) (acc : list (list string)) :
  Forall (readable int) good -> ~ readable int bad ->
  select_cities int (good ++ bad :: rest) ctc acc
  = Raise (if length (split_on tab bad) <? 15 then IndexError else ValueError).
Proof.
  intros Hgood Hbad. revert acc.
  induction Hgood as [|line lines [Hlen Hint] _ IH]; intro acc.
  - cbn [app select_cities]. cbv zeta.
    destruct (length (split_on tab bad) <? 15) eqn:E.
    + apply Nat.ltb_lt in E. unfold index.
      replace (nth_error (split_on tab bad) 14) with (@None string)
        by (symmetry; apply nth_error_None; lia).
      reflexivity.
    + apply Nat.ltb_ge in E. rewrite (index_part _ 14) by lia. cbn [bind].
      destruct (int (Generate.part (split_on tab bad) 14)) eqn:Ei; [|reflexivity].
      exfalso. apply Hbad. split; [exact E | congruence].
  - cbn [app select_cities]. cbv zeta.
    rewrite (index_part _ 14) by lia. cbn [bind].
    destruct (int (Generate.part (split_on tab line) 14)) as [population|];
      [|contradiction].
    destruct (100000 <? population)%Z.
    + rewrite !index_part by lia. cbn [bind]. apply IH.
    + apply IH.
Qed.

(** With a country table read, the city list is the header followed, in
    the order of the file, by one five-field row for every city line
    whose population exceeds 100000 (the continent looked up by country
    code, ["Unknown"] when the table lacks it); a line of fewer than 15
    fields or with a population that is no integer raises, and then no
    list is produced at all. *)
Theorem generateCityList_selects
        (countryInfo cities15000 : list string) (ctc : Dict.dict string)
        (Hctc : parse_countries countryInfo [] = Return ctc) :
  (Forall (readable int) cities15000 ->
   generateCityList int countryInfo cities15000
   = Return (csv_header :: flat_map (city_rows int ctc) cities15000))
  /\ (forall good bad rest,
        cities15000 = good ++ bad :: rest ->
        Forall (readable int) good -> ~ readable int bad ->
        generateCityList int countryInfo cities15000
        = Raise (if length (split_on tab bad) <? 15
                 then IndexError else ValueError))
  /\ (forall line row,
        In row (city_rows int ctc line) ->
        length row = 5
        /\ exists population,
             int (Generate.part (split_on tab line) 14) = Some population
             /\ (100000 < population)%Z
             /\ nth_error row 2
                = Some (continent_of ctc (Generate.part (split_on tab line) 8))).
Proof.
  split; [|split].
  - intro H. unfold generateCityList. rewrite Hctc. cbn [bind].
    rewrite (select_cities_readable _ ctc [] H). reflexivity.
  - intros good bad rest -> Hgood Hbad. unfold generateCityList.
    rewrite Hctc. cbn [bind].
    rewrite (select_cities_unreadable good bad rest ctc [] Hgood Hbad).
    reflexivity.
  - intros line row Hin. unfold city_rows in Hin. cbv zeta in Hin.
    destruct (int (Generate.part (split_on tab line) 14)) as [population|];
      [|destruct Hin].
    destruct (100000 <? population)%Z eqn:E; [|destruct Hin].
    destruct Hin as [<- | []]. split; [reflexivity|].
    exists population. apply Z.ltb_lt in E. repeat split; auto.
Qed.

End WithInt.

End CitiesFacts.

(** ** The interval found by the search *)

Module BracketMore.
Import Py Verify VerifyFacts.
Local Open Scope Q_scope.

(** Before the last Julian Date the interval found is half open: the
    lower sample is at or before the target and the upper one strictly
    after it.  In a strictly ascending table it is the only such pair of
    neighbours. *)
Theorem bracket_half_open
        (target_jd : Q) (times : list Q) (t_first t_last : Q)
        (Hfirst : nth_error times 0 = Some t_first)
        (Hlast : nth_error times (length times - 1) = Some t_last)
        (Hin : t_first <= target_jd /\ target_jd < t_last) :
  exists low t_low t_high,
    bracket target_jd times = Return (Some (low, S low))
    /\ nth_error times low = Some t_low
    /\ nth_error times (S low) = Some t_high
    /\ t_low <= target_jd /\ target_jd < t_high
    /\ (ascending times = true ->
        forall i a b,
          nth_error times i = Some a -> nth_error times (S i) = Some b ->
          a <= target_jd -> target_jd < b -> i = low).
Proof.
  destruct Hin as [H1 H2].
  assert (Hlen : (2 <= length times)%nat).
  { destruct times as [|a [|b l]]; simpl in *; try lia.
    - discriminate.
    - injection Hfirst as E1. injection Hlast as E2. subst t_first t_last.
      exfalso. apply (Qlt_irrefl a). now apply Qle_lt_trans with target_jd. }
  destruct (bracket_inside target_jd times t_first t_last Hlen Hfirst Hlast)
    as (low & t_low & t_high & Hrun & Hlo & Hhi & [Hle Hge] & Hstrict).
  { split; [exact H1 | now apply Qlt_le_weak]. }
  assert (Hlt : target_jd < t_high).
  { destruct Hstrict as [Heq | H]; [|exact H].
    rewrite Heq, Hlast in Hhi. now injection Hhi as <-. }
  exists low, t_low, t_high. repeat split; auto.
  intros Hasc i a b Ha Hb Hale Hltb.
  destruct (Nat.lt_trichotomy i low) as [Hi | [Hi | Hi]]; [|exact Hi|]; exfalso.
  - assert (b <= t_low) by (apply (ascending_le times Hasc (S i) low); auto; lia).
    apply (Qlt_irrefl target_jd).
    apply Qlt_le_trans with b; [exact Hltb|]. now apply Qle_trans with t_low.
  - assert (t_high <= a) by (apply (ascending_le times Hasc (S low) i); auto; lia).
    apply (Qlt_irrefl target_jd).
    apply Qlt_le_trans with t_high; [exact Hlt|]. now apply Qle_trans with a.
Qed.

End BracketMore.

(** ** The further properties at concrete inputs *)

Module MoreChecks.
Import Py Verify Compare Str Generate Samples MoreSamples.
Import Float64 Codec PyFloat CompareRest GenerateAux.
Local Open Scope Q_scope.

(** Half way between the first two rows: a value is returned, the
    fraction is a double in [0, 1] and the right ascension one in
    [0, 360). *)
Lemma interpolate_in_range_witness :
  exists ra dec dist f r,
    interpolate (24590005 # 10) times_ex rows_ex 1
    = Return (Some (ra, dec, dist))
    /\ 0 <= f /\ f <= 1
    /\ ra = Finite r /\ 0 <= r /\ r < 360.
Proof.
  destruct (InterpolateMore.interpolate_in_range
              (24590005 # 10) times_ex rows_ex 1 2459000 2459002)
    as (low & row1 & row2 & ra1 & ra2 & dec1 & dec2 & dist1 & dist2 & frac
        & Hb & Hr1 & Hr2 & Ha1 & Ha2 & _ & _ & _ & _ & Hrun & Hspan).
  - reflexivity.
  - repeat constructor.
  - vm_compute; lia.
  - reflexivity.
  - reflexivity.
  - split; lra.
  - vm_compute; lia.
  - repeat constructor.
  - assert (Hlow : low = 0%nat).
    { vm_compute in Hb. now injection Hb as <-. }
    subst low. vm_compute in Hr1, Hr2.
    injection Hr1 as <-. injection Hr2 as <-.
    vm_compute in Ha1, Ha2.
    injection Ha1 as <-. injection Ha2 as <-.
    destruct (Hspan eq_refl) as (f & Ef & Hf0 & Hf1 & Hra).
    destruct Hra as (r & Er & Hr0 & Hr1'); [split; lra | split; lra|].
    eexists _, _, _, f, r. split; [exact Hrun|].
    repeat split; assumption.
Defined.

(** An azimuth of 350 degrees against 10: a difference of -20. *)
Lemma compare_value_angular_witness :
  exists d flag,
    compare_value "Azimuth" (Some (Finite 350)) (Some (Finite 10))
                  (Finite d0_05)
    = Return (Printed (Diff (Finite d) flag))
    /\ -180 < d /\ d <= 180
    /\ (flag = true <-> d0_05 < Qabs d).
Proof.
  refine (proj1 (CompareMore.compare_value_angular "Azimuth" 350 10 d0_05 _ _)).
  - reflexivity.
  - reflexivity.
Defined.

(** The moon records and their re-read copy convert to the same file. *)
Lemma convert_csv_to_bin_injective_witness :
  moon_df = moon_df_reread.
Proof.
  apply (CodecMore.convert_csv_to_bin_injective
           moon_df moon_df_reread 6 moon_file).
  - vm_compute. reflexivity.
  - vm_compute. reflexivity.
  - repeat constructor; vm_compute; congruence.
  - repeat constructor; vm_compute; congruence.
Defined.

Lemma planets_csv_distinct_timestamps_witness :
  NoDup (map (@hd_error string) (tl csv_ex)).
Proof.
  apply (GenerateMore.planets_csv_distinct_timestamps
           Decimal.float Decimal.fmt horizons_ex csv_ex).
  vm_compute. reflexivity.
Defined.

(** The Sun's response: two lines, the start marker, three data lines,
    the end marker, one line. *)
Lemma block_lines_between_witness :
  block_lines (sun_pre ++ "$$SOE"%string :: sun_mid ++ "$$EOE"%string :: sun_post)
              false
  = sun_mid.
Proof.
  apply (GenerateLayout.block_lines_between
           sun_pre sun_mid sun_post "$$SOE" "$$EOE").
  - repeat constructor.
  - reflexivity.
  - repeat constructor.
  - split; reflexivity.
  - repeat constructor.
Defined.

(** A line is kept with the same other fields when both angles are not
    available. *)
Lemma parse_row_angles_witness :
  option_map beside_angles
             (parse_row Decimal.float Decimal.fmt "Mars" planet_row)
  = option_map beside_angles
               (parse_row Decimal.float Decimal.fmt "Mars" planet_row_na).
Proof.
  refine (proj1 (GenerateLayout.parse_row_angles
                   Decimal.float Decimal.fmt "Mars" planet_row planet_row_na
                   _ _)).
  - reflexivity.
  - intros i H3 H4.
    do 12 (destruct i as [|i]; [first [reflexivity | congruence]|]).
    destruct i; reflexivity.
Defined.

(** The comet is at position 8: its record stands in columns 49 to 54. *)
Lemma merged_row_layout_witness :
  exists fields,
    Dict.get (fetched Decimal.float Decimal.fmt horizons_ex
                      ("90000030", "Halley")%string)
             "2459000.500000000"
    = Some fields
    /\ firstn 6 (skipn (1 + 6 * 8) (nth 1 csv_ex [])) = fields.
Proof.
  destruct (MergeLayout.merged_row_layout
              Decimal.float Decimal.fmt horizons_ex
              csv_ex (nth 1 csv_ex []) "2459000.500000000" 8
              ("90000030", "Halley")%string)
    as (fields & Hget & Hrow & _).
  - vm_compute. reflexivity.
  - vm_compute. left. reflexivity.
  - reflexivity.
  - reflexivity.
  - exists fields. split; assumption.
Defined.

(** Paris and Cape Town are listed, Gex is not; South Africa is not in
    the sample country table. *)
Lemma generateCityList_selects_witness :
  Cities.generateCityList DecimalInt.int countries_ex cities_ex
  = Return (Cities.csv_header
              :: flat_map (Cities.city_rows DecimalInt.int ctc_ex) cities_ex).
Proof.
  refine (proj1 (CitiesFacts.generateCityList_selects
                   DecimalInt.int countries_ex cities_ex ctc_ex _) _).
  - vm_compute. reflexivity.
  - repeat apply Forall_cons; try apply Forall_nil;
      (split; [vm_compute; lia | vm_compute; discriminate]).
Defined.

Example generateCityList_sample :
  Cities.generateCityList DecimalInt.int countries_ex cities_ex
  = Return [Cities.csv_header;
            ["Paris"; "FR"; "EU"; "48.85341"; "2.3488"];
            ["Cape Town"; "ZA"; "Unknown"; "-33.92584"; "18.42322"]]%string.
Proof. vm_compute. reflexivity. Qed.

(** JD 2459000.5 lies in the first interval, strictly before its end. *)
Lemma bracket_half_open_witness :
  exists low t_low t_high,
    bracket (24590005 # 10) times_ex = Return (Some (low, S low))
    /\ t_low <= 24590005 # 10 /\ 24590005 # 10 < t_high.
Proof.
  destruct (BracketMore.bracket_half_open
              (24590005 # 10) times_ex 2459000 2459002)
    as (low & t_low & t_high & Hb & _ & _ & Hle & Hlt & _).
  - reflexivity.
  - reflexivity.
  - split; lra.
  - exists low, t_low, t_high. repeat split; assumption.
Defined.

(** At [main]'s tolerance of 0.05 for the azimuth, 0.05 against 0 is not
    flagged, and 360.05 against 0 is: the difference comes out as
    0.05000000000001137. *)
Example compare_value_flag :
  compare_value "Azimuth" (Some (Finite d0_05)) (Some (Finite 0))
                (Finite d0_05)
  = Return (Printed (Diff (Finite d0_05) false))
  /\ compare_value "Azimuth" (Some (of_Q (36005 # 100))) (Some (Finite 0))
                   (Finite d0_05)
     = Return (Printed (Diff (of_Q (5000000000001137 # 100000000000000000))
                             true)).
Proof. split; vm_compute; reflexivity. Qed.

End MoreChecks.
